(** * Tabler Icons IntelliSense: cache, scanner, registry and updater

    A shallow embedding of the extension's core ([extension.ts]): the
    bounded image cache ([lruGet], [lruSet], [getSvgDataUrl]), the token
    scanner (the [/ti ti-([a-z0-9-]+)/g] loop of [updateDecorations]), the
    decoration registry ([getDecorationForIcon]), the decoration updater
    ([updateDecorations]) and the catalog loader with the suggestion list
    ([loadIconFiles], [provideCompletionItems]).

    The host platform (file system, URIs, editor, decoration API) is not
    part of the extension; what the extension observes of it is passed in
    explicitly. *)

From Stdlib Require Import String Ascii.
From Stdlib Require Strings.Byte.
From Stdlib Require Import List NArith Arith Lia Bool.
Import ListNotations.
Open Scope list_scope.

(* ================================================================= *)
(** * JavaScript strings *)

(** A JavaScript string is a sequence of UTF-16 code units; [match.index]
    and [length] count code units. *)
Definition code_unit := N.
Definition jsstring := list code_unit.

(** The string of an ASCII literal. *)
Definition js (s : string) : jsstring :=
  map N_of_ascii (list_ascii_of_string s).

Fixpoint jsstring_eqb (a b : jsstring) : bool :=
  match a, b with
  | [], [] => true
  | x :: a', y :: b' => N.eqb x y && jsstring_eqb a' b'
  | _, _ => false
  end.

(** [if (s)] on a string: only the empty string is falsy. *)
Definition truthy (s : jsstring) : bool :=
  match s with
  | [] => false
  | _ :: _ => true
  end.

(** [s.startsWith(p)]. *)
Fixpoint startsWith (s p : jsstring) : bool :=
  match p, s with
  | [], _ => true
  | x :: p', y :: s' => N.eqb x y && startsWith s' p'
  | _ :: _, [] => false
  end.

(** [s.includes(p)]. *)
Fixpoint includes (s p : jsstring) : bool :=
  startsWith s p ||
  match s with
  | [] => false
  | _ :: s' => includes s' p
  end.

(** [s.endsWith(p)]. *)
Definition endsWith (s p : jsstring) : bool :=
  (length p <=? length s) &&
  jsstring_eqb (skipn (length s - length p) s) p.

(** [s.substring(i, j)] for [i <= j]. *)
Definition substring (s : jsstring) (i j : nat) : jsstring :=
  firstn (j - i) (skipn i s).

(* ================================================================= *)
(** * JavaScript [Map] with string keys

    A [Map] iterates in insertion order: [set] on a new key appends, [set]
    on a present key keeps the key's place and replaces the value,
    [delete] removes the key.  The model is the list of entries, oldest
    insertion first. *)

Module JsMap.
Section WithValue.
Variable V : Type.

Definition t := list (jsstring * V).

Definition empty : t := [].

Fixpoint get (m : t) (key : jsstring) : option V :=
  match m with
  | [] => None
  | (k, v) :: m' => if jsstring_eqb k key then Some v else get m' key
  end.

Definition has (m : t) (key : jsstring) : bool :=
  match get m key with
  | Some _ => true
  | None => false
  end.

Fixpoint delete (m : t) (key : jsstring) : t :=
  match m with
  | [] => []
  | (k, v) :: m' =>
      if jsstring_eqb k key then delete m' key else (k, v) :: delete m' key
  end.

Fixpoint set (m : t) (key : jsstring) (val : V) : t :=
  match m with
  | [] => [(key, val)]
  | (k, v) :: m' =>
      if jsstring_eqb k key then (key, val) :: m' else (k, v) :: set m' key val
  end.

Definition size (m : t) : nat := length m.

Definition keys (m : t) : list jsstring := map fst m.

Definition values (m : t) : list V := map snd m.

Definition entries (m : t) : list (jsstring * V) := m.

(** [m.keys().next().value]: the oldest key, [undefined] on an empty map. *)
Definition first_key (m : t) : option jsstring :=
  match m with
  | [] => None
  | (k, _) :: _ => Some k
  end.

(** A [Map] holds each key once. *)
Definition wf (m : t) : Prop := NoDup (keys m).

End WithValue.

Arguments empty {V}.
Arguments get {V} m key.
Arguments has {V} m key.
Arguments delete {V} m key.
Arguments set {V} m key val.
Arguments size {V} m.
Arguments keys {V} m.
Arguments values {V} m.
Arguments entries {V} m.
Arguments first_key {V} m.
Arguments wf {V} m.
End JsMap.

(* ================================================================= *)
(** * Image cache (bounded LRU) *)

(** [const SVG_CACHE_MAX = 300]. *)
Definition SVG_CACHE_MAX : nat := 300.

Definition Cache := JsMap.t jsstring.

Section ImageCache.

(** The capacity bound the operations compare against; the extension runs
    them at [SVG_CACHE_MAX]. *)
Variable bound : nat.

(** [lruGet(cache, key)]: the value read and the cache afterwards. *)
Definition lruGet (cache : Cache) (key : jsstring) : option jsstring * Cache :=
  match JsMap.get cache key with
  | None => (None, cache)
  | Some v => (Some v, JsMap.set (JsMap.delete cache key) key v)
  end.

(** The three statements of [lruSet], one function per statement. *)
Definition lruSet_drop (cache : Cache) (key : jsstring) : Cache :=
  if JsMap.has cache key then JsMap.delete cache key else cache.

Definition lruSet_put (cache : Cache) (key val : jsstring) : Cache :=
  JsMap.set cache key val.

Definition lruSet_evict (cache : Cache) : Cache :=
  if bound <? JsMap.size cache then
    match JsMap.first_key cache with
    | Some oldestKey =>
        if truthy oldestKey then JsMap.delete cache oldestKey else cache
    | None => cache
    end
  else cache.

(** [lruSet(cache, key, val)]. *)
Definition lruSet (cache : Cache) (key val : jsstring) : Cache :=
  lruSet_evict (lruSet_put (lruSet_drop cache key) key val).

(** The cache after each statement of [lruSet], in execution order. *)
Definition lruSet_steps (cache : Cache) (key val : jsstring) : list Cache :=
  let c1 := lruSet_drop cache key in
  let c2 := lruSet_put c1 key val in
  let c3 := lruSet_evict c2 in
  [c1; c2; c3].

End ImageCache.

(* ================================================================= *)
(** * Host platform as the extension observes it *)

Definition bytes := list Byte.byte.

(** [vscode.Uri], known to the extension through [fsPath] only. *)
Record Uri := { fsPath : jsstring }.

(** The exception [fs.readFileSync] or [fs.readdirSync] throws. *)
Inductive Error :=
| ReadError (path : jsstring).

(** How a call ends: with a value or with an exception leaving the function. *)
Inductive Outcome (A : Type) :=
| Returns (a : A)
| Throws (e : Error).
Arguments Returns {A} a.
Arguments Throws {A} e.

(** The file system at the time of a call; [None] is a thrown error. *)
Record FileSystem := {
  readFileSync : jsstring -> option bytes;
  readdirSync : jsstring -> option (list jsstring)
}.

(** What is fixed once the extension is activated. *)
Record Host := {
  extensionUriGlobal : Uri;
  (** [vscode.Uri.joinPath(base, ...segments)] *)
  joinPath : Uri -> list jsstring -> Uri;
  (** [Buffer.from(buf).toString("base64")] *)
  base64 : bytes -> jsstring
}.

(** [getSvgDataUrl(iconName)] on the cache [svgDataUrlCache]: how the call
    ends and the cache afterwards. *)
Definition getSvgDataUrl (bound : nat) (host : Host) (fs : FileSystem)
    (svgDataUrlCache : Cache) (iconName : jsstring)
  : Outcome jsstring * Cache :=
  let (cached, cache1) := lruGet svgDataUrlCache iconName in
  let miss :=
    let imgUri :=
      joinPath host (extensionUriGlobal host)
        [js "media"; js "icons"; iconName ++ js ".svg"] in
    match readFileSync fs (fsPath imgUri) with
    | None => (Throws (ReadError (fsPath imgUri)), cache1)
    | Some svgBuf =>
        let b64 := base64 host svgBuf in
        let dataUrl := js "data:image/svg+xml;base64," ++ b64 in
        (Returns dataUrl, lruSet bound cache1 iconName dataUrl)
    end in
  match cached with
  | Some v => if truthy v then (Returns v, cache1) else miss
  | None => miss
  end.

(** A sequence of [getSvgDataUrl] calls, each with the file system of its
    moment.  The state carries the cache and the identifiers of the calls
    that completed (hit or insert), in call order. *)
Definition CacheOp := (FileSystem * jsstring)%type.

Definition cacheStep (bound : nat) (host : Host)
    (st : Cache * list jsstring) (op : CacheOp) : Cache * list jsstring :=
  match getSvgDataUrl bound host (fst op) (fst st) (snd op) with
  | (Returns _, cache') => (cache', snd st ++ [snd op])
  | (Throws _, cache') => (cache', snd st)
  end.

Definition cacheRun (bound : nat) (host : Host) (ops : list CacheOp)
  : Cache * list jsstring :=
  fold_left (cacheStep bound host) ops (JsMap.empty, []).

(** Recency order of an access history: its distinct identifiers, most
    recently accessed first. *)
Definition removeKey (k : jsstring) (l : list jsstring) : list jsstring :=
  filter (fun x => negb (jsstring_eqb x k)) l.

Fixpoint distinct (l : list jsstring) : list jsstring :=
  match l with
  | [] => []
  | x :: l' => x :: removeKey x (distinct l')
  end.

Definition mostRecent (history : list jsstring) : list jsstring :=
  distinct (rev history).

(* ================================================================= *)
(** * Token scanner: [/ti ti-([a-z0-9-]+)/g] *)

(** The class [[a-z0-9-]]. *)
Definition isBody (c : code_unit) : bool :=
  ((97 <=? c) && (c <=? 122) || (48 <=? c) && (c <=? 57) || (c =? 45))%N.

(** The longest run of class characters at the start of [s] (greedy [+]). *)
Fixpoint bodyRun (s : jsstring) : jsstring :=
  match s with
  | c :: s' => if isBody c then c :: bodyRun s' else []
  | [] => []
  end.

(** The pattern anchored at the start of [s]: the captured group. *)
Definition matchHere (s : jsstring) : option jsstring :=
  if startsWith s (js "ti ti-") then
    match bodyRun (skipn 6 s) with
    | [] => None
    | c :: body => Some (c :: body)
    end
  else None.

(** [RegExpExecArray]: [match.index], [match[0]], [match[1]]. *)
Record RegExpExecArray := {
  index : nat;
  match0 : jsstring;
  group1 : jsstring
}.

(** Leftmost match in [s], whose first unit has index [i] in the line. *)
Fixpoint searchFrom (s : jsstring) (i : nat) : option RegExpExecArray :=
  match matchHere s with
  | Some body =>
      Some {| index := i; match0 := js "ti ti-" ++ body; group1 := body |}
  | None =>
      match s with
      | [] => None
      | _ :: s' => searchFrom s' (S i)
      end
  end.

(** [regex.exec(text)] of a global regex: the match and the new
    [lastIndex]; a failed search resets [lastIndex] to 0. *)
Definition regex_exec (text : jsstring) (lastIndex : nat)
  : option RegExpExecArray * nat :=
  if length text <? lastIndex then (None, 0)
  else
    match searchFrom (skipn lastIndex text) lastIndex with
    | Some m => (Some m, index m + length (match0 m))
    | None => (None, 0)
    end.

(** [while ((match = regex.exec(text))) { body }] with the loop state [acc];
    [None] when the fuel runs out before [exec] returns [null]. *)
Fixpoint execLoop {A : Type} (body : A -> RegExpExecArray -> A)
    (fuel : nat) (text : jsstring) (lastIndex : nat) (acc : A)
  : option (A * nat) :=
  match fuel with
  | 0 => None
  | S fuel' =>
      match regex_exec text lastIndex with
      | (None, lastIndex') => Some (acc, lastIndex')
      | (Some m, lastIndex') =>
          execLoop body fuel' text lastIndex' (body acc m)
      end
  end.

(** Each match consumes at least one unit, so this fuel is enough
    (see [execLoop_enough]). *)
Definition lineFuel (text : jsstring) : nat := S (length text).

Record Position := { line : nat; character : nat }.
Record Range := { start : Position; end_ : Position }.
Record DecorationOptions := { range : Range }.

(** The identifier and range the loop body computes from a match. *)
Definition iconNameOf (m : RegExpExecArray) : jsstring := group1 m.

Definition rangeOf (lineNo : nat) (m : RegExpExecArray) : Range :=
  {| start := {| line := lineNo; character := index m |};
     end_ := {| line := lineNo;
                character := index m + length (match0 m) |} |}.

(** The matches of one line, in order, scanning from [lastIndex = 0]. *)
Definition scanMatches (text : jsstring) : option (list RegExpExecArray) :=
  match execLoop (fun acc m => acc ++ [m]) (lineFuel text) text 0 [] with
  | Some (ms, _) => Some ms
  | None => None
  end.

(** A MatchSpan: line, start offset, end offset, identifier. *)
Record MatchSpan := {
  span_line : nat;
  span_start : nat;
  span_end : nat;
  span_icon : jsstring
}.

Definition spanOf (lineNo : nat) (m : RegExpExecArray) : MatchSpan :=
  {| span_line := line (start (rangeOf lineNo m));
     span_start := character (start (rangeOf lineNo m));
     span_end := character (end_ (rangeOf lineNo m));
     span_icon := iconNameOf m |}.

(** The token scanner on one line. *)
Definition scanLine (lineNo : nat) (text : jsstring) : option (list MatchSpan) :=
  option_map (map (spanOf lineNo)) (scanMatches text).

(** The text a span covers. *)
Definition covered (text : jsstring) (sp : MatchSpan) : jsstring :=
  substring text (span_start sp) (span_end sp).

(** The positions at which the pattern matches in [s], counted from [i]. *)
Fixpoint occurrences (s : jsstring) (i : nat) : list nat :=
  match s with
  | [] => []
  | _ :: s' =>
      match matchHere s with
      | Some _ => i :: occurrences s' (S i)
      | None => occurrences s' (S i)
      end
  end.

Definition spansOverlap (a b : MatchSpan) : bool :=
  (span_line a =? span_line b) &&
  (span_start a <? span_end b) && (span_start b <? span_end a).

(* ================================================================= *)
(** * Decoration registry *)

(** The options [getDecorationForIcon] passes to
    [createTextEditorDecorationType]. *)
Record DecorationRenderOptions := {
  gutterIconPath : Uri;
  gutterIconSize : jsstring;
  before_contentIconPath : Uri;
  before_margin : jsstring;
  before_textDecoration : jsstring
}.

(** [vscode.TextEditorDecorationType]: an opaque handle; the host gives
    each one it creates a key of its own. *)
Record TextEditorDecorationType := {
  key : nat;
  options : DecorationRenderOptions
}.

(** The registry [decorationCache] together with the decoration types the
    host window has created so far, oldest first. *)
Record Registry := {
  decorationCache : JsMap.t TextEditorDecorationType;
  created : list TextEditorDecorationType
}.

Definition initialRegistry : Registry :=
  {| decorationCache := JsMap.empty; created := [] |}.

(** [vscode.window.createTextEditorDecorationType(options)]. *)
Definition createTextEditorDecorationType (r : Registry)
    (opts : DecorationRenderOptions) : TextEditorDecorationType * Registry :=
  let deco := {| key := length (created r); options := opts |} in
  (deco, {| decorationCache := decorationCache r;
            created := created r ++ [deco] |}).

(** [getDecorationForIcon(name)]. *)
Definition getDecorationForIcon (host : Host) (r : Registry) (name : jsstring)
  : TextEditorDecorationType * Registry :=
  match JsMap.get (decorationCache r) name with
  | Some cached => (cached, r)
  | None =>
      let iconUri :=
        joinPath host (extensionUriGlobal host)
          [js "media"; js "icons"; name ++ js ".svg"] in
      let (deco, r1) :=
        createTextEditorDecorationType r
          {| gutterIconPath := iconUri;
             gutterIconSize := js "18px";
             before_contentIconPath := iconUri;
             before_margin := js "0px 6px 0px 3px";
             before_textDecoration :=
               js "none; position: relative; top: 1px;" |} in
      (deco, {| decorationCache := JsMap.set (decorationCache r1) name deco;
                created := created r1 |})
  end.

(** A sequence of [getDecorationForIcon] calls: the handles returned, in
    call order, and the registry afterwards. *)
Fixpoint getDecorations (host : Host) (r : Registry) (names : list jsstring)
  : list TextEditorDecorationType * Registry :=
  match names with
  | [] => ([], r)
  | name :: rest =>
      let (deco, r1) := getDecorationForIcon host r name in
      let (decos, r2) := getDecorations host r1 rest in
      (deco :: decos, r2)
  end.

(* ================================================================= *)
(** * Decoration updater *)

Record TextDocument := {
  languageId : jsstring;
  (** [lineAt(i).text] for [i < lineCount] *)
  lines : list jsstring
}.

(** One [editor.setDecorations(deco, ranges)] call. *)
Definition Applied := (TextEditorDecorationType * list DecorationOptions)%type.

(** A text editor: its document and the [setDecorations] calls it has
    received, oldest first. *)
Record TextEditor := {
  document : TextDocument;
  applied : list Applied
}.

Definition setDecorations (editor : TextEditor)
    (deco : TextEditorDecorationType) (ranges : list DecorationOptions)
  : TextEditor :=
  {| document := document editor;
     applied := applied editor ++ [(deco, ranges)] |}.

(** What the editor shows for the decoration type with key [k]: each
    [setDecorations] call replaces the ranges of its decoration type, so
    the last call for [k] decides. *)
Definition renderedIn (calls : list Applied) (k : nat) : list DecorationOptions :=
  fold_left (fun shown call => if key (fst call) =? k then snd call else shown)
    calls [].

Definition rendered (editor : TextEditor) (k : nat) : list DecorationOptions :=
  renderedIn (applied editor) k.

Definition allowed : list jsstring :=
  [js "html"; js "svelte"; js "javascriptreact"; js "typescriptreact"].

(** [allowed.includes(lang)]. *)
Definition array_includes (l : list jsstring) (x : jsstring) : bool :=
  existsb (fun y => jsstring_eqb y x) l.

(** [for (const deco of decorationCache.values()) editor.setDecorations(deco, [])]. *)
Definition clearDecorations (r : Registry) (editor : TextEditor) : TextEditor :=
  fold_left (fun ed deco => setDecorations ed deco [])
    (JsMap.values (decorationCache r)) editor.

Definition RangesByIcon := JsMap.t (list DecorationOptions).

(** The body of the [while] loop on line [lineNo]. *)
Definition recordMatch (lineNo : nat) (rangesByIcon : RangesByIcon)
    (m : RegExpExecArray) : RangesByIcon :=
  let iconName := iconNameOf m in
  let range := rangeOf lineNo m in
  let rangesByIcon1 :=
    if negb (JsMap.has rangesByIcon iconName)
    then JsMap.set rangesByIcon iconName []
    else rangesByIcon in
  match JsMap.get rangesByIcon1 iconName with
  | Some ranges =>
      JsMap.set rangesByIcon1 iconName (ranges ++ [{| range := range |}])
  | None => rangesByIcon1
  end.

(** The [for] loop over the lines from [lineNo] on; the regex object, and
    so its [lastIndex], is shared by all lines.  [None] only if a line's
    loop runs out of fuel. *)
Fixpoint scanLines (lineNo : nat) (ls : list jsstring) (lastIndex : nat)
    (rangesByIcon : RangesByIcon) : option (RangesByIcon * nat) :=
  match ls with
  | [] => Some (rangesByIcon, lastIndex)
  | text :: rest =>
      match execLoop (recordMatch lineNo) (lineFuel text) text lastIndex
              rangesByIcon with
      | Some (rangesByIcon', lastIndex') =>
          scanLines (S lineNo) rest lastIndex' rangesByIcon'
      | None => None
      end
  end.

(** The identifier-to-ranges grouping of a document. *)
Definition groupRanges (doc : TextDocument) : option RangesByIcon :=
  option_map fst (scanLines 0 (lines doc) 0 JsMap.empty).

(** [for (const [iconName, ranges] of rangesByIcon.entries()) ...]. *)
Fixpoint applyRanges (host : Host)
    (entries : list (jsstring * list DecorationOptions))
    (r : Registry) (editor : TextEditor) : Registry * TextEditor :=
  match entries with
  | [] => (r, editor)
  | (iconName, ranges) :: rest =>
      let (deco, r1) := getDecorationForIcon host r iconName in
      applyRanges host rest r1 (setDecorations editor deco ranges)
  end.

(** [updateDecorations(editor)]: the registry and the editor afterwards;
    [None] only if the scan runs out of fuel. *)
Definition updateDecorations (host : Host) (r : Registry) (editor : TextEditor)
  : option (Registry * TextEditor) :=
  let doc := document editor in
  let lang := languageId doc in
  if negb (array_includes allowed lang) then
    Some (r, clearDecorations r editor)
  else
    let editor1 := clearDecorations r editor in
    match groupRanges doc with
    | Some rangesByIcon =>
        Some (applyRanges host (JsMap.entries rangesByIcon) r editor1)
    | None => None
    end.

(* ================================================================= *)
(** * Icon catalog and suggestion list *)

Record IconFile := { name : jsstring; uri : Uri }.

(** [path.basename(file, ext)] on a directory entry (no separators). *)
Definition basename (file ext : jsstring) : jsstring :=
  if endsWith file ext then firstn (length file - length ext) file else file.

(** [loadIconFiles()]: how the call ends and [iconFilesCache] afterwards. *)
Definition loadIconFiles (host : Host) (fs : FileSystem)
    (iconFilesCache : option (list IconFile))
  : Outcome (list IconFile) * option (list IconFile) :=
  match iconFilesCache with
  | Some cachedFiles => (Returns cachedFiles, iconFilesCache)
  | None =>
      let iconsDirUri :=
        joinPath host (extensionUriGlobal host) [js "media"; js "icons"] in
      let iconsDirPath := fsPath iconsDirUri in
      match readdirSync fs iconsDirPath with
      | None => (Throws (ReadError iconsDirPath), iconFilesCache)
      | Some dirEntries =>
          let files :=
            map (fun file =>
                   {| name := basename file (js ".svg");
                      uri := joinPath host iconsDirUri [file] |})
                (filter (fun f => endsWith f (js ".svg")) dirEntries) in
          (Returns files, Some files)
      end
  end.

(** The identifiers of the catalog. *)
Definition catalogNames (files : list IconFile) : list jsstring :=
  map name files.

Record CompletionItem := {
  label : jsstring;
  insertText : jsstring;
  detail : jsstring;
  documentation : jsstring;
  (** the entry of [completionItemMeta] for the item: [iconName], [className] *)
  meta : option (jsstring * jsstring)
}.

(** The item [provideCompletionItems] builds for a catalog entry.  The
    placeholder text ends with the three units U+00E2 U+20AC U+00A6, as
    the source file holds them. *)
Definition newCompletionItem (icon : IconFile) : CompletionItem :=
  let className := js "ti-" ++ name icon in
  {| label := className;
     insertText := className;
     detail := name icon;
     documentation := js "Hover to preview icon" ++ [226%N; 8364%N; 166%N];
     meta := Some (name icon, className) |}.

(** [provideCompletionItems(document, position)], given the text of the
    cursor's line and what [document.getWordRangeAtPosition(position,
    /ti[-\w]*/)] returned: how the call ends ([Returns None] is
    [undefined]) and [iconFilesCache] afterwards. *)
Definition provideCompletionItems (host : Host) (fs : FileSystem)
    (iconFilesCache : option (list IconFile))
    (lineText : jsstring) (wordRange : option Range)
  : Outcome (option (list CompletionItem)) * option (list IconFile) :=
  if negb (includes lineText (js "ti ")) then (Returns None, iconFilesCache)
  else
    match wordRange with
    | None => (Returns None, iconFilesCache)
    | Some _ =>
        match loadIconFiles host fs iconFilesCache with
        | (Throws e, cache') => (Throws e, cache')
        | (Returns icons, cache') =>
            (Returns (Some (map newCompletionItem icons)), cache')
        end
    end.

(** What [resolveCompletionItem] puts in the documentation. *)
Inductive Preview :=
| Images (dataUrl : jsstring)
| FailedToRead (iconName : jsstring).

(** [resolveCompletionItem(item)]: the preview written into the item
    ([None] when the item is returned as it came) and the image cache
    afterwards. *)
Definition resolveCompletionItem (bound : nat) (host : Host) (fs : FileSystem)
    (svgDataUrlCache : Cache) (item : CompletionItem)
  : option Preview * Cache :=
  match meta item with
  | None => (None, svgDataUrlCache)
  | Some (iconName, className) =>
      if negb (truthy iconName) || negb (truthy className)
      then (None, svgDataUrlCache)
      else
        match getSvgDataUrl bound host fs svgDataUrlCache iconName with
        | (Returns dataUrl, cache') => (Some (Images dataUrl), cache')
        | (Throws _, cache') => (Some (FailedToRead iconName), cache')
        end
  end.

(* ================================================================= *)
(** * Invariants and derived notions *)

(** What [getSvgDataUrl] stores: a non-empty identifier with a non-empty
    payload. *)
Definition storedEntry (e : jsstring * jsstring) : Prop :=
  truthy (fst e) = true /\ truthy (snd e) = true.

(** The image cache holds each identifier once, and, oldest first, exactly
    the [bound] most recently accessed identifiers of the history. *)
Definition cacheInv (bound : nat) (st : Cache * list jsstring) : Prop :=
  JsMap.wf (fst st) /\
  Forall storedEntry (fst st) /\
  rev (JsMap.keys (fst st)) = firstn bound (mostRecent (snd st)).

Definition sizeWithin (bound : nat) (c : Cache) : Prop := JsMap.size c <= bound.

(** A session of [resolveCompletionItem] requests, each with the file
    system of its moment: the image cache afterwards. *)
Definition resolveRun (bound : nat) (host : Host)
    (requests : list (FileSystem * CompletionItem)) : Cache :=
  fold_left
    (fun cache request =>
       snd (resolveCompletionItem bound host (fst request) cache (snd request)))
    requests JsMap.empty.

(** The [getSvgDataUrl] calls such a session makes, in order: one for each
    request whose item passes the guard of [resolveCompletionItem]. *)
Definition sessionCalls (requests : list (FileSystem * CompletionItem))
  : list CacheOp :=
  flat_map
    (fun request =>
       match meta (snd request) with
       | None => []
       | Some (iconName, className) =>
           if negb (truthy iconName) || negb (truthy className) then []
           else [(fst request, iconName)]
       end)
    requests.

(** What follows a token does not continue its identifier. *)
Definition endsIdentifier (post : jsstring) : bool :=
  match post with
  | [] => true
  | c :: _ => negb (isBody c)
  end.

(** The [setDecorations] calls of the clearing loop. *)
Definition clearingCalls (r : Registry) : list Applied :=
  map (fun deco => (deco, [])) (JsMap.values (decorationCache r)).

(** The [setDecorations] calls of the applying loop, read off a registry
    that holds a handle for every identifier of the grouping. *)
Definition applyingCalls (r : Registry)
    (entries : list (jsstring * list DecorationOptions)) : list Applied :=
  flat_map (fun entry =>
              match JsMap.get (decorationCache r) (fst entry) with
              | Some deco => [(deco, snd entry)]
              | None => []
              end) entries.

(** The registry [r'] extends [r]: every handle of [r] is still the
    handle of its identifier. *)
Definition extends (r r' : Registry) : Prop :=
  forall name deco,
    JsMap.get (decorationCache r) name = Some deco ->
    JsMap.get (decorationCache r') name = Some deco.

(** What a further list of calls does to what is shown for key [k]. *)
Definition showAfter (k : nat) (calls : list Applied)
    (shown : list DecorationOptions) : list DecorationOptions :=
  fold_left (fun shown call => if key (fst call) =? k then snd call else shown)
    calls shown.

(** Some call of the list is for the decoration type with key [k]. *)
Definition touches (k : nat) (calls : list Applied) : bool :=
  existsb (fun call => key (fst call) =? k) calls.

(** The fsPath of the icon directory. *)
Definition iconsDirPathOf (host : Host) : jsstring :=
  fsPath (joinPath host (extensionUriGlobal host) [js "media"; js "icons"]).

(** The catalog a first [loadIconFiles] call loads. *)
Definition catalogOf (host : Host) (fs : FileSystem) : list jsstring :=
  match loadIconFiles host fs None with
  | (Returns files, _) => catalogNames files
  | (Throws _, _) => []
  end.

(* ================================================================= *)
(** * Sample hosts and inputs *)

(** A host whose [joinPath] appends the segments with slashes and whose
    encoder is a stand-in that writes one unit per byte. *)
Definition sampleHost : Host :=
  {| extensionUriGlobal := {| fsPath := js "/ext" |};
     joinPath := fun base segments =>
       {| fsPath := fold_left (fun p s => p ++ js "/" ++ s) segments (fsPath base) |};
     base64 := fun buf => map Byte.to_N buf |}.

(** A file system on which every read succeeds. *)
Definition everyFileReadable : FileSystem :=
  {| readFileSync := fun _ => Some [];
     readdirSync := fun _ => Some [] |}.

(** A file system on which every read throws. *)
Definition nothingReadable : FileSystem :=
  {| readFileSync := fun _ => None;
     readdirSync := fun _ => None |}.

(** A file system whose icon directory lists [dirEntries]. *)
Definition iconsDirectory (dirEntries : list jsstring) : FileSystem :=
  {| readFileSync := fun _ => Some [];
     readdirSync := fun _ => Some dirEntries |}.

(** The two-letter identifiers [aa], [ba], ..., [za], [ab], [bb], ... *)
Definition sampleName (n : nat) : jsstring :=
  [(97 + N.of_nat (n mod 26))%N; (97 + N.of_nat (n / 26))%N].

Definition sampleNames (n : nat) : list jsstring := map sampleName (seq 0 n).

Definition readable (names : list jsstring) : list CacheOp :=
  map (fun k => (everyFileReadable, k)) names.

(** The accesses [x], [search], [a], [x]. *)
Definition scenarioOps : list CacheOp :=
  readable [js "x"; js "search"; js "a"; js "x"].

(** A cache filled to [SVG_CACHE_MAX] by [lruSet] calls. *)
Definition fullCache : Cache :=
  fold_left (fun c k => lruSet SVG_CACHE_MAX c k (js "v"))
    (sampleNames SVG_CACHE_MAX) JsMap.empty.

(** The line [<i class="ti ti-search text-xl"></i>], cut around its token. *)
Definition exampleBefore : jsstring := js "<i class=" ++ [34%N].
Definition exampleAfter : jsstring := js " text-xl" ++ [34%N] ++ js "></i>".
Definition exampleLine : jsstring :=
  exampleBefore ++ js "ti ti-" ++ js "search" ++ exampleAfter.

(** A registry with a handle for [x], and an editor on a Python file that
    shows that handle on one range. *)
Definition sampleRegistry : Registry :=
  snd (getDecorationForIcon sampleHost initialRegistry (js "x")).

Definition sampleRange : DecorationOptions :=
  {| range := {| start := {| line := 0; character := 0 |};
                 end_ := {| line := 0; character := 7 |} |} |}.

Definition pythonEditor : TextEditor :=
  {| document := {| languageId := js "python"; lines := [js "ti ti-x"] |};
     applied := map (fun deco => (deco, [sampleRange]))
                  (JsMap.values (decorationCache sampleRegistry)) |}.

(* ================================================================= *)
(** * Further operations and derived notions *)

(** [deactivate()]: the handles disposed, in registry order, and the
    registry afterwards ([decorationCache.clear()]). *)
Definition deactivate (r : Registry)
  : list TextEditorDecorationType * Registry :=
  (JsMap.values (decorationCache r),
   {| decorationCache := JsMap.empty; created := created r |}).

(** The asset of an identifier: [media/icons/<name>.svg] under the
    extension. *)
Definition iconUriOf (host : Host) (name : jsstring) : Uri :=
  joinPath host (extensionUriGlobal host)
    [js "media"; js "icons"; name ++ js ".svg"].

(** The handles of a registry have keys of their own, all given out by the
    window, which numbers the decoration types it creates. *)
Definition regOK (r : Registry) : Prop :=
  JsMap.wf (decorationCache r) /\
  NoDup (map key (JsMap.values (decorationCache r))) /\
  Forall (fun deco => key deco < length (created r))
    (JsMap.values (decorationCache r)) /\
  map key (created r) = seq 0 (length (created r)).

(** Every handle of the registry is bound to the asset of its identifier. *)
Definition boundToAssets (host : Host) (r : Registry) : Prop :=
  forall name deco,
    JsMap.get (decorationCache r) name = Some deco ->
    gutterIconPath (options deco) = iconUriOf host name /\
    before_contentIconPath (options deco) = iconUriOf host name.

(** The matches [ms] are what a leftmost, non-overlapping scan of [text]
    from [lastIndex] finds: nothing matches before the first one, each
    is a match at its index, and the scan resumes at its end. *)
Fixpoint leftmostFrom (text : jsstring) (lastIndex : nat)
    (ms : list RegExpExecArray) : Prop :=
  match ms with
  | [] => forall p, lastIndex <= p -> matchHere (skipn p text) = None
  | m :: rest =>
      lastIndex <= index m /\
      (forall p, lastIndex <= p -> p < index m ->
                 matchHere (skipn p text) = None) /\
      matchHere (skipn (index m) text) = Some (group1 m) /\
      match0 m = js "ti ti-" ++ group1 m /\
      leftmostFrom text (index m + length (match0 m)) rest
  end.

(** The ranges of the matches of one line that name [icon]. *)
Definition lineRanges (icon : jsstring) (lineNo : nat)
    (ms : list RegExpExecArray) : list DecorationOptions :=
  map (fun m => {| range := rangeOf lineNo m |})
    (filter (fun m => jsstring_eqb (iconNameOf m) icon) ms).

(** The ranges of [icon] in a document, given the matches of its lines
    from line [lineNo] on, in document order. *)
Fixpoint documentRanges (icon : jsstring) (lineNo : nat)
    (mss : list (list RegExpExecArray)) : list DecorationOptions :=
  match mss with
  | [] => []
  | ms :: rest => lineRanges icon lineNo ms ++ documentRanges icon (S lineNo) rest
  end.

(** A grouping entry: absent when the identifier has no range. *)
Definition groupEntry (ranges : list DecorationOptions)
  : option (list DecorationOptions) :=
  match ranges with
  | [] => None
  | _ :: _ => Some ranges
  end.

(** A session of [provideCompletionItems] requests: each with its file
    system, line text and word range; the outcomes in order and the
    catalog cache afterwards. *)
Definition Request := (FileSystem * jsstring * option Range)%type.

Fixpoint provideRun (host : Host) (iconFilesCache : option (list IconFile))
    (requests : list Request)
  : list (Outcome (option (list CompletionItem))) * option (list IconFile) :=
  match requests with
  | [] => ([], iconFilesCache)
  | (fs, lineText, wordRange) :: rest =>
      let (outcome, cache1) :=
        provideCompletionItems host fs iconFilesCache lineText wordRange in
      let (outcomes, cache2) := provideRun host cache1 rest in
      (outcome :: outcomes, cache2)
  end.

(** An editor on an HTML document with two lines. *)
Definition htmlEditor : TextEditor :=
  {| document := {| languageId := js "html";
                    lines := [js "xx ti ti-x yy"; js "ti ti-x ti ti-search"] |};
     applied := [] |}.

(** The ranges a grouping holds for [icon]; none when it has no entry. *)
Definition rangesIn (g : RangesByIcon) (icon : jsstring) : list DecorationOptions :=
  match JsMap.get g icon with
  | Some ranges => ranges
  | None => []
  end.

(* ================================================================= *)
(** * The icon rewriting script ([fix-svgs.js]) *)

(** The text of [${NEW_SIZE}] for [NEW_SIZE = 15], and [NEW_COLOR]. *)
Definition NEW_SIZE : jsstring := js "15".
Definition NEW_COLOR : jsstring := js "#ff3b30".

Definition quote : jsstring := [34%N].

(** The class [\s]: white space and line terminators. *)
Definition isSpace (c : code_unit) : bool :=
  ((c =? 9) || (c =? 10) || (c =? 11) || (c =? 12) || (c =? 13) || (c =? 32)
   || (c =? 160) || (c =? 5760) || ((8192 <=? c) && (c <=? 8202))
   || (c =? 8232) || (c =? 8233) || (c =? 8239) || (c =? 8287)
   || (c =? 12288) || (c =? 65279))%N.

(** The class [\w], which decides [\b]. *)
Definition isWordChar (c : code_unit) : bool :=
  ((65 <=? c) && (c <=? 90) || (97 <=? c) && (c <=? 122)
   || (48 <=? c) && (c <=? 57) || (c =? 95))%N.

Definition isQuote (c : code_unit) : bool := (c =? 34)%N.

(** The rest of an attribute, up to and with the closing quote, at the
    start of [s]: the length of the match. *)
Fixpoint quoted (s : jsstring) : option nat :=
  match s with
  | [] => None
  | c :: s' => if isQuote c then Some 1 else option_map S (quoted s')
  end.

(** The second group, the equals sign and the quoted value at the start
    of [s]: group 2 and the length of the match. *)
Definition sizeAttr (s : jsstring) : option (jsstring * nat) :=
  if startsWith s (js "width=" ++ quote) then
    option_map (fun n => (js "width", 7 + n)) (quoted (skipn 7 s))
  else if startsWith s (js "height=" ++ quote) then
    option_map (fun n => (js "height", 8 + n)) (quoted (skipn 8 s))
  else None.

(** The first regex of [processFile] at the start of [s], which is the
    start of the input when [atStart]: the replacement (groups 1 and 2,
    then the new size as the value) and the length of the match. *)
Definition sizeRegex (atStart : bool) (s : jsstring) : option (jsstring * nat) :=
  let viaSpace :=
    match s with
    | c :: s' =>
        if isSpace c then
          option_map
            (fun m => ([c] ++ fst m ++ js "=" ++ quote ++ NEW_SIZE ++ quote,
                       S (snd m)))
            (sizeAttr s')
        else None
    | [] => None
    end in
  match viaSpace with
  | Some m => Some m
  | None =>
      if atStart then
        option_map
          (fun m => (fst m ++ js "=" ++ quote ++ NEW_SIZE ++ quote, snd m))
          (sizeAttr s)
      else None
  end.

(** [none\b] at the start of [s]. *)
Definition noneBoundary (s : jsstring) : bool :=
  startsWith s (js "none") &&
  match skipn 4 s with
  | [] => true
  | c :: _ => negb (isWordChar c)
  end.

(** The second regex of [processFile] at the start of [s]: the
    replacement (the stroke attribute with the new colour) and the length
    of the match. *)
Definition strokeRegex (atStart : bool) (s : jsstring) : option (jsstring * nat) :=
  if startsWith s (js "stroke=" ++ quote) then
    if noneBoundary (skipn 8 s) then None
    else
      option_map
        (fun n => (js "stroke=" ++ quote ++ NEW_COLOR ++ quote, 8 + n))
        (quoted (skipn 8 s))
  else None.

(** [s.replace(regex, replacement)] for a global regex whose matches are
    not empty.  [tok atStart s] is the regex at the start of [s]; the
    scan goes through the input from left to right, tries the regex at
    each position that no earlier match covers, and on a match writes the
    replacement and skips the matched text ([skip] units of it are still
    ahead). *)
Fixpoint replaceFrom (tok : bool -> jsstring -> option (jsstring * nat))
    (atStart : bool) (skip : nat) (s : jsstring) : jsstring :=
  match s with
  | [] => []
  | c :: s' =>
      match skip with
      | S k => replaceFrom tok false k s'
      | 0 =>
          match tok atStart s with
          | Some (replacement, matchLength) =>
              replacement ++ replaceFrom tok false (matchLength - 1) s'
          | None => c :: replaceFrom tok false 0 s'
          end
      end
  end.

Definition replaceAll (tok : bool -> jsstring -> option (jsstring * nat))
    (s : jsstring) : jsstring :=
  replaceFrom tok true 0 s.

(** [processFile(filePath)] on the text it read: the text it writes. *)
Definition processFile_text (svg : jsstring) : jsstring :=
  let svg1 := replaceAll sizeRegex svg in
  let svg2 := replaceAll strokeRegex svg1 in
  svg2.

(** An SVG text with a size, a stroke colour and a [none] stroke. *)
Definition sampleSvg : jsstring :=
  js "<svg width=" ++ quote ++ js "24" ++ quote ++ js " height=" ++ quote
    ++ js "24" ++ quote ++ js " stroke=" ++ quote ++ js "currentColor" ++ quote
    ++ js "><path stroke=" ++ quote ++ js "none" ++ quote ++ js "/></svg>".

(** No unit of [s] satisfies [p]. *)
Definition avoids (p : code_unit -> bool) (s : jsstring) : bool :=
  forallb (fun x => negb (p x)) s.

(** The letter a match of the second pattern starts with. *)
Definition isLetterS (c : code_unit) : bool := (c =? 115)%N.

(** The two ways the first pattern matches: after a white-space unit, or
    at the start of the input. *)
Inductive sizeLead (atStart : bool) : jsstring -> Prop :=
| LeadSpace (c : code_unit) : isSpace c = true -> sizeLead atStart [c]
| LeadStart : atStart = true -> sizeLead atStart [].

(* ================================================================= *)
(** * Strings and maps: basic facts *)

Lemma jsstring_eqb_eq (a b : jsstring) : jsstring_eqb a b = true <-> a = b.
Proof.
  revert b; induction a as [|x a IH]; intros [|y b]; simpl;
    try (split; [discriminate | congruence]); try tauto.
  rewrite andb_true_iff, N.eqb_eq, IH. split.
  - intros [-> ->]; reflexivity.
  - intros H; injection H; auto.
Qed.

Lemma jsstring_eqb_refl (a : jsstring) : jsstring_eqb a a = true.
Proof. apply jsstring_eqb_eq; reflexivity. Qed.

Lemma jsstring_eqb_neq (a b : jsstring) : jsstring_eqb a b = false <-> a <> b.
Proof.
  rewrite <- jsstring_eqb_eq. destruct (jsstring_eqb a b); split; congruence.
Qed.

Lemma jsstring_eqb_sym (a b : jsstring) : jsstring_eqb a b = jsstring_eqb b a.
Proof.
  destruct (jsstring_eqb b a) eqn:E.
  - apply jsstring_eqb_eq in E; subst; apply jsstring_eqb_refl.
  - apply jsstring_eqb_neq in E. apply jsstring_eqb_neq; congruence.
Qed.

Ltac eqb_cases a b :=
  let E := fresh "E" in
  destruct (jsstring_eqb a b) eqn:E;
  [apply jsstring_eqb_eq in E | apply jsstring_eqb_neq in E].

Section MapFacts.
Context {V : Type}.
Implicit Types (m : JsMap.t V) (k : jsstring) (v : V).

Lemma get_In m k v : JsMap.get m k = Some v -> In (k, v) m.
Proof.
  induction m as [|[k' v'] m IH]; simpl; [discriminate|].
  eqb_cases k' k.
  - intros H; injection H as ->; subst; auto.
  - auto.
Qed.

Lemma get_None m k : JsMap.get m k = None <-> ~ In k (JsMap.keys m).
Proof.
  induction m as [|[k' v'] m IH]; simpl; [tauto|].
  eqb_cases k' k.
  - split; [discriminate | intros H; exfalso; auto].
  - rewrite IH; tauto.
Qed.

Lemma has_true m k : JsMap.has m k = true <-> In k (JsMap.keys m).
Proof.
  unfold JsMap.has. destruct (JsMap.get m k) eqn:E.
  - split; auto. intros _. apply get_In in E.
    apply (in_map fst) in E; exact E.
  - apply get_None in E. split; [discriminate | tauto].
Qed.

Lemma has_false m k : JsMap.has m k = false <-> ~ In k (JsMap.keys m).
Proof.
  rewrite <- has_true. destruct (JsMap.has m k); split; congruence.
Qed.

Lemma get_wf_In m k v : JsMap.wf m -> In (k, v) m -> JsMap.get m k = Some v.
Proof.
  unfold JsMap.wf.
  induction m as [|[k' v'] m IH]; simpl; [tauto|].
  intros Hnd [H | H].
  - injection H as -> ->. rewrite jsstring_eqb_refl; reflexivity.
  - inversion Hnd; subst. eqb_cases k' k.
    + subst. exfalso. apply H2. apply (in_map fst) in H; exact H.
    + auto.
Qed.

Lemma keys_delete m k : JsMap.keys (JsMap.delete m k) = removeKey k (JsMap.keys m).
Proof.
  induction m as [|[k' v'] m IH]; simpl; [reflexivity|].
  destruct (jsstring_eqb k' k); simpl; rewrite IH; reflexivity.
Qed.

Lemma delete_absent m k : ~ In k (JsMap.keys m) -> JsMap.delete m k = m.
Proof.
  induction m as [|[k' v'] m IH]; simpl; [reflexivity|]. intros H.
  eqb_cases k' k; [tauto|]. rewrite IH; tauto.
Qed.

Lemma set_absent m k v : ~ In k (JsMap.keys m) -> JsMap.set m k v = m ++ [(k, v)].
Proof.
  induction m as [|[k' v'] m IH]; simpl; [reflexivity|]. intros H.
  eqb_cases k' k; [tauto|]. rewrite IH; tauto.
Qed.

Lemma delete_first m k v : JsMap.wf ((k, v) :: m) -> JsMap.delete ((k, v) :: m) k = m.
Proof.
  unfold JsMap.wf; simpl. intros H; inversion H; subst.
  rewrite jsstring_eqb_refl. apply delete_absent; assumption.
Qed.

Lemma In_delete m k e : In e (JsMap.delete m k) <-> In e m /\ fst e <> k.
Proof.
  induction m as [|[k' v'] m IH]; simpl; [tauto|].
  eqb_cases k' k; simpl; rewrite IH.
  - subst. split; [tauto|]. intros [[<- | H] Hne]; [simpl in Hne; tauto | tauto].
  - split; [|tauto]. intros [<- | H]; simpl; tauto.
Qed.

Lemma get_set_other m k k' v : k' <> k -> JsMap.get (JsMap.set m k v) k' = JsMap.get m k'.
Proof.
  intros Hne. induction m as [|[k0 v0] m IH]; simpl.
  - eqb_cases k k'; congruence.
  - eqb_cases k0 k; simpl.
    + subst. eqb_cases k k'; congruence.
    + rewrite IH; reflexivity.
Qed.

Lemma get_set_same m k v : JsMap.get (JsMap.set m k v) k = Some v.
Proof.
  induction m as [|[k0 v0] m IH]; simpl.
  - rewrite jsstring_eqb_refl; reflexivity.
  - eqb_cases k0 k; simpl.
    + rewrite jsstring_eqb_refl; reflexivity.
    + destruct (jsstring_eqb k0 k) eqn:E'; [apply jsstring_eqb_eq in E'; tauto | exact IH].
Qed.

Lemma keys_set_present m k v :
  In k (JsMap.keys m) -> JsMap.keys (JsMap.set m k v) = JsMap.keys m.
Proof.
  induction m as [|[k0 v0] m IH]; simpl; [tauto|]. intros H.
  eqb_cases k0 k; simpl; [congruence|]. rewrite IH; tauto.
Qed.

Lemma keys_snoc m k v : JsMap.keys (m ++ [(k, v)]) = JsMap.keys m ++ [k].
Proof. unfold JsMap.keys. rewrite map_app. reflexivity. Qed.

Lemma keys_tl m : JsMap.keys (tl m) = tl (JsMap.keys m).
Proof. destruct m; reflexivity. Qed.

End MapFacts.

(** ** Recency lists *)

Lemma removeKey_In k x l : In x (removeKey k l) <-> In x l /\ x <> k.
Proof.
  unfold removeKey. rewrite filter_In, negb_true_iff, jsstring_eqb_neq. tauto.
Qed.

Lemma removeKey_absent k l : ~ In k l -> removeKey k l = l.
Proof.
  induction l as [|x l IH]; simpl; [reflexivity|]. intros H.
  eqb_cases x k; simpl; [tauto|]. rewrite IH; tauto.
Qed.

Lemma removeKey_app k l1 l2 : removeKey k (l1 ++ l2) = removeKey k l1 ++ removeKey k l2.
Proof. apply filter_app. Qed.

Lemma removeKey_rev k l : removeKey k (rev l) = rev (removeKey k l).
Proof.
  induction l as [|x l IH]; simpl; [reflexivity|].
  rewrite removeKey_app, IH. simpl.
  destruct (jsstring_eqb x k); simpl; [rewrite app_nil_r|]; reflexivity.
Qed.

Lemma removeKey_NoDup k l : NoDup l -> NoDup (removeKey k l).
Proof. apply NoDup_filter. Qed.

Lemma distinct_In x l : In x (distinct l) <-> In x l.
Proof.
  induction l as [|y l IH]; simpl; [tauto|].
  rewrite removeKey_In, IH. eqb_cases x y; [subst; tauto|].
  split; [tauto|]. intros [H | H]; [left; exact H | right; split; [exact H | exact E]].
Qed.

Lemma distinct_NoDup l : NoDup (distinct l).
Proof.
  induction l as [|y l IH]; simpl; constructor.
  - rewrite removeKey_In; tauto.
  - apply removeKey_NoDup; exact IH.
Qed.

Lemma In_firstn {A : Type} (x : A) n l : In x (firstn n l) -> In x l.
Proof.
  intros H. rewrite <- (firstn_skipn n l). apply in_or_app; left; exact H.
Qed.

Lemma firstn_removeKey_absent k n l :
  ~ In k (firstn n l) -> firstn n (removeKey k l) = firstn n l.
Proof.
  revert l; induction n as [|n IH]; intros [|x l]; simpl; try reflexivity.
  intros H. eqb_cases x k; simpl; [tauto|]. f_equal. apply IH; tauto.
Qed.

Lemma firstn_removeKey_present k n l :
  NoDup l -> In k (firstn n l) ->
  firstn n (k :: removeKey k l) = k :: removeKey k (firstn n l).
Proof.
  revert l; induction n as [|n IH]; intros [|x l] Hnd Hin; simpl in *; try tauto.
  inversion Hnd; subst. f_equal. eqb_cases x k; simpl.
  - subst. rewrite !removeKey_absent; auto.
    intros H; apply H1. eapply In_firstn; eauto.
  - destruct Hin as [-> | Hin]; [tauto|].
    specialize (IH l H2 Hin). simpl in IH.
    destruct n; simpl in *; [tauto|]. injection IH as IH. rewrite IH. reflexivity.
Qed.

Lemma firstn_cons_firstn k n l :
  ~ In k (firstn n l) -> firstn n (k :: firstn n l) = firstn n (k :: removeKey k l).
Proof.
  destruct n as [|n]; [reflexivity|]. intros H. rewrite !firstn_cons.
  f_equal. rewrite firstn_firstn, Nat.min_l by lia.
  symmetry. apply firstn_removeKey_absent.
  intros Hin. apply H.
  assert (E : firstn n l = firstn n (firstn (S n) l))
    by (rewrite firstn_firstn, Nat.min_l by lia; reflexivity).
  rewrite E in Hin. exact (In_firstn _ _ _ Hin).
Qed.

Lemma rev_tl {A : Type} (l : list A) : rev (tl l) = removelast (rev l).
Proof.
  destruct l as [|x l]; simpl; [reflexivity|]. rewrite removelast_last; reflexivity.
Qed.

Lemma Forall_tl {A : Type} (P : A -> Prop) (l : list A) :
  Forall P l -> Forall P (tl l).
Proof. intros H; destruct H; simpl; [constructor | assumption]. Qed.

(* ================================================================= *)
(** * Image cache *)

Section CacheFacts.
Variable bound : nat.
Variable host : Host.
Implicit Types (c : Cache) (k v : jsstring).

Lemma lruGet_miss c k :
  JsMap.get c k = None -> lruGet c k = (None, c).
Proof. unfold lruGet; intros ->; reflexivity. Qed.

Lemma lruGet_hit c k v :
  JsMap.get c k = Some v ->
  lruGet c k = (Some v, JsMap.delete c k ++ [(k, v)]).
Proof.
  unfold lruGet; intros ->. rewrite set_absent; [reflexivity|].
  rewrite keys_delete, removeKey_In; tauto.
Qed.

Lemma wf_snoc c k v : JsMap.wf c -> ~ In k (JsMap.keys c) -> JsMap.wf (c ++ [(k, v)]).
Proof.
  unfold JsMap.wf, JsMap.keys. intros Hwf Hk. rewrite map_app; simpl.
  apply NoDup_app; auto.
  - constructor; [simpl; tauto | constructor].
  - intros a Ha [<- | []]; tauto.
Qed.

Lemma wf_delete c k : JsMap.wf c -> JsMap.wf (JsMap.delete c k).
Proof.
  unfold JsMap.wf. rewrite keys_delete. apply removeKey_NoDup.
Qed.

Lemma wf_tl c : JsMap.wf c -> JsMap.wf (tl c).
Proof.
  unfold JsMap.wf. destruct c as [|[k v] c]; simpl; auto.
  intros H; inversion H; assumption.
Qed.

(** Inserting an absent key: the entry goes last, and when the cache then
    holds more than [bound] entries the oldest one goes, if its key is
    not the empty string. *)
Lemma lruSet_absent c k v :
  JsMap.wf c -> ~ In k (JsMap.keys c) ->
  (forall o, JsMap.first_key (c ++ [(k, v)]) = Some o -> truthy o = true) ->
  lruSet bound c k v =
    if bound <? S (JsMap.size c) then tl (c ++ [(k, v)]) else c ++ [(k, v)].
Proof.
  intros Hwf Hk Hold.
  unfold lruSet, lruSet_drop, lruSet_put, lruSet_evict.
  assert (Hh : JsMap.has c k = false) by (apply has_false; exact Hk).
  rewrite Hh, set_absent by exact Hk.
  unfold JsMap.size. rewrite length_app; simpl length.
  replace (length c + 1) with (S (length c)) by lia.
  destruct (bound <? S (length c)); [|reflexivity].
  pose proof (wf_snoc c k v Hwf Hk) as Hwf'.
  destruct c as [|[k0 v0] c]; simpl in *.
  - rewrite (Hold k eq_refl), jsstring_eqb_refl; reflexivity.
  - rewrite (Hold k0 eq_refl).
    change (JsMap.delete ((k0, v0) :: c ++ [(k, v)]) k0 = c ++ [(k, v)]).
    apply delete_first. exact Hwf'.
Qed.

Lemma first_key_snoc_truthy c k v :
  truthy k = true -> Forall (fun e => truthy (fst e) = true) c ->
  forall o, JsMap.first_key (c ++ [(k, v)]) = Some o -> truthy o = true.
Proof.
  intros Hk Hc o. destruct c as [|[k0 v0] c]; simpl.
  - intros H; injection H as <-; exact Hk.
  - intros H; injection H as <-. inversion Hc; assumption.
Qed.

End CacheFacts.

Section CacheSteps.
Variable bound : nat.
Variable host : Host.
Implicit Types (c : Cache) (k v : jsstring) (fs : FileSystem).

Lemma dataUrl_truthy (b64 : jsstring) :
  truthy (js "data:image/svg+xml;base64," ++ b64) = true.
Proof. reflexivity. Qed.

Lemma getSvgDataUrl_hit fs c k v :
  JsMap.get c k = Some v -> truthy v = true ->
  getSvgDataUrl bound host fs c k = (Returns v, JsMap.delete c k ++ [(k, v)]).
Proof.
  intros Hg Hv. unfold getSvgDataUrl. rewrite (lruGet_hit c k v Hg), Hv.
  reflexivity.
Qed.

Lemma getSvgDataUrl_unreadable fs c k :
  JsMap.get c k = None ->
  readFileSync fs (fsPath (joinPath host (extensionUriGlobal host)
                     [js "media"; js "icons"; k ++ js ".svg"])) = None ->
  getSvgDataUrl bound host fs c k =
    (Throws (ReadError (fsPath (joinPath host (extensionUriGlobal host)
                          [js "media"; js "icons"; k ++ js ".svg"]))), c).
Proof.
  intros Hg Hr. unfold getSvgDataUrl. rewrite (lruGet_miss c k Hg), Hr.
  reflexivity.
Qed.

Lemma getSvgDataUrl_insert fs c k svgBuf :
  JsMap.get c k = None ->
  readFileSync fs (fsPath (joinPath host (extensionUriGlobal host)
                     [js "media"; js "icons"; k ++ js ".svg"])) = Some svgBuf ->
  getSvgDataUrl bound host fs c k =
    (Returns (js "data:image/svg+xml;base64," ++ base64 host svgBuf),
     lruSet bound c k (js "data:image/svg+xml;base64," ++ base64 host svgBuf)).
Proof.
  intros Hg Hr. unfold getSvgDataUrl. rewrite (lruGet_miss c k Hg), Hr.
  reflexivity.
Qed.

Lemma cacheInv_size st : cacheInv bound st -> JsMap.size (fst st) <= bound.
Proof.
  intros (_ & _ & H). unfold JsMap.size.
  assert (E : length (fst st) = length (rev (JsMap.keys (fst st)))).
  { unfold JsMap.keys. rewrite length_rev, length_map; reflexivity. }
  rewrite E, H. apply firstn_le_length.
Qed.

Lemma storedEntry_keys c :
  Forall storedEntry c -> Forall (fun e => truthy (fst e) = true) c.
Proof. apply Forall_impl. intros e [H _]; exact H. Qed.

(** One [getSvgDataUrl] call on a non-empty identifier keeps the
    invariant, and changes the keys in one of three ways. *)
Lemma cacheStep_cases st fs k :
  cacheInv bound st -> truthy k = true ->
  let st' := cacheStep bound host st (fs, k) in
  cacheInv bound st' /\
  (st' = st \/
   JsMap.keys (fst st') = removeKey k (JsMap.keys (fst st)) ++ [k] \/
   (~ In k (JsMap.keys (fst st)) /\ JsMap.size (fst st) = bound /\
    JsMap.keys (fst st') = tl (JsMap.keys (fst st) ++ [k]))).
Proof.
  intros Hinv Hk. pose proof (cacheInv_size st Hinv) as Hsize.
  destruct st as [c h]. destruct Hinv as (Hwf & Hst & Hrec).
  simpl in Hwf, Hst, Hrec, Hsize. cbv zeta. unfold cacheStep. cbn [fst snd].
  assert (Hmr : mostRecent (h ++ [k]) = k :: removeKey k (mostRecent h)).
  { unfold mostRecent. rewrite rev_app_distr. reflexivity. }
  destruct (JsMap.get c k) as [v|] eqn:Hg.
  - (* hit *)
    pose proof (get_In _ _ _ Hg) as Hin.
    assert (Hv : truthy v = true).
    { rewrite Forall_forall in Hst. apply (Hst _ Hin). }
    rewrite (getSvgDataUrl_hit fs c k v Hg Hv). cbn [fst snd].
    assert (Hkeys : JsMap.keys (JsMap.delete c k ++ [(k, v)]) =
                    removeKey k (JsMap.keys c) ++ [k]).
    { rewrite keys_snoc, keys_delete. reflexivity. }
    split; [|right; left; exact Hkeys].
    split; [|split]; cbn [fst snd].
    + apply wf_snoc; [apply wf_delete; exact Hwf|].
      rewrite keys_delete, removeKey_In; tauto.
    + apply Forall_app; split.
      * rewrite Forall_forall in *. intros e He.
        apply In_delete in He. apply Hst; tauto.
      * constructor; [split; assumption | constructor].
    + rewrite Hkeys, rev_app_distr. simpl.
      rewrite <- removeKey_rev, Hrec, Hmr.
      symmetry. apply firstn_removeKey_present.
      * apply distinct_NoDup.
      * rewrite <- Hrec, <- in_rev. apply (in_map fst) in Hin. exact Hin.
  - (* miss *)
    pose proof (proj1 (get_None _ _) Hg) as Hk'.
    destruct (readFileSync fs (fsPath (joinPath host (extensionUriGlobal host)
                [js "media"; js "icons"; k ++ js ".svg"]))) as [buf|] eqn:Hr.
    + rewrite (getSvgDataUrl_insert fs c k buf Hg Hr).
      set (d := js "data:image/svg+xml;base64," ++ base64 host buf).
      cbn [fst snd].
      rewrite (lruSet_absent bound c k d Hwf Hk'
                 (first_key_snoc_truthy c k d Hk (storedEntry_keys c Hst))).
      assert (Hnotin : ~ In k (firstn bound (mostRecent h))).
      { rewrite <- Hrec, <- in_rev. exact Hk'. }
      assert (Hlen : length (firstn bound (mostRecent h)) = JsMap.size c).
      { rewrite <- Hrec. unfold JsMap.size, JsMap.keys.
        rewrite length_rev, length_map. reflexivity. }
      destruct (bound <? S (JsMap.size c)) eqn:Hfull.
      * apply Nat.ltb_lt in Hfull.
        split; [|right; right; repeat split;
                  [exact Hk' | lia | rewrite keys_tl, keys_snoc; reflexivity]].
        split; [|split]; cbn [fst snd].
        -- apply wf_tl. apply wf_snoc; assumption.
        -- assert (F : Forall storedEntry (c ++ [(k, d)])).
           { apply Forall_app; split; [exact Hst|].
             constructor; [split; [exact Hk | reflexivity] | constructor]. }
           apply Forall_tl; exact F.
        -- assert (Hb : JsMap.size c = bound) by lia.
           rewrite keys_tl, keys_snoc, rev_tl, rev_app_distr. cbn [rev app].
           rewrite Hrec, Hmr, <- firstn_cons_firstn by exact Hnotin.
           rewrite removelast_firstn_len. cbn [length pred].
           rewrite Hlen, Hb. reflexivity.
      * apply Nat.ltb_ge in Hfull.
        split; [|right; left; rewrite keys_snoc, removeKey_absent by exact Hk';
                  reflexivity].
        split; [|split]; cbn [fst snd].
        -- apply wf_snoc; assumption.
        -- apply Forall_app; split; [exact Hst|].
           constructor; [split; [exact Hk | reflexivity] | constructor].
        -- rewrite keys_snoc, rev_app_distr. cbn [rev app].
           rewrite Hrec, Hmr, <- firstn_cons_firstn by exact Hnotin.
           symmetry. apply firstn_all2. cbn [length]. lia.
    + rewrite (getSvgDataUrl_unreadable fs c k Hg Hr). cbn [fst snd].
      split; [|left; reflexivity].
      split; [|split]; assumption.
Qed.

End CacheSteps.

Section CacheProperties.
Variable bound : nat.
Variable host : Host.

Lemma cacheInv_initial : cacheInv bound (JsMap.empty, []).
Proof.
  split; [|split]; simpl.
  - constructor.
  - constructor.
  - rewrite firstn_nil; reflexivity.
Qed.

Lemma cacheRun_snoc ops op :
  cacheRun bound host (ops ++ [op]) =
  cacheStep bound host (cacheRun bound host ops) op.
Proof. unfold cacheRun. rewrite fold_left_app. reflexivity. Qed.

Lemma cacheRun_inv ops :
  Forall (fun op => truthy (snd op) = true) ops ->
  cacheInv bound (cacheRun bound host ops).
Proof.
  induction ops as [|[fs k] ops IH] using rev_ind; intros Hops.
  - apply cacheInv_initial.
  - apply Forall_app in Hops. destruct Hops as [Hops Hop].
    inversion Hop; subst. rewrite cacheRun_snoc.
    apply (cacheStep_cases bound host _ fs k (IH Hops)). assumption.
Qed.

(** A sequence of [getSvgDataUrl] calls on non-empty identifiers, from the
    empty cache: the bound, the recency order of the keys, and which entry
    a further call removes. *)
Lemma cacheRun_keeps_most_recent (ops : list CacheOp) :
  Forall (fun op => truthy (snd op) = true) ops ->
  let st := cacheRun bound host ops in
  JsMap.size (fst st) <= bound /\
  rev (JsMap.keys (fst st)) = firstn bound (mostRecent (snd st)) /\
  (forall op x,
      truthy (snd op) = true ->
      In x (JsMap.keys (fst st)) ->
      ~ In x (JsMap.keys (fst (cacheStep bound host st op))) ->
      JsMap.first_key (fst st) = Some x /\
      exists newer, firstn bound (mostRecent (snd st)) = newer ++ [x]).
Proof.
  intros Hops st. pose proof (cacheRun_inv ops Hops) as Hinv. fold st in Hinv.
  split; [apply cacheInv_size; exact Hinv|].
  split; [apply Hinv|].
  intros [fs k] x Hk Hin Hout. simpl in Hk.
  destruct (cacheStep_cases bound host st fs k Hinv Hk) as [_ Hcases].
  cbv zeta in Hcases. destruct Hcases as [Heq | [Hkeys | (Hk' & _ & Hkeys)]].
  - rewrite Heq in Hout. contradiction.
  - exfalso. apply Hout. rewrite Hkeys. apply in_or_app.
    eqb_cases x k; [right; left; congruence|].
    left. apply removeKey_In. tauto.
  - destruct Hinv as (_ & _ & Hrec).
    destruct (fst st) as [|[k0 v0] c] eqn:Hc; simpl in Hin; [contradiction|].
    rewrite Hkeys in Hout. simpl in Hout.
    assert (Hx : x = k0).
    { destruct Hin as [E | Hin]; [congruence|].
      exfalso. apply Hout. apply in_or_app; left; exact Hin. }
    subst x. split; [reflexivity|].
    exists (rev (JsMap.keys c)). rewrite <- Hrec. reflexivity.
Qed.

(** C3.  An identifier that is not in the cache and whose asset file
    cannot be read: the read error leaves [getSvgDataUrl], and the cache
    afterwards is the cache before, entry for entry and in the same
    order. *)
Theorem unreadable_asset_leaves_cache (fs : FileSystem) (c : Cache)
    (iconName : jsstring) :
  JsMap.has c iconName = false ->
  readFileSync fs (fsPath (joinPath host (extensionUriGlobal host)
                     [js "media"; js "icons"; iconName ++ js ".svg"])) = None ->
  exists e, getSvgDataUrl bound host fs c iconName = (Throws e, c).
Proof.
  intros Hhas Hread. eexists.
  apply getSvgDataUrl_unreadable; [|exact Hread].
  apply get_None. apply has_false. exact Hhas.
Qed.

End CacheProperties.

(** The scenario of capacity 2 with accesses [x], [search], [a], [x]:
    afterwards the cache holds [a] and [x]. *)
Example scenario_capacity_two :
  JsMap.keys (fst (cacheRun 2 sampleHost scenarioOps)) = [js "a"; js "x"].
Proof. reflexivity. Qed.

(** A cache holding [x], a request for [search], nothing readable. *)
Lemma unreadable_asset_leaves_cache_witness :
  exists e,
    getSvgDataUrl SVG_CACHE_MAX sampleHost nothingReadable
      [(js "x", js "data:x")] (js "search")
    = (Throws e, [(js "x", js "data:x")]).
Proof.
  apply (unreadable_asset_leaves_cache SVG_CACHE_MAX sampleHost nothingReadable
           [(js "x", js "data:x")] (js "search")); reflexivity.
Defined.

Section MapFrame.
Context {V : Type}.
Implicit Types (m : JsMap.t V) (k : jsstring) (v : V).

Lemma delete_shrinks m k :
  In k (JsMap.keys m) -> length (JsMap.delete m k) < length m.
Proof.
  assert (Hle : forall m', length (JsMap.delete m' k) <= length m').
  { induction m' as [|[k' v'] m' IH]; simpl; [lia|].
    destruct (jsstring_eqb k' k); simpl; lia. }
  induction m as [|[k' v'] m IH]; simpl; [tauto|]. intros H.
  eqb_cases k' k; simpl.
  - specialize (Hle m). lia.
  - destruct H as [H | H]; [contradiction|]. specialize (IH H). lia.
Qed.

Lemma get_delete_other m k k' : k' <> k -> JsMap.get (JsMap.delete m k) k' = JsMap.get m k'.
Proof.
  intros Hne. induction m as [|[k0 v0] m IH]; simpl; [reflexivity|].
  eqb_cases k0 k; simpl.
  - subst. eqb_cases k k'; [congruence | exact IH].
  - rewrite IH. reflexivity.
Qed.

End MapFrame.

(** C2 (amended).  Inserting a new identifier into a full cache whose
    oldest key is not the empty string: the new entry is inserted first,
    which makes the cache hold one entry more than the bound, and then the
    single oldest entry is evicted; the size is [bound], [bound + 1],
    [bound] after the three statements of [lruSet]. *)
Theorem insertion_into_full_cache (bound : nat) (c : Cache) (k v : jsstring) :
  JsMap.wf c -> JsMap.size c = bound -> JsMap.has c k = false ->
  (forall o, JsMap.first_key (c ++ [(k, v)]) = Some o -> truthy o = true) ->
  lruSet_steps bound c k v = [c; c ++ [(k, v)]; tl (c ++ [(k, v)])] /\
  lruSet bound c k v = tl (c ++ [(k, v)]) /\
  map JsMap.size (lruSet_steps bound c k v) = [bound; S bound; bound] /\
  (forall oldest rest, c = oldest :: rest -> lruSet bound c k v = rest ++ [(k, v)]).
Proof.
  intros Hwf Hsize Hhas Hold.
  pose proof (proj1 (has_false _ _) Hhas) as Hk.
  pose proof (lruSet_absent bound c k v Hwf Hk Hold) as Hset.
  rewrite Hsize in Hset.
  replace (bound <? S bound) with true in Hset by (symmetry; apply Nat.ltb_lt; lia).
  assert (Hsteps : lruSet_steps bound c k v = [c; c ++ [(k, v)]; tl (c ++ [(k, v)])]).
  { unfold lruSet_steps. cbv zeta. fold (lruSet bound c k v). rewrite Hset.
    unfold lruSet_drop, lruSet_put. rewrite Hhas, set_absent by exact Hk.
    reflexivity. }
  split; [exact Hsteps|]. split; [exact Hset|]. split.
  - rewrite Hsteps. unfold JsMap.size in *. cbn [map].
    assert (E : length (c ++ [(k, v)]) = S bound)
      by (rewrite length_app; simpl; lia).
    rewrite E. repeat f_equal; [exact Hsize|].
    destruct (c ++ [(k, v)]); simpl in *; lia.
  - intros oldest rest ->. rewrite Hset. reflexivity.
Qed.

(** A full cache of capacity 2 holding [x] and [search]: inserting [a]
    leaves [search] and [a]. *)
Lemma insertion_into_full_cache_witness :
  lruSet 2 [(js "x", js "1"); (js "search", js "2")] (js "a") (js "3")
  = [(js "search", js "2"); (js "a", js "3")].
Proof.
  refine (proj1 (proj2 (insertion_into_full_cache 2
            [(js "x", js "1"); (js "search", js "2")] (js "a") (js "3")
            _ eq_refl eq_refl _))).
  - repeat constructor; simpl; intuition discriminate.
  - intros o H; injection H as <-; reflexivity.
Defined.

Lemma sizeWithin_sizes (bound : nat) (l : list Cache) :
  Forall (sizeWithin bound) l -> Forall (fun n => n <= bound) (map JsMap.size l).
Proof.
  induction 1; simpl; constructor; assumption.
Qed.

(** C2 as stated fails: inserting into the full cache of [SVG_CACHE_MAX]
    entries, the cache holds [SVG_CACHE_MAX + 1] entries after the second
    statement of [lruSet], the oldest key still among them. *)
Lemma insertion_exceeds_bound_in_between :
  JsMap.size fullCache = SVG_CACHE_MAX /\
  JsMap.has fullCache (js "new") = false /\
  map JsMap.size (lruSet_steps SVG_CACHE_MAX fullCache (js "new") (js "v"))
    = [SVG_CACHE_MAX; S SVG_CACHE_MAX; SVG_CACHE_MAX] /\
  JsMap.has (nth 1 (lruSet_steps SVG_CACHE_MAX fullCache (js "new") (js "v")) [])
    (sampleName 0) = true /\
  ~ Forall (sizeWithin SVG_CACHE_MAX)
      (lruSet_steps SVG_CACHE_MAX fullCache (js "new") (js "v")).
Proof.
  assert (E : map JsMap.size
                (lruSet_steps SVG_CACHE_MAX fullCache (js "new") (js "v"))
              = [SVG_CACHE_MAX; S SVG_CACHE_MAX; SVG_CACHE_MAX])
    by (vm_compute; reflexivity).
  split; [vm_compute; reflexivity|].
  split; [vm_compute; reflexivity|].
  split; [exact E|].
  split; [vm_compute; reflexivity|].
  intros H. apply sizeWithin_sizes in H.
  rewrite E in H. inversion H as [|? ? _ Hrest].
  inversion Hrest as [|? ? Hbad _]. lia.
Qed.

(** [lruGet] and [lruSet] on a cache that holds each key once, and for
    [lruSet] at most [bound] entries. *)
Lemma lru_frame_within_bound (bound : nat) (c : Cache) (k v : jsstring) :
  JsMap.wf c ->
  (forall e, In e (snd (lruGet c k)) <-> In e c) /\
  (JsMap.has c k = false -> lruGet c k = (None, c)) /\
  (forall old, JsMap.get c k = Some old ->
     lruGet c k = (Some old, JsMap.delete c k ++ [(k, old)])) /\
  (JsMap.has c k = true -> JsMap.size c <= bound ->
     lruSet bound c k v = JsMap.delete c k ++ [(k, v)] /\
     (forall x, In x (JsMap.keys (lruSet bound c k v)) <-> In x (JsMap.keys c)) /\
     JsMap.get (lruSet bound c k v) k = Some v /\
     (forall k', k' <> k ->
        JsMap.get (lruSet bound c k v) k' = JsMap.get c k')).
Proof.
  intros Hwf. split; [|split; [|split]].
  - intros e. destruct (JsMap.get c k) as [old|] eqn:Hg.
    + rewrite (lruGet_hit c k old Hg). cbn [snd].
      rewrite in_app_iff, In_delete. simpl. split.
      * intros [[H _] | [<- | []]]; [exact H | apply get_In; exact Hg].
      * intros H. destruct e as [k' v']. eqb_cases k' k; [|left; simpl; tauto].
        subst k'. right; left.
        pose proof (get_wf_In c k v' Hwf H) as Hg'. congruence.
    + rewrite (lruGet_miss c k Hg). reflexivity.
  - intros Hh. apply lruGet_miss. apply get_None. apply has_false. exact Hh.
  - intros old Hg. apply lruGet_hit. exact Hg.
  - intros Hh Hsize. apply has_true in Hh.
    assert (Hset : lruSet bound c k v = JsMap.set (JsMap.delete c k) k v).
    { unfold lruSet, lruSet_drop, lruSet_put, lruSet_evict.
      rewrite (proj2 (has_true c k) Hh).
      assert (Hk : ~ In k (JsMap.keys (JsMap.delete c k)))
        by (rewrite keys_delete, removeKey_In; tauto).
      rewrite set_absent by exact Hk.
      unfold JsMap.size in *. rewrite length_app. simpl length.
      pose proof (delete_shrinks c k Hh).
      replace (bound <? length (JsMap.delete c k) + 1) with false
        by (symmetry; apply Nat.ltb_ge; lia).
      reflexivity. }
    assert (Hk : ~ In k (JsMap.keys (JsMap.delete c k)))
      by (rewrite keys_delete, removeKey_In; tauto).
    rewrite Hset. split; [apply set_absent; exact Hk|]. split; [|split].
    + intros x. rewrite set_absent by exact Hk.
      rewrite keys_snoc, in_app_iff, keys_delete, removeKey_In. simpl.
      eqb_cases x k; [subst; tauto | intuition congruence].
    + apply get_set_same.
    + intros k' Hne. rewrite get_set_other by exact Hne.
      apply get_delete_other; exact Hne.
Qed.

(* ================================================================= *)
(** * Token scanner *)

Lemma startsWith_app (s p : jsstring) :
  startsWith s p = true <-> exists rest, s = p ++ rest.
Proof.
  revert s; induction p as [|x p IH]; intros s.
  - split; [intros _; exists s; reflexivity | destruct s; reflexivity].
  - destruct s as [|y s]; simpl;
      [split; [discriminate | intros [r H]; discriminate]|].
    rewrite andb_true_iff, N.eqb_eq, IH. split.
    + intros [-> [rest ->]]. exists rest; reflexivity.
    + intros [rest H]. injection H as -> ->. split; [reflexivity | exists rest; reflexivity].
Qed.

Lemma bodyRun_prefix (s : jsstring) : exists rest, s = bodyRun s ++ rest.
Proof.
  induction s as [|c s [rest IH]]; simpl.
  - exists []; reflexivity.
  - destruct (isBody c); [exists rest; simpl; congruence | exists (c :: s); reflexivity].
Qed.

Lemma bodyRun_length (s : jsstring) : length (bodyRun s) <= length s.
Proof.
  induction s as [|c s IH]; simpl; [lia|]. destruct (isBody c); simpl; lia.
Qed.

(** The greedy run takes a body and stops at what follows when that does
    not start with a class character. *)
Lemma bodyRun_exact (body post : jsstring) :
  forallb isBody body = true -> endsIdentifier post = true ->
  bodyRun (body ++ post) = body.
Proof.
  unfold endsIdentifier.
  intros Hb Hp. induction body as [|c body IH]; simpl in *.
  - destruct post as [|c post]; [reflexivity|]. simpl.
    apply negb_true_iff in Hp. rewrite Hp; reflexivity.
  - apply andb_true_iff in Hb. destruct Hb as [Hc Hb]. rewrite Hc, IH by exact Hb.
    reflexivity.
Qed.

Lemma matchHere_length (s body : jsstring) :
  matchHere s = Some body -> 0 < length body /\ 6 + length body <= length s.
Proof.
  unfold matchHere. destruct (startsWith s (js "ti ti-")) eqn:Hs; [|discriminate].
  apply startsWith_app in Hs. destruct Hs as [rest ->].
  change (skipn 6 (js "ti ti-" ++ rest)) with rest.
  pose proof (bodyRun_length rest) as Hl.
  destruct (bodyRun rest) as [|c b]; [discriminate|].
  intros H; injection H as <-. rewrite length_app.
  change (length (js "ti ti-")) with 6. simpl in *. lia.
Qed.

Lemma searchFrom_bounds (s : jsstring) (i : nat) (m : RegExpExecArray) :
  searchFrom s i = Some m ->
  i <= index m /\ 6 < length (match0 m) /\
  index m + length (match0 m) <= i + length s.
Proof.
  revert i; induction s as [|c s IH]; intros i; simpl searchFrom.
  - destruct (matchHere []) as [body|] eqn:Hm; [|discriminate].
    apply matchHere_length in Hm. simpl in Hm. lia.
  - destruct (matchHere (c :: s)) as [body|] eqn:Hm.
    + intros H; injection H as <-. apply matchHere_length in Hm.
      simpl in *. lia.
    + intros H. apply IH in H. simpl. lia.
Qed.

(** A successful [exec] moves [lastIndex] forward, within the text. *)
Lemma regex_exec_advances (text : jsstring) (lastIndex : nat)
    (m : RegExpExecArray) (lastIndex' : nat) :
  regex_exec text lastIndex = (Some m, lastIndex') ->
  lastIndex < lastIndex' /\ lastIndex' <= length text.
Proof.
  unfold regex_exec. destruct (length text <? lastIndex) eqn:Hl; [discriminate|].
  apply Nat.ltb_ge in Hl.
  destruct (searchFrom (skipn lastIndex text) lastIndex) as [m'|] eqn:Hs;
    [|discriminate].
  intros H; injection H as <- <-. apply searchFrom_bounds in Hs.
  rewrite length_skipn in Hs. lia.
Qed.

Lemma regex_exec_null (text : jsstring) (lastIndex lastIndex' : nat) :
  regex_exec text lastIndex = (None, lastIndex') -> lastIndex' = 0.
Proof.
  unfold regex_exec. destruct (length text <? lastIndex); [congruence|].
  destruct (searchFrom (skipn lastIndex text) lastIndex); [discriminate | congruence].
Qed.

(** The [while] loop ends: with fuel beyond what is left of the line it
    returns, with [lastIndex] reset to 0. *)
Lemma execLoop_enough {A : Type} (body : A -> RegExpExecArray -> A)
    (text : jsstring) (fuel lastIndex : nat) (acc : A) :
  length text - lastIndex < fuel ->
  exists acc', execLoop body fuel text lastIndex acc = Some (acc', 0).
Proof.
  revert lastIndex acc; induction fuel as [|fuel IH]; intros li acc Hf; [lia|].
  simpl. destruct (regex_exec text li) as [[m|] li'] eqn:He.
  - apply regex_exec_advances in He. apply IH. lia.
  - apply regex_exec_null in He. subst. exists acc; reflexivity.
Qed.

(** More fuel than needed changes nothing. *)
Lemma execLoop_more_fuel {A : Type} (body : A -> RegExpExecArray -> A)
    (text : jsstring) (fuel fuel' lastIndex : nat) (acc : A) (r : A * nat) :
  execLoop body fuel text lastIndex acc = Some r -> fuel <= fuel' ->
  execLoop body fuel' text lastIndex acc = Some r.
Proof.
  revert fuel' lastIndex acc; induction fuel as [|fuel IH];
    intros fuel' li acc; simpl; [discriminate|].
  intros H Hle. destruct fuel' as [|fuel']; [lia|]. simpl.
  destruct (regex_exec text li) as [[m|] li']; [|exact H].
  apply IH; [exact H | lia].
Qed.

(** The loop with a body is the fold of the body over the matches. *)
Lemma execLoop_fold {A : Type} (body : A -> RegExpExecArray -> A)
    (text : jsstring) (fuel lastIndex : nat) (acc : A)
    (found : list RegExpExecArray) :
  execLoop body fuel text lastIndex (fold_left body found acc) =
  match execLoop (fun l m => l ++ [m]) fuel text lastIndex found with
  | Some (ms, lastIndex') => Some (fold_left body ms acc, lastIndex')
  | None => None
  end.
Proof.
  revert lastIndex found; induction fuel as [|fuel IH]; intros li found; simpl;
    [reflexivity|].
  destruct (regex_exec text li) as [[m|] li']; [|reflexivity].
  rewrite <- IH. rewrite fold_left_app. reflexivity.
Qed.

(** The scanner is total. *)
Lemma scanMatches_total (text : jsstring) :
  exists ms, scanMatches text = Some ms.
Proof.
  unfold scanMatches, lineFuel.
  destruct (execLoop_enough (fun l m => l ++ [m]) text (S (length text)) 0 [])
    as [acc' H]; [lia|].
  rewrite H. exists acc'; reflexivity.
Qed.

Lemma scanLine_total (lineNo : nat) (text : jsstring) :
  exists spans, scanLine lineNo text = Some spans.
Proof.
  unfold scanLine. destruct (scanMatches_total text) as [ms ->].
  eexists; reflexivity.
Qed.

Lemma occurrences_ge (s : jsstring) (i p : nat) : In p (occurrences s i) -> i <= p.
Proof.
  revert i; induction s as [|c s IH]; intros i; simpl; [tauto|].
  destruct (matchHere (c :: s)); simpl; intros H.
  - destruct H as [<- | H]; [lia | apply IH in H; lia].
  - apply IH in H; lia.
Qed.

Lemma occurrences_skipn (n : nat) (s : jsstring) (i p : nat) :
  In p (occurrences (skipn n s) (i + n)) -> In p (occurrences s i).
Proof.
  revert s i; induction n as [|n IH]; intros s i.
  - rewrite Nat.add_0_r. simpl. tauto.
  - destruct s as [|c s]; [simpl; tauto|].
    replace (i + S n) with (S i + n) by lia. intros H. apply IH in H.
    simpl. destruct (matchHere (c :: s)); simpl; tauto.
Qed.

Lemma searchFrom_none (s : jsstring) (i : nat) :
  occurrences s i = [] -> searchFrom s i = None.
Proof.
  revert i; induction s as [|c s IH]; intros i; simpl; [reflexivity|].
  destruct (matchHere (c :: s)); [discriminate|]. apply IH.
Qed.

Lemma searchFrom_first (s : jsstring) (i p : nat) (rest : list nat) :
  occurrences s i = p :: rest ->
  searchFrom s i = searchFrom (skipn (p - i) s) p.
Proof.
  revert i; induction s as [|c s IH]; intros i; simpl occurrences; [discriminate|].
  destruct (matchHere (c :: s)) as [body|] eqn:Hm.
  - intros H; injection H as <- _. rewrite Nat.sub_diag. reflexivity.
  - intros H. assert (Hp : S i <= p).
    { apply (occurrences_ge s). rewrite H. left; reflexivity. }
    replace (p - i) with (S (p - S i)) by lia.
    simpl. rewrite Hm. apply IH. exact H.
Qed.

Lemma matchHere_token (id post : jsstring) :
  id <> [] -> forallb isBody id = true -> endsIdentifier post = true ->
  matchHere (js "ti ti-" ++ id ++ post) = Some id.
Proof.
  intros Hne Hb Hp. unfold matchHere.
  replace (startsWith (js "ti ti-" ++ id ++ post) (js "ti ti-")) with true
    by (symmetry; apply startsWith_app; eexists; reflexivity).
  change (skipn 6 (js "ti ti-" ++ id ++ post)) with (id ++ post).
  rewrite (bodyRun_exact id post Hb Hp).
  destruct id; [congruence | reflexivity].
Qed.

Lemma searchFrom_here (s : jsstring) (i : nat) (body : jsstring) :
  matchHere s = Some body ->
  searchFrom s i =
    Some {| index := i; match0 := js "ti ti-" ++ body; group1 := body |}.
Proof.
  intros H. destruct s; unfold searchFrom; rewrite H; reflexivity.
Qed.

Lemma skipn_prefix {A : Type} (l1 l2 : list A) : skipn (length l1) (l1 ++ l2) = l2.
Proof. induction l1; simpl; auto. Qed.

Lemma firstn_prefix {A : Type} (l1 l2 : list A) : firstn (length l1) (l1 ++ l2) = l1.
Proof. induction l1; simpl; congruence. Qed.

(** C4 (amended).  For every non-empty identifier made of lowercase
    letters, digits and hyphens, in the catalog or not: on a line
    [pre ti ti-<identifier> post] in which what follows the token does not
    continue the identifier and the pattern matches at no other position,
    the scanner returns exactly one span, for that identifier, and the
    text the span covers is [ti ti-<identifier>]. *)
Theorem token_scanned_once (lineNo : nat) (pre id post : jsstring) :
  id <> [] -> forallb isBody id = true -> endsIdentifier post = true ->
  occurrences (pre ++ js "ti ti-" ++ id ++ post) 0 = [length pre] ->
  let text := pre ++ js "ti ti-" ++ id ++ post in
  let sp := {| span_line := lineNo;
               span_start := length pre;
               span_end := length pre + length (js "ti ti-" ++ id);
               span_icon := id |} in
  scanLine lineNo text = Some [sp] /\ covered text sp = js "ti ti-" ++ id.
Proof.
  intros Hne Hb Hp Hocc text sp.
  set (m := {| index := length pre; match0 := js "ti ti-" ++ id; group1 := id |}).
  assert (Hlen : length text = length pre + length (js "ti ti-" ++ id) + length post).
  { unfold text. rewrite !length_app. lia. }
  assert (H1 : regex_exec text 0 = (Some m, length pre + length (js "ti ti-" ++ id))).
  { assert (Hs : searchFrom (js "ti ti-" ++ id ++ post) (length pre) = Some m).
    { apply searchFrom_here. apply matchHere_token; assumption. }
    assert (Hs0 : searchFrom text 0 = Some m).
    { unfold text. rewrite (searchFrom_first _ 0 (length pre) [] Hocc).
      rewrite Nat.sub_0_r, skipn_prefix. exact Hs. }
    unfold regex_exec.
    replace (length text <? 0) with false by (symmetry; apply Nat.ltb_ge; lia).
    change (skipn 0 text) with text. rewrite Hs0. reflexivity. }
  assert (H2 : regex_exec text (length pre + length (js "ti ti-" ++ id)) = (None, 0)).
  { unfold regex_exec.
    replace (length text <? length pre + length (js "ti ti-" ++ id)) with false
      by (symmetry; apply Nat.ltb_ge; lia).
    rewrite searchFrom_none; [reflexivity|].
    destruct (occurrences
                (skipn (length pre + length (js "ti ti-" ++ id)) text)
                (length pre + length (js "ti ti-" ++ id)))
      as [|p rest] eqn:E; [reflexivity|]. exfalso.
    assert (Hin : In p (occurrences
                          (skipn (length pre + length (js "ti ti-" ++ id)) text)
                          (0 + (length pre + length (js "ti ti-" ++ id)))))
      by (rewrite Nat.add_0_l, E; left; reflexivity).
    pose proof (occurrences_ge _ _ _ Hin) as Hge.
    apply occurrences_skipn in Hin. unfold text in Hin. rewrite Hocc in Hin.
    destruct Hin as [<- | []]. rewrite length_app in Hge.
    change (length (js "ti ti-")) with 6 in Hge. lia. }
  assert (Hloop : execLoop (fun l x => l ++ [x]) 2 text 0 [] = Some ([m], 0)).
  { simpl. rewrite H1, H2. reflexivity. }
  split.
  - unfold scanLine, scanMatches.
    rewrite (execLoop_more_fuel _ text 2 (lineFuel text) 0 [] _ Hloop).
    + reflexivity.
    + unfold lineFuel. rewrite Hlen, length_app.
      change (length (js "ti ti-")) with 6. lia.
  - unfold covered, substring, text. cbn [span_start span_end sp].
    replace (length pre + length (js "ti ti-" ++ id) - length pre)
      with (length (js "ti ti-" ++ id)) by lia.
    rewrite skipn_prefix.
    change (js "ti ti-" ++ id ++ post) with ((js "ti ti-" ++ id) ++ post).
    apply firstn_prefix.
Qed.

(** The line [<i class="ti ti-search text-xl"></i>] gives one span, for
    [search], covering [ti ti-search]. *)
Lemma token_scanned_once_witness :
  scanLine 0 exampleLine =
    Some [{| span_line := 0; span_start := 10; span_end := 22;
             span_icon := js "search" |}] /\
  covered exampleLine
    {| span_line := 0; span_start := 10; span_end := 22;
       span_icon := js "search" |} = js "ti ti-search".
Proof.
  apply (token_scanned_once 0 exampleBefore (js "search") exampleAfter).
  - discriminate.
  - reflexivity.
  - reflexivity.
  - reflexivity.
Defined.

(** C4 as stated fails for a catalog identifier outside [[a-z0-9-]+] and
    for a token followed by a further class character: the stem of
    [arrow_up.svg] is scanned back as [arrow], and on [ti ti-search2] the
    span is the one of [search2]. *)
Lemma catalog_identifier_not_scanned_back :
  let catalog :=
    catalogOf sampleHost
      (iconsDirectory [js "arrow_up.svg"; js "search.svg"; js "x.svg"]) in
  (In (js "arrow_up") catalog /\
   occurrences (js "ti ti-arrow_up") 0 = [0] /\
   scanLine 0 (js "ti ti-arrow_up") =
     Some [{| span_line := 0; span_start := 0; span_end := 11;
              span_icon := js "arrow" |}] /\
   covered (js "ti ti-arrow_up")
     {| span_line := 0; span_start := 0; span_end := 11;
        span_icon := js "arrow" |} <> js "ti ti-arrow_up") /\
  (In (js "search") catalog /\
   occurrences (js "ti ti-search2") 0 = [0] /\
   scanLine 0 (js "ti ti-search2") =
     Some [{| span_line := 0; span_start := 0; span_end := 13;
              span_icon := js "search2" |}] /\
   covered (js "ti ti-search2")
     {| span_line := 0; span_start := 0; span_end := 13;
        span_icon := js "search2" |} <> js "ti ti-search").
Proof.
  cbv zeta. split.
  - split; [left; reflexivity|]. split; [reflexivity|]. split; [reflexivity|].
    vm_compute. discriminate.
  - split; [right; left; reflexivity|]. split; [reflexivity|].
    split; [reflexivity|]. vm_compute. discriminate.
Qed.

(** C5.  The line [ti ti-] gives no span, and more generally the pattern
    does not match where [ti ti-] is followed by no identifier-body
    character; the line [ti ti-a ti ti-b] gives exactly two spans, the
    first for [a] and the second for [b], and they do not overlap. *)
Theorem boundary_lines (lineNo : nat) :
  scanLine lineNo (js "ti ti-") = Some [] /\
  (forall post, endsIdentifier post = true ->
                matchHere (js "ti ti-" ++ post) = None) /\
  let a := {| span_line := lineNo; span_start := 0; span_end := 7;
              span_icon := js "a" |} in
  let b := {| span_line := lineNo; span_start := 8; span_end := 15;
              span_icon := js "b" |} in
  scanLine lineNo (js "ti ti-a ti ti-b") = Some [a; b] /\
  covered (js "ti ti-a ti ti-b") a = js "ti ti-a" /\
  covered (js "ti ti-a ti ti-b") b = js "ti ti-b" /\
  span_end a <= span_start b /\
  spansOverlap a b = false.
Proof.
  cbv zeta. split; [reflexivity|]. split.
  { intros post Hpost. unfold matchHere.
    replace (startsWith (js "ti ti-" ++ post) (js "ti ti-")) with true
      by (symmetry; apply startsWith_app; eexists; reflexivity).
    change (skipn 6 (js "ti ti-" ++ post)) with post.
    destruct post as [|c post]; [reflexivity|].
    simpl in Hpost. apply negb_true_iff in Hpost. simpl. rewrite Hpost.
    reflexivity. }
  split; [reflexivity|].
  split; [reflexivity|]. split; [reflexivity|]. split; [simpl; lia|].
  unfold spansOverlap. cbn [span_line span_start span_end].
  rewrite Nat.eqb_refl. reflexivity.
Qed.

(* ================================================================= *)
(** * Decoration registry *)

Section RegistryFacts.
Variable host : Host.

Lemma extends_refl r : extends r r.
Proof. intros name deco H; exact H. Qed.

Lemma extends_trans r1 r2 r3 : extends r1 r2 -> extends r2 r3 -> extends r1 r3.
Proof. intros H12 H23 name deco H. apply H23, H12, H. Qed.

(** A call returns the registered handle, or creates one and registers it
    as the newest entry. *)
Lemma getDecorationForIcon_cases r name deco r' :
  getDecorationForIcon host r name = (deco, r') ->
  JsMap.get (decorationCache r') name = Some deco /\
  ((JsMap.get (decorationCache r) name = Some deco /\ r' = r) \/
   (JsMap.get (decorationCache r) name = None /\
    decorationCache r' = decorationCache r ++ [(name, deco)] /\
    created r' = created r ++ [deco])).
Proof.
  unfold getDecorationForIcon.
  destruct (JsMap.get (decorationCache r) name) as [cached|] eqn:Hg.
  - intros H; injection H as <- <-. split; [exact Hg | left; split; reflexivity].
  - unfold createTextEditorDecorationType. cbv zeta. cbn [decorationCache created].
    intros H; injection H as <- <-. cbn [decorationCache created].
    split; [apply get_set_same|]. right.
    split; [reflexivity|]. split; [|reflexivity].
    apply set_absent. apply get_None. exact Hg.
Qed.

Lemma get_snoc_old {V : Type} (m : JsMap.t V) k v k' v' :
  JsMap.get m k' = Some v' -> JsMap.get (m ++ [(k, v)]) k' = Some v'.
Proof.
  induction m as [|[k0 v0] m IH]; simpl; [discriminate|].
  destruct (jsstring_eqb k0 k'); auto.
Qed.

Lemma getDecorationForIcon_extends r name deco r' :
  getDecorationForIcon host r name = (deco, r') -> extends r r'.
Proof.
  intros H. apply getDecorationForIcon_cases in H.
  destruct H as [_ [[_ ->] | (_ & Hdc & _)]]; [apply extends_refl|].
  intros k d Hk. rewrite Hdc. apply get_snoc_old. exact Hk.
Qed.

Lemma getDecorations_extends names r decos r' :
  getDecorations host r names = (decos, r') -> extends r r'.
Proof.
  revert r decos r'; induction names as [|name names IH]; intros r decos r'; simpl.
  - intros H; injection H as <- <-. apply extends_refl.
  - destruct (getDecorationForIcon host r name) as [deco r1] eqn:H1.
    destruct (getDecorations host r1 names) as [ds r2] eqn:H2.
    intros H; injection H as <- <-.
    eapply extends_trans; [eapply getDecorationForIcon_extends; eauto | eauto].
Qed.

(** Each call of a sequence returns the handle the final registry holds
    for its identifier. *)
Lemma getDecorations_returns names r decos r' :
  getDecorations host r names = (decos, r') ->
  forall i name, nth_error names i = Some name ->
    exists deco, nth_error decos i = Some deco /\
                 JsMap.get (decorationCache r') name = Some deco.
Proof.
  revert r decos r'; induction names as [|n names IH]; intros r decos r'; simpl.
  - intros _ [|i] name H; discriminate.
  - destruct (getDecorationForIcon host r n) as [deco r1] eqn:H1.
    destruct (getDecorations host r1 names) as [ds r2] eqn:H2.
    intros H; injection H as <- <-. intros [|i] name Hn; simpl in *.
    + injection Hn as ->. exists deco. split; [reflexivity|].
      apply (getDecorations_extends _ _ _ _ H2).
      apply (getDecorationForIcon_cases _ _ _ _ H1).
    + eapply IH; eauto.
Qed.

(** The registry keeps one entry per identifier requested, and holds
    exactly the handles created. *)
Lemma getDecorations_registry names r decos r' :
  getDecorations host r names = (decos, r') ->
  JsMap.wf (decorationCache r) ->
  JsMap.values (decorationCache r) = created r ->
  JsMap.wf (decorationCache r') /\
  JsMap.values (decorationCache r') = created r' /\
  (forall x, In x (JsMap.keys (decorationCache r')) <->
             In x (JsMap.keys (decorationCache r)) \/ In x names).
Proof.
  revert r decos r'; induction names as [|n names IH]; intros r decos r'; simpl.
  - intros H; injection H as <- <-. intros Hwf Hv. repeat split; tauto.
  - destruct (getDecorationForIcon host r n) as [deco r1] eqn:H1.
    destruct (getDecorations host r1 names) as [ds r2] eqn:H2.
    intros H; injection H as <- <-. intros Hwf Hv.
    pose proof (getDecorationForIcon_cases _ _ _ _ H1) as [Hg Hc].
    destruct Hc as [[Hold ->] | (Hnone & Hdc & Hcr)].
    + destruct (IH _ _ _ H2 Hwf Hv) as (W & Vs & K).
      split; [exact W|]. split; [exact Vs|]. intros x. rewrite K.
      split; [tauto|]. intros [Hx | [<- | Hx]]; try tauto.
      left. apply has_true. unfold JsMap.has. rewrite Hold. reflexivity.
    + assert (Hwf1 : JsMap.wf (decorationCache r1)).
      { rewrite Hdc. unfold JsMap.wf. rewrite keys_snoc.
        apply NoDup_app; [exact Hwf | repeat constructor; simpl; tauto|].
        intros a Ha [<- | []]. apply get_None in Hnone. contradiction. }
      assert (Hv1 : JsMap.values (decorationCache r1) = created r1).
      { rewrite Hdc, Hcr, <- Hv. unfold JsMap.values. rewrite map_app.
        reflexivity. }
      destruct (IH _ _ _ H2 Hwf1 Hv1) as (W & Vs & K).
      split; [exact W|]. split; [exact Vs|]. intros x. rewrite K, Hdc, keys_snoc.
      rewrite in_app_iff. simpl. tauto.
Qed.

End RegistryFacts.

Lemma NoDup_same_length (a b : list jsstring) :
  NoDup a -> NoDup b -> (forall x, In x a <-> In x b) -> length a = length b.
Proof.
  intros Ha Hb H. apply Nat.le_antisymm.
  - apply NoDup_incl_length; [exact Ha | intros x Hx; apply H; exact Hx].
  - apply NoDup_incl_length; [exact Hb | intros x Hx; apply H; exact Hx].
Qed.

(** C9.  Over any sequence of [getDecorationForIcon] calls from the start
    of the process: a call on an identifier that has a handle returns that
    handle and creates nothing; two calls with the same identifier return
    the same handle; the registry holds each identifier once; and the
    handles created are exactly the ones the registry holds, one per
    distinct identifier requested. *)
Theorem one_handle_per_identifier (host : Host) (names : list jsstring) :
  let decos := fst (getDecorations host initialRegistry names) in
  let r := snd (getDecorations host initialRegistry names) in
  (forall i j name,
      nth_error names i = Some name -> nth_error names j = Some name ->
      exists deco, nth_error decos i = Some deco /\ nth_error decos j = Some deco) /\
  (forall name cached,
      JsMap.get (decorationCache r) name = Some cached ->
      getDecorationForIcon host r name = (cached, r)) /\
  JsMap.wf (decorationCache r) /\
  JsMap.values (decorationCache r) = created r /\
  length (created r) = length (distinct names).
Proof.
  destruct (getDecorations host initialRegistry names) as [decos r] eqn:Hrun.
  cbn [fst snd].
  destruct (getDecorations_registry host names _ _ _ Hrun) as (W & Vs & K);
    [constructor | reflexivity |].
  split; [|split; [|split; [|split]]].
  - intros i j name Hi Hj.
    destruct (getDecorations_returns host names _ _ _ Hrun i name Hi) as (d & Hd & Hg).
    destruct (getDecorations_returns host names _ _ _ Hrun j name Hj) as (d' & Hd' & Hg').
    exists d. split; [exact Hd | congruence].
  - intros name cached Hg. unfold getDecorationForIcon. rewrite Hg. reflexivity.
  - exact W.
  - exact Vs.
  - rewrite <- Vs. unfold JsMap.values. rewrite length_map.
    rewrite <- (length_map fst). fold (JsMap.keys (decorationCache r)).
    apply NoDup_same_length; [exact W | apply distinct_NoDup|].
    intros x. rewrite K, distinct_In. simpl. tauto.
Qed.

(* ================================================================= *)
(** * Decoration updater *)

Lemma editor_eta (e : TextEditor) :
  {| document := document e; applied := applied e |} = e.
Proof. destruct e; reflexivity. Qed.

Lemma clearDecorations_applied (r : Registry) (editor : TextEditor) :
  clearDecorations r editor =
  {| document := document editor;
     applied := applied editor ++ clearingCalls r |}.
Proof.
  unfold clearDecorations, clearingCalls.
  generalize (JsMap.values (decorationCache r)) as decos.
  intros decos; revert editor; induction decos as [|d decos IH]; intros editor; simpl.
  - rewrite app_nil_r. symmetry; apply editor_eta.
  - rewrite IH. unfold setDecorations; simpl. rewrite <- app_assoc. reflexivity.
Qed.

Lemma renderedIn_app (calls calls' : list Applied) (k : nat) :
  renderedIn (calls ++ calls') k = showAfter k calls' (renderedIn calls k).
Proof. unfold renderedIn, showAfter. apply fold_left_app. Qed.

Lemma showAfter_untouched (k : nat) (calls : list Applied) shown :
  touches k calls = false -> showAfter k calls shown = shown.
Proof.
  revert shown; induction calls as [|[d rs] calls IH]; intros shown; simpl;
    [reflexivity|].
  rewrite orb_false_iff. intros [Hd Hc]. unfold showAfter; simpl. rewrite Hd.
  apply IH; exact Hc.
Qed.

Lemma showAfter_touched (k : nat) (calls : list Applied) shown shown' :
  touches k calls = true -> showAfter k calls shown = showAfter k calls shown'.
Proof.
  revert shown shown'; induction calls as [|[d rs] calls IH];
    intros shown shown'; simpl; [discriminate|].
  unfold showAfter; simpl. destruct (key d =? k) eqn:Hd; [reflexivity|].
  simpl. apply IH.
Qed.

Lemma touches_clearing (k : nat) (r : Registry) :
  touches k (clearingCalls r) =
  existsb (fun d => key d =? k) (JsMap.values (decorationCache r)).
Proof.
  unfold touches, clearingCalls.
  induction (JsMap.values (decorationCache r)); simpl; congruence.
Qed.

Lemma showAfter_clearing (k : nat) (r : Registry) shown :
  showAfter k (clearingCalls r) shown =
  if touches k (clearingCalls r) then [] else shown.
Proof.
  unfold clearingCalls.
  revert shown; induction (JsMap.values (decorationCache r)) as [|d ds IH];
    intros shown; simpl; [reflexivity|].
  unfold showAfter in *; simpl. rewrite IH.
  destruct (key d =? k); simpl; [|reflexivity].
  destruct (touches k (map (fun deco => (deco, [])) ds)); reflexivity.
Qed.

(** C6.  For every document whose language is not one of the four of the
    allow-list, the updater applies the empty span-set to every handle of
    the registry, in registry order, and makes no other call; afterwards
    nothing is shown for any handle of the registry, so nothing at all
    when every earlier call of the editor was for a handle of the
    registry. *)
Theorem other_language_clears (host : Host) (r : Registry) (editor : TextEditor) :
  array_includes allowed (languageId (document editor)) = false ->
  let editor' := {| document := document editor;
                    applied := applied editor ++ clearingCalls r |} in
  allowed = [js "html"; js "svelte"; js "javascriptreact"; js "typescriptreact"] /\
  updateDecorations host r editor = Some (r, editor') /\
  clearingCalls r =
    map (fun deco => (deco, [])) (JsMap.values (decorationCache r)) /\
  (forall deco ranges, In (deco, ranges) (clearingCalls r) -> ranges = []) /\
  (forall deco, In deco (JsMap.values (decorationCache r)) ->
                rendered editor' (key deco) = []) /\
  ((forall call, In call (applied editor) ->
                 In (fst call) (JsMap.values (decorationCache r))) ->
   forall k, rendered editor' k = []).
Proof.
  intros Hlang editor'. split; [reflexivity|]. split.
  { unfold updateDecorations. rewrite Hlang. cbn [negb]. cbv iota.
    rewrite clearDecorations_applied. reflexivity. }
  split; [reflexivity|]. split.
  { intros deco ranges Hin. unfold clearingCalls in Hin.
    apply in_map_iff in Hin. destruct Hin as (d & Hd & _). congruence. }
  assert (Hreg : forall deco, In deco (JsMap.values (decorationCache r)) ->
                              touches (key deco) (clearingCalls r) = true).
  { intros deco Hin. rewrite touches_clearing. apply existsb_exists.
    exists deco. split; [exact Hin | apply Nat.eqb_refl]. }
  split.
  - intros deco Hin. unfold rendered, editor'. cbn [applied].
    rewrite renderedIn_app, showAfter_clearing, (Hreg deco Hin). reflexivity.
  - intros Hprev k. unfold rendered, editor'. cbn [applied].
    rewrite renderedIn_app, showAfter_clearing.
    destruct (touches k (clearingCalls r)) eqn:Hk; [reflexivity|].
    unfold renderedIn. change (showAfter k (applied editor) [] = []).
    apply showAfter_untouched.
    destruct (touches k (applied editor)) eqn:Hp; [|reflexivity].
    unfold touches in Hp. apply existsb_exists in Hp.
    destruct Hp as (call & Hin & Hkey). apply Nat.eqb_eq in Hkey.
    rewrite <- Hkey, (Hreg _ (Hprev call Hin)) in Hk. discriminate.
Qed.

(** A Python file in an editor that shows the handle of [x]: the updater
    clears it, and nothing is shown afterwards. *)
Lemma other_language_clears_witness :
  updateDecorations sampleHost sampleRegistry pythonEditor =
    Some (sampleRegistry,
          {| document := document pythonEditor;
             applied := applied pythonEditor ++ clearingCalls sampleRegistry |}) /\
  forall k,
    rendered {| document := document pythonEditor;
                applied := applied pythonEditor ++ clearingCalls sampleRegistry |} k
    = [].
Proof.
  pose proof (other_language_clears sampleHost sampleRegistry pythonEditor eq_refl)
    as H.
  cbv zeta in H. destruct H as (_ & Hrun & _ & _ & _ & Hall).
  split; [exact Hrun|]. apply Hall.
  intros call [<- | []]. left; reflexivity.
Defined.

Section UpdaterFacts.
Variable host : Host.

(** Every line's loop ends, so the scan of a document does. *)
Lemma scanLines_total (ls : list jsstring) (lineNo : nat) (acc : RangesByIcon) :
  exists acc', scanLines lineNo ls 0 acc = Some (acc', 0).
Proof.
  revert lineNo acc; induction ls as [|text ls IH]; intros lineNo acc;
    cbn [scanLines].
  - exists acc; reflexivity.
  - destruct (execLoop_enough (recordMatch lineNo) text (lineFuel text) 0 acc)
      as [acc1 H]; [unfold lineFuel; lia|].
    rewrite H. apply IH.
Qed.

Lemma groupRanges_total (doc : TextDocument) :
  exists rangesByIcon, groupRanges doc = Some rangesByIcon.
Proof.
  unfold groupRanges.
  destruct (scanLines_total (lines doc) 0 JsMap.empty) as [acc H].
  rewrite H. exists acc; reflexivity.
Qed.

(** On each line the loop records the spans of the token scanner. *)
Lemma line_loop_scans (lineNo : nat) (text : jsstring) (acc : RangesByIcon)
    (ms : list RegExpExecArray) :
  scanMatches text = Some ms ->
  execLoop (recordMatch lineNo) (lineFuel text) text 0 acc =
    Some (fold_left (recordMatch lineNo) ms acc, 0).
Proof.
  unfold scanMatches. intros H.
  pose proof (execLoop_fold (recordMatch lineNo) text (lineFuel text) 0 acc [])
    as Hf. simpl fold_left in Hf. rewrite Hf.
  destruct (execLoop_enough (fun l m => l ++ [m]) text (lineFuel text) 0 [])
    as [ms' He]; [unfold lineFuel; lia|].
  rewrite He in *. injection H as <-. reflexivity.
Qed.

Lemma in_applyingCalls r entries icon ranges deco :
  In (icon, ranges) entries ->
  JsMap.get (decorationCache r) icon = Some deco ->
  In (deco, ranges) (applyingCalls r entries).
Proof.
  intros Hin Hg. unfold applyingCalls. apply in_flat_map.
  exists (icon, ranges). split; [exact Hin|]. simpl. rewrite Hg. left; reflexivity.
Qed.

(** The applying loop: the registry grows, the editor receives one call
    per entry with the handle the registry ends up holding, and a handle
    the registry gained is the handle of an entry. *)
Lemma applyRanges_spec entries r e r' e' :
  applyRanges host entries r e = (r', e') ->
  extends r r' /\
  document e' = document e /\
  applied e' = applied e ++ applyingCalls r' entries /\
  (forall entry, In entry entries ->
     JsMap.get (decorationCache r') (fst entry) <> None) /\
  (forall deco, In deco (JsMap.values (decorationCache r')) ->
     In deco (JsMap.values (decorationCache r)) \/
     exists entry, In entry entries /\
                   JsMap.get (decorationCache r') (fst entry) = Some deco).
Proof.
  revert r e r' e'; induction entries as [|[icon ranges] rest IH];
    intros r e r' e'; simpl.
  - intros H; injection H as <- <-. split; [apply extends_refl|].
    split; [reflexivity|]. split; [rewrite app_nil_r; reflexivity|].
    split; [tauto|]. intros deco H; left; exact H.
  - destruct (getDecorationForIcon host r icon) as [deco r1] eqn:H1.
    intros H. destruct (IH _ _ _ _ H) as (Hext & Hdoc & Happ & Hpres & Hnew).
    pose proof (getDecorationForIcon_extends host _ _ _ _ H1) as Hext1.
    pose proof (getDecorationForIcon_cases host _ _ _ _ H1) as [Hg1 Hc].
    pose proof (Hext _ _ Hg1) as Hg'.
    split; [eapply extends_trans; eauto|]. split; [exact Hdoc|]. split.
    { rewrite Happ. unfold setDecorations; cbn [applied fst snd].
      rewrite Hg', <- app_assoc. reflexivity. }
    split.
    { intros entry [<- | Hin]; [simpl; congruence | apply Hpres; exact Hin]. }
    intros d Hd. destruct (Hnew d Hd) as [Hold | (entry & Hin & Hge)].
    + destruct Hc as [[_ ->] | (_ & Hdc & _)]; [left; exact Hold|].
      rewrite Hdc in Hold. unfold JsMap.values in Hold.
      rewrite map_app, in_app_iff in Hold. destruct Hold as [Hold | [<- | []]].
      * left; exact Hold.
      * right. exists (icon, ranges). split; [left; reflexivity | exact Hg'].
    + right. exists entry. split; [right; exact Hin | exact Hge].
Qed.

(** When the registry has a handle for every entry, the loop creates
    nothing. *)
Lemma applyRanges_present entries r e :
  (forall entry, In entry entries ->
     JsMap.get (decorationCache r) (fst entry) <> None) ->
  applyRanges host entries r e =
    (r, {| document := document e;
           applied := applied e ++ applyingCalls r entries |}).
Proof.
  revert e; induction entries as [|[icon ranges] rest IH]; intros e Hall; simpl.
  - rewrite app_nil_r, editor_eta. reflexivity.
  - destruct (JsMap.get (decorationCache r) icon) as [deco|] eqn:Hg.
    + unfold getDecorationForIcon. rewrite Hg.
      rewrite IH by (intros entry Hin; apply Hall; right; exact Hin).
      unfold setDecorations; cbn [document applied].
      rewrite <- app_assoc. reflexivity.
    + exfalso. apply (Hall (icon, ranges)); [left; reflexivity | exact Hg].
Qed.

Lemma touches_In k calls :
  touches k calls = true <-> exists call, In call calls /\ key (fst call) = k.
Proof.
  unfold touches. rewrite existsb_exists. split; intros (c & Hc & Hk); exists c.
  - apply Nat.eqb_eq in Hk; tauto.
  - split; [tauto | apply Nat.eqb_eq; exact Hk].
Qed.

(** C7.  For every editor and registry, the updater run twice with the
    document unchanged in between: both runs return; they compute the
    same grouping; the second makes, after its clearing calls, the same
    (handle, span-set) calls as the first and creates no handle; and
    afterwards every decoration handle shows what it showed after the
    first run. *)
Theorem update_twice_same (r : Registry) (editor : TextEditor) :
  exists r1 e1 e2 calls,
    updateDecorations host r editor = Some (r1, e1) /\
    updateDecorations host r1 e1 = Some (r1, e2) /\
    document e1 = document editor /\
    groupRanges (document e1) = groupRanges (document editor) /\
    applied e1 = applied editor ++ clearingCalls r ++ calls /\
    applied e2 = applied e1 ++ clearingCalls r1 ++ calls /\
    (forall k, rendered e2 k = rendered e1 k).
Proof.
  unfold updateDecorations.
  destruct (array_includes allowed (languageId (document editor))) eqn:Hlang;
    cbn [negb]; cbv iota.
  - (* supported language *)
    destruct (groupRanges_total (document editor)) as [g Hg]. rewrite Hg.
    destruct (applyRanges host (JsMap.entries g) r (clearDecorations r editor))
      as [r1 e1] eqn:H1.
    destruct (applyRanges_spec _ _ _ _ _ H1) as (Hext & Hdoc & Happ & Hpres & Hnew).
    rewrite clearDecorations_applied in Hdoc, Happ. cbn [document applied] in *.
    exists r1, e1,
      {| document := document e1;
         applied := (applied e1 ++ clearingCalls r1)
                    ++ applyingCalls r1 (JsMap.entries g) |},
      (applyingCalls r1 (JsMap.entries g)).
    cbv zeta. split; [reflexivity|]. rewrite Hdoc, Hlang, Hg. cbv iota.
    split.
    { rewrite applyRanges_present by exact Hpres.
      rewrite clearDecorations_applied. cbn [document applied].
      rewrite Hdoc. reflexivity. }
    split; [reflexivity|]. split; [reflexivity|].
    split; [rewrite Happ, <- app_assoc; reflexivity|].
    split; [rewrite <- app_assoc; reflexivity|].
    intros k. unfold rendered. cbn [applied].
    rewrite !renderedIn_app, showAfter_clearing.
    set (calls := applyingCalls r1 (JsMap.entries g)) in *.
    destruct (touches k calls) eqn:Hk.
    + rewrite Happ, !renderedIn_app. apply showAfter_touched. exact Hk.
    + rewrite (showAfter_untouched k calls _ Hk).
      destruct (touches k (clearingCalls r1)) eqn:Hc; [|reflexivity].
      rewrite Happ, !renderedIn_app, (showAfter_untouched k calls _ Hk).
      rewrite showAfter_clearing.
      replace (touches k (clearingCalls r)) with true; [reflexivity|].
      symmetry. rewrite touches_clearing in *.
      apply existsb_exists in Hc. destruct Hc as (deco & Hin & Hkey).
      destruct (Hnew deco Hin) as [Hold | ([icon ranges] & Hentry & Hget)].
      * apply existsb_exists. exists deco; tauto.
      * exfalso. apply Nat.eqb_eq in Hkey.
        assert (Ht : touches k calls = true).
        { apply touches_In. exists (deco, ranges). split; [|exact Hkey].
          eapply in_applyingCalls; eauto. }
        congruence.
  - (* other language *)
    rewrite !clearDecorations_applied. cbn [document applied].
    exists r, {| document := document editor;
                 applied := applied editor ++ clearingCalls r |},
      {| document := document editor;
         applied := (applied editor ++ clearingCalls r) ++ clearingCalls r |},
      [].
    cbv zeta. cbn [document applied]. rewrite Hlang. cbn [negb]. cbv iota.
    rewrite clearDecorations_applied. cbn [document applied].
    split; [reflexivity|]. split; [reflexivity|]. split; [reflexivity|].
    split; [reflexivity|]. rewrite !app_nil_r.
    split; [reflexivity|]. split; [reflexivity|].
    intros k. unfold rendered. cbn [applied].
    rewrite !renderedIn_app, !showAfter_clearing.
    destruct (touches k (clearingCalls r)); reflexivity.
Qed.

End UpdaterFacts.

(* ================================================================= *)
(** * Suggestions *)

Section SuggestionFacts.
Variable bound : nat.
Variable host : Host.

(** [resolveCompletionItem] passes only non-empty identifiers on to
    [getSvgDataUrl], so a request keeps the invariant of the cache. *)
Lemma resolveCompletionItem_inv fs c h item :
  cacheInv bound (c, h) ->
  exists h',
    cacheInv bound (snd (resolveCompletionItem bound host fs c item), h').
Proof.
  intros Hinv. unfold resolveCompletionItem.
  destruct (meta item) as [[iconName className]|]; [|exists h; exact Hinv].
  destruct (truthy iconName) eqn:Hk; cbn [negb orb]; [|exists h; exact Hinv].
  destruct (negb (truthy className)); [exists h; exact Hinv|].
  pose proof (cacheStep_cases bound host (c, h) fs iconName Hinv Hk) as [Hstep _].
  cbv zeta in Hstep. unfold cacheStep in Hstep. cbn [fst snd] in Hstep.
  destruct (getSvgDataUrl bound host fs c iconName) as [[dataUrl|e] c'];
    cbn [snd]; eexists; exact Hstep.
Qed.

(** Whatever items a session resolves, the image cache stays within its
    bound. *)
Lemma resolve_session_bounded (requests : list (FileSystem * CompletionItem)) :
  JsMap.size (resolveRun bound host requests) <= bound.
Proof.
  unfold resolveRun.
  assert (H : forall c h, cacheInv bound (c, h) ->
            exists h', cacheInv bound
              (fold_left
                 (fun cache request =>
                    snd (resolveCompletionItem bound host (fst request) cache
                           (snd request))) requests c, h')).
  { induction requests as [|[fs item] requests IH]; intros c h Hinv; simpl.
    - exists h; exact Hinv.
    - destruct (resolveCompletionItem_inv fs c h item Hinv) as [h1 H1].
      apply (IH _ h1 H1). }
  destruct (H JsMap.empty [] (cacheInv_initial bound)) as [h' Hinv].
  apply (cacheInv_size bound _ Hinv).
Qed.

End SuggestionFacts.


(* ================================================================= *)
(** * Further properties: image cache *)

Section CacheFurther.
Variable bound : nat.
Variable host : Host.
Implicit Types (c : Cache) (k v : jsstring) (fs : FileSystem).

Lemma In_keys_set {V : Type} (m : JsMap.t V) k (val : V) x :
  In x (JsMap.keys (JsMap.set m k val)) <-> In x (JsMap.keys m) \/ x = k.
Proof.
  induction m as [|[k0 v0] m IH]; simpl.
  - split; [intros [<- | []]; auto | intros [[] | ->]; auto].
  - eqb_cases k0 k; simpl.
    + subst. split; [intros [<- | H]; auto | intros [[<- | H] | ->]; auto].
    + rewrite IH. tauto.
Qed.

Lemma get_delete_same {V : Type} (m : JsMap.t V) k : JsMap.get (JsMap.delete m k) k = None.
Proof.
  apply get_None. rewrite keys_delete, removeKey_In. tauto.
Qed.

Lemma lruSet_drop_absent c k : ~ In k (JsMap.keys (lruSet_drop c k)).
Proof.
  unfold lruSet_drop. destruct (JsMap.has c k) eqn:Hh.
  - rewrite keys_delete, removeKey_In. tauto.
  - apply has_false. exact Hh.
Qed.

Lemma lruSet_drop_get c k k' :
  k' <> k -> JsMap.get (lruSet_drop c k) k' = JsMap.get c k'.
Proof.
  intros Hne. unfold lruSet_drop. destruct (JsMap.has c k); [|reflexivity].
  apply get_delete_other. exact Hne.
Qed.

(** With a positive bound the entry just set is never the one evicted. *)
Lemma lruSet_keeps_new c k v :
  0 < bound -> JsMap.get (lruSet bound c k v) k = Some v.
Proof.
  intros Hb. unfold lruSet, lruSet_put, lruSet_evict.
  pose proof (lruSet_drop_absent c k) as Habs.
  set (c1 := lruSet_drop c k) in *.
  destruct (bound <? JsMap.size (JsMap.set c1 k v)) eqn:Hfull;
    [|apply get_set_same].
  destruct (JsMap.first_key (JsMap.set c1 k v)) as [o|] eqn:Ho;
    [|apply get_set_same].
  destruct (truthy o); [|apply get_set_same].
  rewrite get_delete_other; [apply get_set_same|].
  intros ->. apply Nat.ltb_lt in Hfull.
  rewrite set_absent in Ho, Hfull by exact Habs.
  destruct c1 as [|[k0 v0] c1]; simpl in *.
  - lia.
  - injection Ho as ->. tauto.
Qed.

(** Every other entry of the cache after [lruSet] was there before, with
    the same value. *)
Lemma lruSet_invents_nothing c k v k' v' :
  k' <> k -> JsMap.get (lruSet bound c k v) k' = Some v' ->
  JsMap.get c k' = Some v'.
Proof.
  intros Hne. unfold lruSet, lruSet_put, lruSet_evict.
  assert (Hput : JsMap.get (JsMap.set (lruSet_drop c k) k v) k' = JsMap.get c k').
  { rewrite get_set_other by exact Hne. apply lruSet_drop_get. exact Hne. }
  destruct (bound <? _); [|congruence].
  destruct (JsMap.first_key _) as [o|]; [|congruence].
  destruct (truthy o); [|congruence].
  eqb_cases o k'.
  - subst. rewrite get_delete_same. discriminate.
  - rewrite get_delete_other by congruence. congruence.
Qed.

(** X1.  Round trip of the cache with a positive bound: after
    [lruSet(cache, key, val)] a lookup of [key] gives [val], whatever the
    cache held, and every other entry found afterwards was there before
    with the same value. *)
Theorem lruSet_then_get c k v :
  0 < bound ->
  JsMap.get (lruSet bound c k v) k = Some v /\
  fst (lruGet (lruSet bound c k v) k) = Some v /\
  (forall k' v', k' <> k ->
     JsMap.get (lruSet bound c k v) k' = Some v' -> JsMap.get c k' = Some v').
Proof.
  intros Hb. pose proof (lruSet_keeps_new c k v Hb) as Hg.
  split; [exact Hg|]. split.
  - unfold lruGet. rewrite Hg. reflexivity.
  - intros k' v'. apply lruSet_invents_nothing.
Qed.

(** X2.  With a positive bound, a [getSvgDataUrl] call that returned is
    served from the cache when repeated: the second call returns the same
    data URL whatever the file system has become, and only moves the
    entry to the newest place. *)
Theorem getSvgDataUrl_repeat fs c k d c' :
  0 < bound ->
  getSvgDataUrl bound host fs c k = (Returns d, c') ->
  forall fs',
    getSvgDataUrl bound host fs' c' k =
      (Returns d, JsMap.delete c' k ++ [(k, d)]).
Proof.
  intros Hb Hcall fs'.
  assert (H : JsMap.get c' k = Some d /\ truthy d = true).
  { unfold getSvgDataUrl, lruGet in Hcall.
    set (path := fsPath (joinPath host (extensionUriGlobal host)
                           [js "media"; js "icons"; k ++ js ".svg"])) in *.
    destruct (JsMap.get c k) as [v|] eqn:Hg.
    - destruct (truthy v) eqn:Hv.
      + injection Hcall as <- <-. split; [apply get_set_same | exact Hv].
      + destruct (readFileSync fs path); [|discriminate].
        injection Hcall as <- <-.
        split; [apply lruSet_keeps_new; exact Hb | reflexivity].
    - destruct (readFileSync fs path); [|discriminate].
      injection Hcall as <- <-.
      split; [apply lruSet_keeps_new; exact Hb | reflexivity]. }
  destruct H as [Hg Hd]. apply getSvgDataUrl_hit; assumption.
Qed.

Lemma has_In c k : JsMap.has c k = true <-> In k (JsMap.keys c).
Proof. apply has_true. Qed.

Lemma lruSet_keeps_empty_key c k v :
  In [] (JsMap.keys c) -> In [] (JsMap.keys (lruSet bound c k v)).
Proof.
  intros Hin. unfold lruSet, lruSet_put, lruSet_evict.
  assert (H2 : In [] (JsMap.keys (JsMap.set (lruSet_drop c k) k v))).
  { apply In_keys_set. destruct k as [|u k]; [right; reflexivity|].
    left. unfold lruSet_drop. destruct (JsMap.has c (u :: k)); [|exact Hin].
    rewrite keys_delete, removeKey_In. split; [exact Hin | discriminate]. }
  destruct (bound <? _); [|exact H2].
  destruct (JsMap.first_key _) as [o|]; [|exact H2].
  destruct o as [|u o]; simpl truthy; cbv iota; [exact H2|].
  rewrite keys_delete, removeKey_In. split; [exact H2 | discriminate].
Qed.

Lemma lruGet_keeps_keys c k x :
  In x (JsMap.keys c) -> In x (JsMap.keys (snd (lruGet c k))).
Proof.
  intros Hin. unfold lruGet. destruct (JsMap.get c k) as [v|]; [|exact Hin].
  cbn [snd]. apply In_keys_set. eqb_cases x k; [right; assumption|].
  left. rewrite keys_delete, removeKey_In. tauto.
Qed.

Lemma getSvgDataUrl_keeps_empty_key fs c k :
  In [] (JsMap.keys c) ->
  In [] (JsMap.keys (snd (getSvgDataUrl bound host fs c k))).
Proof.
  intros Hin. unfold getSvgDataUrl.
  pose proof (lruGet_keeps_keys c k [] Hin) as H1.
  destruct (lruGet c k) as [cached cache1]. cbn [snd] in H1.
  assert (Hmiss : In [] (JsMap.keys (snd
            match readFileSync fs (fsPath (joinPath host (extensionUriGlobal host)
                    [js "media"; js "icons"; k ++ js ".svg"])) with
            | Some svgBuf =>
                (Returns (js "data:image/svg+xml;base64," ++ base64 host svgBuf),
                 lruSet bound cache1 k
                   (js "data:image/svg+xml;base64," ++ base64 host svgBuf))
            | None =>
                (Throws (ReadError (fsPath (joinPath host (extensionUriGlobal host)
                    [js "media"; js "icons"; k ++ js ".svg"]))), cache1)
            end))).
  { destruct (readFileSync fs _); cbn [snd];
      [apply lruSet_keeps_empty_key; exact H1 | exact H1]. }
  destruct cached as [v|]; [destruct (truthy v); [exact H1 | exact Hmiss] | exact Hmiss].
Qed.

(** X3.  The entry of the empty identifier is never evicted: once the
    cache holds the key [""], it holds it after any further sequence of
    [getSvgDataUrl] calls, on whatever identifiers and with whatever
    bound. *)
Theorem empty_key_is_never_evicted (ops : list CacheOp) c (h : list jsstring) :
  JsMap.has c [] = true ->
  JsMap.has (fst (fold_left (cacheStep bound host) ops (c, h))) [] = true.
Proof.
  rewrite has_In. revert c h; induction ops as [|[fs k] ops IH]; intros c h Hin.
  - apply has_In. exact Hin.
  - simpl fold_left.
    pose proof (getSvgDataUrl_keeps_empty_key fs c k Hin) as Hstep.
    unfold cacheStep at 2. cbn [fst snd].
    destruct (getSvgDataUrl bound host fs c k) as [[d|e] c1]; cbn [snd] in Hstep;
      apply IH; exact Hstep.
Qed.

End CacheFurther.

(** The bound 1, a cache holding [x]: setting [search] and reading it. *)
Lemma lruSet_then_get_witness :
  JsMap.get (lruSet 1 [(js "x", js "1")] (js "search") (js "2")) (js "search")
  = Some (js "2").
Proof.
  apply (lruSet_then_get 1 [(js "x", js "1")] (js "search") (js "2")). lia.
Defined.

(** A first call on [x] with every file readable, a second with none. *)
Lemma getSvgDataUrl_repeat_witness :
  getSvgDataUrl 2 sampleHost nothingReadable
    [(js "x", js "data:image/svg+xml;base64,")] (js "x")
  = (Returns (js "data:image/svg+xml;base64,"),
     [(js "x", js "data:image/svg+xml;base64,")]).
Proof.
  apply (getSvgDataUrl_repeat 2 sampleHost everyFileReadable JsMap.empty (js "x")
           (js "data:image/svg+xml;base64,")
           [(js "x", js "data:image/svg+xml;base64,")]).
  - lia.
  - reflexivity.
Defined.

(** The empty identifier cached first, then as many inserts as the bound. *)
Lemma empty_key_is_never_evicted_witness :
  JsMap.has
    (fst (fold_left (cacheStep 2 sampleHost)
            (readable [js "a"; js "b"; js "c"])
            ([([], js "v")], [])))
    [] = true.
Proof.
  apply (empty_key_is_never_evicted 2 sampleHost). reflexivity.
Defined.

Lemma firstn_In_mono {A : Type} (x : A) (n m : nat) (l : list A) :
  n <= m -> In x (firstn n l) -> In x (firstn m l).
Proof.
  intros Hle Hin.
  assert (E : firstn n l = firstn n (firstn m l))
    by (rewrite firstn_firstn, Nat.min_l by exact Hle; reflexivity).
  rewrite E in Hin. exact (In_firstn _ _ _ Hin).
Qed.

Lemma firstn_removeKey_In (x k : jsstring) (n : nat) (l : list jsstring) :
  k <> x -> In k (firstn n l) -> In k (firstn n (removeKey x l)).
Proof.
  intros Hne. revert n; induction l as [|y l IH]; intros [|n]; simpl; try tauto.
  intros [-> | Hin].
  - eqb_cases k x; [contradiction | left; reflexivity].
  - eqb_cases y x; simpl.
    + apply (firstn_In_mono k n (S n)); [lia | apply IH; exact Hin].
    + right. apply IH; exact Hin.
Qed.

(** An identifier is among the first [n + 1] of the recency order when
    only [n] accesses came after its own. *)
Lemma distinct_recent (later : list jsstring) (k : jsstring) (earlier : list jsstring) :
  In k (firstn (S (length later)) (distinct (later ++ k :: earlier))).
Proof.
  induction later as [|x later IH].
  - left; reflexivity.
  - cbn [app distinct length]. rewrite firstn_cons.
    eqb_cases x k; [left; assumption|]. right.
    apply firstn_removeKey_In; [congruence | exact IH].
Qed.

Section CacheRetention.
Variable bound : nat.
Variable host : Host.

Lemma cacheFold_inv (ops : list CacheOp) (st : Cache * list jsstring) :
  Forall (fun op => truthy (snd op) = true) ops ->
  cacheInv bound st ->
  cacheInv bound (fold_left (cacheStep bound host) ops st).
Proof.
  revert st; induction ops as [|[fs k] ops IH]; intros st Hops Hinv; simpl.
  - exact Hinv.
  - inversion Hops; subst. apply IH; [assumption|].
    apply (cacheStep_cases bound host st fs k Hinv). assumption.
Qed.

Lemma cacheStep_history (st : Cache * list jsstring) (op : CacheOp) :
  exists now,
    snd (cacheStep bound host st op) = snd st ++ now /\ length now <= 1.
Proof.
  unfold cacheStep.
  destruct (getSvgDataUrl bound host (fst op) (fst st) (snd op)) as [[d|e] c'];
    cbn [snd].
  - exists [snd op]. split; [reflexivity | simpl; lia].
  - exists []. rewrite app_nil_r. split; [reflexivity | simpl; lia].
Qed.

Lemma cacheFold_history (ops : list CacheOp) (st : Cache * list jsstring) :
  exists later,
    snd (fold_left (cacheStep bound host) ops st) = snd st ++ later /\
    length later <= length ops.
Proof.
  revert st; induction ops as [|op ops IH]; intros st; simpl.
  - exists []. rewrite app_nil_r. split; [reflexivity | simpl; lia].
  - destruct (IH (cacheStep bound host st op)) as (later & Heq & Hlen).
    destruct (cacheStep_history st op) as (now & Hnow & Hone).
    exists (now ++ later). rewrite Heq, Hnow, <- app_assoc.
    split; [reflexivity | rewrite length_app; lia].
Qed.

(** X4.  What the cache keeps: after a [getSvgDataUrl] call on a
    non-empty identifier returned, the identifier is still cached after
    any further calls on non-empty identifiers, as long as there are
    fewer of them than the bound. *)
Theorem recently_accessed_stays_cached
    (before after : list CacheOp) (fs : FileSystem) (k d : jsstring) :
  Forall (fun op => truthy (snd op) = true) (before ++ (fs, k) :: after) ->
  fst (getSvgDataUrl bound host fs (fst (cacheRun bound host before)) k)
    = Returns d ->
  length after < bound ->
  JsMap.has (fst (cacheRun bound host (before ++ (fs, k) :: after))) k = true.
Proof.
  intros Hops Hret Hfew.
  apply Forall_app in Hops. destruct Hops as [Hbefore Hrest].
  inversion Hrest as [|? ? Hk Hafter]; subst. simpl in Hk.
  pose proof (cacheRun_inv bound host before Hbefore) as Hinv1.
  unfold cacheRun in *. rewrite fold_left_app. simpl fold_left.
  set (st1 := fold_left (cacheStep bound host) before (JsMap.empty, [])) in *.
  pose proof (cacheStep_cases bound host st1 fs k Hinv1 Hk) as [Hinv2 _].
  cbv zeta in Hinv2.
  assert (Hh2 : snd (cacheStep bound host st1 (fs, k)) = snd st1 ++ [k]).
  { unfold cacheStep. cbn [fst snd].
    destruct (getSvgDataUrl bound host fs (fst st1) k) as [[d'|e] c']; simpl in Hret;
      [reflexivity | discriminate]. }
  set (st2 := cacheStep bound host st1 (fs, k)) in *.
  pose proof (cacheFold_inv after st2 Hafter Hinv2) as (_ & _ & Hrec).
  destruct (cacheFold_history after st2) as (later & Hh3 & Hlen).
  apply has_true. apply in_rev. rewrite Hrec, Hh3, Hh2.
  unfold mostRecent. rewrite <- app_assoc, rev_app_distr, rev_app_distr.
  cbn [rev app]. rewrite <- app_assoc. cbn [app].
  apply (firstn_In_mono k (S (length (rev later))) bound).
  - rewrite length_rev. lia.
  - apply distinct_recent.
Qed.

End CacheRetention.

(** Capacity 2: [x] is accessed, then [search]; [x] is still cached. *)
Lemma recently_accessed_stays_cached_witness :
  JsMap.has
    (fst (cacheRun 2 sampleHost
            (readable [js "a"] ++ (everyFileReadable, js "x")
               :: readable [js "search"])))
    (js "x") = true.
Proof.
  apply (recently_accessed_stays_cached 2 sampleHost (readable [js "a"])
           (readable [js "search"]) everyFileReadable (js "x")
           (js "data:image/svg+xml;base64,")).
  - repeat constructor.
  - reflexivity.
  - simpl; lia.
Defined.

(* ================================================================= *)
(** * Further properties: token scanner *)

Lemma bodyRun_spec (s : jsstring) :
  exists rest,
    s = bodyRun s ++ rest /\ forallb isBody (bodyRun s) = true /\
    endsIdentifier rest = true.
Proof.
  induction s as [|c s (rest & Hs & Hb & He)]; simpl.
  - exists []. repeat split.
  - destruct (isBody c) eqn:Hc.
    + exists rest. simpl. rewrite Hc. repeat split; [congruence | assumption..].
    + exists (c :: s). simpl. rewrite Hc. repeat split.
Qed.

(** A match at the start of [s]: the marker, a non-empty run of class
    characters, and a rest that does not continue the run. *)
Lemma matchHere_spec (s body : jsstring) :
  matchHere s = Some body ->
  body <> [] /\ forallb isBody body = true /\
  exists rest, s = js "ti ti-" ++ body ++ rest /\ endsIdentifier rest = true.
Proof.
  unfold matchHere. destruct (startsWith s (js "ti ti-")) eqn:Hs; [|discriminate].
  apply startsWith_app in Hs. destruct Hs as [tail ->].
  change (skipn 6 (js "ti ti-" ++ tail)) with tail.
  destruct (bodyRun_spec tail) as (rest & Ht & Hb & He).
  destruct (bodyRun tail) as [|c b] eqn:Hrun; [discriminate|].
  intros H; injection H as <-.
  split; [discriminate|]. split; [exact Hb|].
  exists rest. split; [rewrite Ht at 1; reflexivity | exact He].
Qed.

Lemma matchHere_nil : matchHere [] = None.
Proof. reflexivity. Qed.

Lemma searchFrom_spec (s : jsstring) (i : nat) (m : RegExpExecArray) :
  searchFrom s i = Some m ->
  exists n,
    index m = i + n /\
    matchHere (skipn n s) = Some (group1 m) /\
    match0 m = js "ti ti-" ++ group1 m /\
    (forall n', n' < n -> matchHere (skipn n' s) = None).
Proof.
  revert i; induction s as [|c s IH]; intros i; simpl searchFrom.
  - discriminate.
  - destruct (matchHere (c :: s)) as [body|] eqn:Hm.
    + intros H; injection H as <-. exists 0. cbn [index group1 match0 skipn].
      repeat split; [lia | exact Hm | intros n' Hn'; lia].
    + intros H. destruct (IH _ H) as (n & Hi & Hn & H0 & Hbefore).
      exists (S n). repeat split; [lia | exact Hn | exact H0 |].
      intros [|n'] Hlt; [exact Hm | apply Hbefore; lia].
Qed.

Lemma searchFrom_None_spec (s : jsstring) (i : nat) :
  searchFrom s i = None -> forall n, matchHere (skipn n s) = None.
Proof.
  revert i; induction s as [|c s IH]; intros i; simpl searchFrom.
  - intros _ n. rewrite skipn_nil. reflexivity.
  - destruct (matchHere (c :: s)) as [body|] eqn:Hm; [discriminate|].
    intros H [|n]; [exact Hm | apply (IH _ H)].
Qed.

(** The loop collects a leftmost, non-overlapping scan. *)
Lemma execLoop_leftmost (text : jsstring) (fuel lastIndex : nat)
    (acc ms : list RegExpExecArray) (lastIndex' : nat) :
  execLoop (fun l m => l ++ [m]) fuel text lastIndex acc = Some (ms, lastIndex') ->
  exists found, ms = acc ++ found /\ leftmostFrom text lastIndex found.
Proof.
  revert lastIndex acc; induction fuel as [|fuel IH]; intros li acc; simpl;
    [discriminate|].
  unfold regex_exec. destruct (length text <? li) eqn:Hlen.
  - intros H; injection H as <- _. exists []. rewrite app_nil_r.
    split; [reflexivity|]. simpl. intros p Hp. apply Nat.ltb_lt in Hlen.
    rewrite skipn_all2 by lia. reflexivity.
  - destruct (searchFrom (skipn li text) li) as [m|] eqn:Hs.
    + intros H. destruct (IH _ _ H) as (found & -> & Hrest).
      exists (m :: found). rewrite <- app_assoc. split; [reflexivity|].
      destruct (searchFrom_spec _ _ _ Hs) as (n & Hi & Hm & H0 & Hbefore).
      rewrite skipn_skipn in Hm. cbn [leftmostFrom].
      split; [lia|]. split.
      { intros p Hp1 Hp2. specialize (Hbefore (p - li)).
        rewrite skipn_skipn in Hbefore.
        replace (p - li + li) with p in Hbefore by lia. apply Hbefore. lia. }
      split; [replace (index m) with (n + li) by lia; exact Hm|].
      split; [exact H0 | exact Hrest].
    + intros H; injection H as <- _. exists []. rewrite app_nil_r.
      split; [reflexivity|]. simpl. intros p Hp.
      pose proof (searchFrom_None_spec _ _ Hs (p - li)) as Hn.
      rewrite skipn_skipn in Hn. replace (p - li + li) with p in Hn by lia.
      exact Hn.
Qed.

Lemma scanMatches_leftmost (text : jsstring) :
  exists ms, scanMatches text = Some ms /\ leftmostFrom text 0 ms.
Proof.
  destruct (scanMatches_total text) as [ms Hms]. exists ms. split; [exact Hms|].
  unfold scanMatches in Hms.
  destruct (execLoop (fun l m => l ++ [m]) (lineFuel text) text 0 [])
    as [[ms' li']|] eqn:He; [|discriminate].
  injection Hms as ->.
  destruct (execLoop_leftmost _ _ _ _ _ _ He) as (found & -> & Hl). exact Hl.
Qed.

Lemma leftmostFrom_starts (text : jsstring) (li : nat) (ms : list RegExpExecArray) :
  leftmostFrom text li ms -> Forall (fun m => li <= index m) ms.
Proof.
  revert li; induction ms as [|m ms IH]; intros li; simpl; [constructor|].
  intros (Hli & _ & _ & _ & Hrest). constructor; [exact Hli|].
  apply IH in Hrest. revert Hrest. apply Forall_impl. intros m'; lia.
Qed.

Lemma leftmostFrom_matches (text : jsstring) (li : nat) (ms : list RegExpExecArray) :
  leftmostFrom text li ms ->
  Forall (fun m => matchHere (skipn (index m) text) = Some (group1 m) /\
                   match0 m = js "ti ti-" ++ group1 m) ms.
Proof.
  revert li; induction ms as [|m ms IH]; intros li; simpl; [constructor|].
  intros (_ & _ & Hm & H0 & Hrest). constructor; [tauto | eapply IH; eauto].
Qed.

Lemma leftmostFrom_covers (text : jsstring) (li : nat) (ms : list RegExpExecArray) :
  leftmostFrom text li ms ->
  forall p body, li <= p -> matchHere (skipn p text) = Some body ->
    exists m, In m ms /\ index m <= p /\ p < index m + length (match0 m).
Proof.
  revert li; induction ms as [|m ms IH]; intros li; simpl.
  - intros Hnone p body Hp Hm. rewrite (Hnone p Hp) in Hm. discriminate.
  - intros (Hli & Hbefore & _ & _ & Hrest) p body Hp Hm.
    destruct (Nat.lt_ge_cases p (index m)) as [Hlt | Hge].
    + rewrite (Hbefore p Hp Hlt) in Hm. discriminate.
    + destruct (Nat.lt_ge_cases p (index m + length (match0 m))) as [Hin | Hout].
      * exists m. split; [left; reflexivity | lia].
      * destruct (IH _ Hrest p body Hout Hm) as (m' & Hin' & Hb).
        exists m'. split; [right; exact Hin' | exact Hb].
Qed.

(** X5.  Every span the scanner reports is a token of the line: it lies
    within the line, the text it covers is [ti ti-] followed by the span's
    identifier, the identifier is a non-empty run of lowercase letters,
    digits and hyphens, and the run is maximal. *)
Theorem scan_reports_tokens (lineNo : nat) (text : jsstring) :
  exists spans,
    scanLine lineNo text = Some spans /\
    Forall (fun sp =>
              span_line sp = lineNo /\
              span_end sp <= length text /\
              covered text sp = js "ti ti-" ++ span_icon sp /\
              span_icon sp <> [] /\
              forallb isBody (span_icon sp) = true /\
              endsIdentifier (skipn (span_end sp) text) = true) spans.
Proof.
  destruct (scanMatches_leftmost text) as (ms & Hms & Hl).
  exists (map (spanOf lineNo) ms). unfold scanLine. rewrite Hms.
  split; [reflexivity|]. apply Forall_map.
  apply leftmostFrom_matches in Hl. revert Hl. apply Forall_impl.
  intros m [Hm H0]. unfold spanOf, rangeOf, iconNameOf, covered, substring.
  cbn [span_line span_start span_end span_icon start end_ line character].
  destruct (matchHere_spec _ _ Hm) as (Hne & Hb & rest & Hs & He).
  assert (Hlen : length (skipn (index m) text) =
                 length (match0 m) + length rest).
  { rewrite Hs, H0, !length_app. lia. }
  rewrite length_skipn in Hlen.
  assert (Hpos : 0 < length (match0 m)) by (rewrite H0; simpl; lia).
  repeat split.
  - lia.
  - replace (index m + length (match0 m) - index m) with (length (match0 m)) by lia.
    rewrite Hs, <- H0.
    change (js "ti ti-" ++ group1 m ++ rest) with ((js "ti ti-" ++ group1 m) ++ rest).
    rewrite <- H0. apply firstn_prefix.
  - exact Hne.
  - exact Hb.
  - rewrite Nat.add_comm, <- skipn_skipn, Hs.
    change (js "ti ti-" ++ group1 m ++ rest) with ((js "ti ti-" ++ group1 m) ++ rest).
    rewrite <- H0, skipn_prefix. exact He.
Qed.

(** X6.  The spans of a line come in order and do not overlap: a span
    reported later starts at or after the end of every span reported
    before it. *)
Theorem scan_spans_in_order (lineNo : nat) (text : jsstring) :
  exists spans,
    scanLine lineNo text = Some spans /\
    forall i j a b,
      i < j -> nth_error spans i = Some a -> nth_error spans j = Some b ->
      span_end a <= span_start b /\ spansOverlap a b = false.
Proof.
  destruct (scanMatches_leftmost text) as (ms & Hms & Hl).
  exists (map (spanOf lineNo) ms). unfold scanLine. rewrite Hms.
  split; [reflexivity|].
  assert (Hord : forall li ms, leftmostFrom text li ms ->
            forall i j ma mb, i < j ->
              nth_error ms i = Some ma -> nth_error ms j = Some mb ->
              index ma + length (match0 ma) <= index mb).
  { clear. intros li ms; revert li; induction ms as [|m ms IH]; intros li Hl i j ma mb Hij.
    - destruct i; discriminate.
    - simpl in Hl. destruct Hl as (_ & _ & _ & _ & Hrest).
      destruct j as [|j]; [lia|]. destruct i as [|i]; simpl.
      + intros H; injection H as <-. intros Hj. apply nth_error_In in Hj.
        pose proof (leftmostFrom_starts _ _ _ Hrest) as Hs.
        rewrite Forall_forall in Hs. apply Hs. exact Hj.
      + apply (IH _ Hrest); lia. }
  intros i j a b Hij Ha Hb.
  rewrite nth_error_map in Ha, Hb.
  destruct (nth_error ms i) as [ma|] eqn:Hma; [|discriminate].
  destruct (nth_error ms j) as [mb|] eqn:Hmb; [|discriminate].
  injection Ha as <-. injection Hb as <-.
  pose proof (Hord 0 ms Hl i j ma mb Hij Hma Hmb) as Hle.
  unfold spanOf, rangeOf, spansOverlap.
  cbn [span_line span_start span_end start end_ line character].
  split; [exact Hle|].
  rewrite Nat.eqb_refl. cbn [andb].
  replace (index mb <? index ma + length (match0 ma)) with false
    by (symmetry; apply Nat.ltb_ge; exact Hle).
  apply andb_false_r.
Qed.

(** X7.  The scanner misses no token: every position of the line at which
    the pattern matches is the start of a reported span or lies inside
    one. *)
Theorem scan_misses_nothing (lineNo : nat) (text : jsstring) :
  exists spans,
    scanLine lineNo text = Some spans /\
    forall p body,
      matchHere (skipn p text) = Some body ->
      exists sp, In sp spans /\ span_start sp <= p /\ p < span_end sp.
Proof.
  destruct (scanMatches_leftmost text) as (ms & Hms & Hl).
  exists (map (spanOf lineNo) ms). unfold scanLine. rewrite Hms.
  split; [reflexivity|]. intros p body Hm.
  destruct (leftmostFrom_covers _ _ _ Hl p body (Nat.le_0_l p) Hm)
    as (m & Hin & Hlo & Hhi).
  exists (spanOf lineNo m). split; [apply in_map; exact Hin|].
  unfold spanOf, rangeOf.
  cbn [span_start span_end start end_ line character]. lia.
Qed.

(* ================================================================= *)
(** * Further properties: decoration registry *)

Lemma wf_snoc_any {V : Type} (m : JsMap.t V) (k : jsstring) (v : V) :
  JsMap.wf m -> ~ In k (JsMap.keys m) -> JsMap.wf (m ++ [(k, v)]).
Proof.
  unfold JsMap.wf. intros Hwf Hk. rewrite keys_snoc.
  apply NoDup_app; [exact Hwf | repeat constructor; simpl; tauto|].
  intros a Ha [<- | []]. contradiction.
Qed.

Lemma get_snoc {V : Type} (m : JsMap.t V) (k k' : jsstring) (v : V) :
  JsMap.get (m ++ [(k, v)]) k' =
  match JsMap.get m k' with
  | Some x => Some x
  | None => if jsstring_eqb k k' then Some v else None
  end.
Proof.
  induction m as [|[k0 v0] m IH]; simpl; [reflexivity|].
  destruct (jsstring_eqb k0 k'); [reflexivity | exact IH].
Qed.

Lemma NoDup_map_inj {A B : Type} (f : A -> B) (l : list A) (x y : A) :
  NoDup (map f l) -> In x l -> In y l -> f x = f y -> x = y.
Proof.
  induction l as [|a l IH]; simpl; [tauto|].
  intros Hnd Hx Hy Hf. inversion Hnd as [|? ? Hnotin Hnd']; subst.
  destruct Hx as [-> | Hx], Hy as [-> | Hy]; auto.
  - exfalso. apply Hnotin. rewrite Hf. apply in_map; exact Hy.
  - exfalso. apply Hnotin. rewrite <- Hf. apply in_map; exact Hx.
Qed.

Section RegistryFurther.
Variable host : Host.

(** A request for an identifier without a handle creates the handle with
    the next key of the window, bound to the identifier's asset, and
    registers it as the newest entry. *)
Lemma getDecorationForIcon_new r name :
  JsMap.get (decorationCache r) name = None ->
  exists deco,
    getDecorationForIcon host r name =
      (deco, {| decorationCache := decorationCache r ++ [(name, deco)];
                created := created r ++ [deco] |}) /\
    key deco = length (created r) /\
    gutterIconPath (options deco) = iconUriOf host name /\
    before_contentIconPath (options deco) = iconUriOf host name.
Proof.
  intros Hg. unfold getDecorationForIcon. rewrite Hg.
  unfold createTextEditorDecorationType. cbv zeta. cbn [decorationCache created].
  eexists. split.
  - rewrite set_absent by (apply get_None; exact Hg). reflexivity.
  - repeat split.
Qed.

Lemma getDecorationForIcon_keeps_regOK r name deco r' :
  getDecorationForIcon host r name = (deco, r') -> regOK r -> regOK r'.
Proof.
  intros Hcall (Hwf & Hkeys & Hlt & Hseq).
  destruct (JsMap.get (decorationCache r) name) as [cached|] eqn:Hg.
  - unfold getDecorationForIcon in Hcall. rewrite Hg in Hcall.
    injection Hcall as <- <-. repeat split; assumption.
  - destruct (getDecorationForIcon_new r name Hg) as (d & Hnew & Hkey & _).
    rewrite Hnew in Hcall. injection Hcall as <- <-.
    unfold regOK. cbn [decorationCache created].
    split; [apply wf_snoc_any; [exact Hwf | apply get_None; exact Hg]|].
    unfold JsMap.values. rewrite !map_app, length_app. cbn [map length snd].
    split; [|split].
    + apply NoDup_app; [exact Hkeys | repeat constructor; simpl; tauto|].
      intros k Hk [<- | []]. rewrite Forall_forall in Hlt.
      apply in_map_iff in Hk. destruct Hk as (d0 & Hk0 & Hd0).
      specialize (Hlt d0 Hd0). lia.
    + apply Forall_app. split.
      * revert Hlt. apply Forall_impl. intros; lia.
      * constructor; [lia | constructor].
    + rewrite Hseq, Hkey. replace (length (created r) + 1)
        with (S (length (created r))) by lia.
      rewrite seq_S. reflexivity.
Qed.

Lemma getDecorationForIcon_regOK r name deco r' :
  getDecorationForIcon host r name = (deco, r') ->
  regOK r -> boundToAssets host r ->
  regOK r' /\ boundToAssets host r'.
Proof.
  intros Hcall Hok Hbound.
  split; [exact (getDecorationForIcon_keeps_regOK _ _ _ _ Hcall Hok)|].
  destruct (JsMap.get (decorationCache r) name) as [cached|] eqn:Hg.
  - unfold getDecorationForIcon in Hcall. rewrite Hg in Hcall.
    injection Hcall as <- <-. exact Hbound.
  - destruct (getDecorationForIcon_new r name Hg) as (d & Hnew & Hkey & Hp1 & Hp2).
    rewrite Hnew in Hcall. injection Hcall as <- <-.
    intros n d0. cbn [decorationCache]. rewrite get_snoc.
    destruct (JsMap.get (decorationCache r) n) as [x|] eqn:Hn.
    + intros H; injection H as <-. apply Hbound. exact Hn.
    + eqb_cases name n; [|discriminate].
      intros H; injection H as <-. subst n. split; assumption.
Qed.

Lemma getDecorations_regOK names r decos r' :
  getDecorations host r names = (decos, r') ->
  regOK r -> boundToAssets host r ->
  regOK r' /\ boundToAssets host r'.
Proof.
  revert r decos r'; induction names as [|n names IH]; intros r decos r'; simpl.
  - intros H; injection H as <- <-. tauto.
  - destruct (getDecorationForIcon host r n) as [deco r1] eqn:H1.
    destruct (getDecorations host r1 names) as [ds r2] eqn:H2.
    intros H; injection H as <- <-. intros Hok Hb.
    destruct (getDecorationForIcon_regOK _ _ _ _ H1 Hok Hb) as [Hok1 Hb1].
    exact (IH _ _ _ H2 Hok1 Hb1).
Qed.

Lemma regOK_initial : regOK initialRegistry /\ boundToAssets host initialRegistry.
Proof.
  split.
  - repeat split; simpl; constructor.
  - intros n d H. discriminate.
Qed.

(** In a registry whose handles have keys of their own, a key tells the
    identifier. *)
Lemma regOK_key_inj r name name' deco deco' :
  regOK r ->
  JsMap.get (decorationCache r) name = Some deco ->
  JsMap.get (decorationCache r) name' = Some deco' ->
  key deco = key deco' -> name = name'.
Proof.
  intros (_ & Hkeys & _) Hg Hg' Hk.
  apply get_In in Hg. apply get_In in Hg'.
  unfold JsMap.values in Hkeys. rewrite map_map in Hkeys.
  pose proof (NoDup_map_inj (fun e => key (snd e)) _ _ _ Hkeys Hg Hg' Hk) as E.
  congruence.
Qed.

(** X8.  Over any sequence of [getDecorationForIcon] calls from the start
    of the process, the handle returned for an identifier is bound to that
    identifier's asset, [media/icons/<identifier>.svg], both as gutter
    icon and as inline icon, and calls with different identifiers return
    handles with different keys. *)
Theorem handles_follow_identifiers (names : list jsstring) :
  let decos := fst (getDecorations host initialRegistry names) in
  forall i j ni nj di dj,
    nth_error names i = Some ni -> nth_error decos i = Some di ->
    nth_error names j = Some nj -> nth_error decos j = Some dj ->
    gutterIconPath (options di) = iconUriOf host ni /\
    before_contentIconPath (options di) = iconUriOf host ni /\
    gutterIconSize (options di) = js "18px" /\
    (ni <> nj -> key di <> key dj).
Proof.
  destruct (getDecorations host initialRegistry names) as [decos r] eqn:Hrun.
  cbn [fst]. intros i j ni nj di dj Hni Hdi Hnj Hdj.
  destruct regOK_initial as [Hok0 Hb0].
  destruct (getDecorations_regOK _ _ _ _ Hrun Hok0 Hb0) as [Hok Hb].
  destruct (getDecorations_returns host names _ _ _ Hrun i ni Hni) as (d & Hd & Hg).
  destruct (getDecorations_returns host names _ _ _ Hrun j nj Hnj) as (d' & Hd' & Hg').
  assert (d = di) by congruence. assert (d' = dj) by congruence. subst d d'.
  destruct (Hb _ _ Hg) as [Hp1 Hp2].
  split; [exact Hp1|]. split; [exact Hp2|]. split.
  - clear - Hrun Hg. revert Hg.
    assert (Hstyle : forall names r decos r',
              getDecorations host r names = (decos, r') ->
              Forall (fun d => gutterIconSize (options d) = js "18px")
                (JsMap.values (decorationCache r)) ->
              Forall (fun d => gutterIconSize (options d) = js "18px")
                (JsMap.values (decorationCache r'))).
    { clear. induction names as [|n names IH]; intros r decos r'; simpl.
      - intros H; injection H as <- <-. tauto.
      - destruct (getDecorationForIcon host r n) as [deco r1] eqn:H1.
        destruct (getDecorations host r1 names) as [ds r2] eqn:H2.
        intros H; injection H as <- <-. intros Hall. apply (IH _ _ _ H2).
        unfold getDecorationForIcon in H1.
        destruct (JsMap.get (decorationCache r) n) as [cached|] eqn:Hg.
        + injection H1 as <- <-. exact Hall.
        + unfold createTextEditorDecorationType in H1. cbv zeta in H1.
          cbn [decorationCache created] in H1. injection H1 as <- <-.
          cbn [decorationCache].
          rewrite set_absent by (apply get_None; exact Hg).
          unfold JsMap.values. rewrite map_app. apply Forall_app.
          split; [exact Hall | repeat constructor]. }
    intros Hg. specialize (Hstyle _ _ _ _ Hrun (Forall_nil _)).
    rewrite Forall_forall in Hstyle. apply Hstyle.
    apply get_In in Hg. apply (in_map snd) in Hg. exact Hg.
  - intros Hne Hk. apply Hne. exact (regOK_key_inj r ni nj di dj Hok Hg Hg' Hk).
Qed.

(** X9.  [deactivate] after any sequence of [getDecorationForIcon] calls
    from the start of the process disposes every decoration type the
    extension created, each once, and empties the registry; a later
    request for any identifier, also one that had a handle, creates a new
    decoration type, which is none of the disposed ones. *)
Theorem deactivate_disposes_all (names : list jsstring) (name : jsstring) :
  let r := snd (getDecorations host initialRegistry names) in
  let disposed := fst (deactivate r) in
  let r' := snd (deactivate r) in
  disposed = created r /\
  NoDup (map key disposed) /\
  length disposed = length (distinct names) /\
  JsMap.size (decorationCache r') = 0 /\
  (forall n, JsMap.has (decorationCache r') n = false) /\
  ~ In (key (fst (getDecorationForIcon host r' name))) (map key disposed) /\
  created (snd (getDecorationForIcon host r' name)) =
    created r ++ [fst (getDecorationForIcon host r' name)].
Proof.
  destruct (getDecorations host initialRegistry names) as [decos r] eqn:Hrun.
  cbn [fst snd deactivate].
  destruct regOK_initial as [Hok0 Hb0].
  destruct (getDecorations_regOK _ _ _ _ Hrun Hok0 Hb0) as [(Hwf & Hkeys & Hlt & Hseq) _].
  destruct (getDecorations_registry host names _ _ _ Hrun) as (W & Vs & K);
    [constructor | reflexivity |].
  split; [exact Vs|]. split; [exact Hkeys|]. split.
  { unfold JsMap.values. rewrite length_map.
    rewrite <- (length_map fst). fold (JsMap.keys (decorationCache r)).
    apply NoDup_same_length; [exact W | apply distinct_NoDup|].
    intros x. rewrite K, distinct_In. simpl. tauto. }
  split; [reflexivity|]. split; [reflexivity|].
  destruct (getDecorationForIcon_new
              {| decorationCache := JsMap.empty; created := created r |} name eq_refl)
    as (d & Hnew & Hkey & _).
  rewrite Hnew. cbn [fst snd created] in *. split; [|reflexivity].
  rewrite Vs, Hseq, Hkey, in_seq. lia.
Qed.

End RegistryFurther.

(** The handles of [x] and [search], requested in this order. *)
Lemma handles_follow_identifiers_witness :
  exists di dj,
    nth_error (fst (getDecorations sampleHost initialRegistry
                      [js "x"; js "search"])) 0 = Some di /\
    nth_error (fst (getDecorations sampleHost initialRegistry
                      [js "x"; js "search"])) 1 = Some dj /\
    gutterIconPath (options di) = iconUriOf sampleHost (js "x") /\
    key di <> key dj.
Proof.
  eexists. eexists. split; [reflexivity|]. split; [reflexivity|].
  destruct (handles_follow_identifiers sampleHost [js "x"; js "search"]
              0 1 (js "x") (js "search") _ _ eq_refl eq_refl eq_refl eq_refl)
    as (Hp & _ & _ & Hk).
  split; [exact Hp | apply Hk; discriminate].
Defined.

(* ================================================================= *)
(** * Further properties: decoration updater *)

Lemma wf_set {V : Type} (m : JsMap.t V) (k : jsstring) (v : V) :
  JsMap.wf m -> JsMap.wf (JsMap.set m k v).
Proof.
  intros Hwf. destruct (JsMap.get m k) as [x|] eqn:Hg.
  - unfold JsMap.wf. rewrite keys_set_present; [exact Hwf|].
    apply get_In in Hg. apply (in_map fst) in Hg. exact Hg.
  - apply get_None in Hg. rewrite set_absent by exact Hg.
    apply wf_snoc_any; assumption.
Qed.

(** The loop body appends the range of a match to the entry of the
    match's identifier and touches no other entry. *)
Lemma recordMatch_rangesIn (lineNo : nat) (g : RangesByIcon)
    (m : RegExpExecArray) (icon : jsstring) :
  rangesIn (recordMatch lineNo g m) icon =
  rangesIn g icon ++ lineRanges icon lineNo [m].
Proof.
  unfold recordMatch, rangesIn, lineRanges. cbn [filter].
  destruct (JsMap.has g (iconNameOf m)) eqn:Hh; cbn [negb].
  - unfold JsMap.has in Hh.
    destruct (JsMap.get g (iconNameOf m)) as [rs|] eqn:Hg; [|discriminate].
    eqb_cases (iconNameOf m) icon.
    + subst icon. rewrite get_set_same, Hg. reflexivity.
    + rewrite get_set_other by congruence. cbn [map]. rewrite app_nil_r.
      reflexivity.
  - rewrite get_set_same.
    unfold JsMap.has in Hh.
    destruct (JsMap.get g (iconNameOf m)) as [rs|] eqn:Hg; [discriminate|].
    eqb_cases (iconNameOf m) icon.
    + subst icon. rewrite get_set_same, Hg. reflexivity.
    + rewrite !get_set_other by congruence. cbn [map]. rewrite app_nil_r.
      reflexivity.
Qed.

(** The loop body keeps every entry non-empty and every key single. *)
Lemma recordMatch_keeps (lineNo : nat) (g : RangesByIcon) (m : RegExpExecArray) :
  JsMap.wf g /\ (forall icon, JsMap.get g icon <> Some []) ->
  JsMap.wf (recordMatch lineNo g m) /\
  (forall icon, JsMap.get (recordMatch lineNo g m) icon <> Some []).
Proof.
  intros [Hwf Hne]. split.
  - unfold recordMatch.
    destruct (negb (JsMap.has g (iconNameOf m)));
      destruct (JsMap.get _ (iconNameOf m)); repeat apply wf_set; exact Hwf.
  - intros icon Hg.
    pose proof (recordMatch_rangesIn lineNo g m icon) as Hr.
    unfold rangesIn at 1 in Hr. rewrite Hg in Hr.
    unfold lineRanges in Hr. cbn [filter] in Hr.
    eqb_cases (iconNameOf m) icon.
    + cbn [map] in Hr. destruct (rangesIn g icon); discriminate.
    + cbn [map] in Hr. rewrite app_nil_r in Hr.
      unfold recordMatch in Hg.
      assert (Hsame : JsMap.get g icon = Some []).
      { destruct (JsMap.has g (iconNameOf m)) eqn:Hh; cbn [negb] in Hg.
        - destruct (JsMap.get g (iconNameOf m)); [|exact Hg].
          rewrite get_set_other in Hg by congruence. exact Hg.
        - rewrite get_set_same in Hg.
          rewrite !get_set_other in Hg by congruence. exact Hg. }
      exact (Hne icon Hsame).
Qed.

Lemma lineRanges_app (icon : jsstring) (lineNo : nat) (ms ms' : list RegExpExecArray) :
  lineRanges icon lineNo (ms ++ ms') =
  lineRanges icon lineNo ms ++ lineRanges icon lineNo ms'.
Proof. unfold lineRanges. rewrite filter_app, map_app. reflexivity. Qed.

Lemma recordMatches_rangesIn (lineNo : nat) (ms : list RegExpExecArray)
    (g : RangesByIcon) :
  JsMap.wf g /\ (forall icon, JsMap.get g icon <> Some []) ->
  (JsMap.wf (fold_left (recordMatch lineNo) ms g) /\
   (forall icon, JsMap.get (fold_left (recordMatch lineNo) ms g) icon <> Some [])) /\
  (forall icon,
     rangesIn (fold_left (recordMatch lineNo) ms g) icon =
     rangesIn g icon ++ lineRanges icon lineNo ms).
Proof.
  revert g; induction ms as [|m ms IH]; intros g Hg; simpl.
  - split; [exact Hg|]. intros icon. unfold lineRanges. simpl.
    rewrite app_nil_r. reflexivity.
  - destruct (IH _ (recordMatch_keeps lineNo g m Hg)) as [Hk Hr].
    split; [exact Hk|]. intros icon.
    rewrite Hr, recordMatch_rangesIn, <- app_assoc.
    rewrite <- lineRanges_app. reflexivity.
Qed.

Lemma scanLines_rangesIn (ls : list jsstring) (lineNo : nat) (g : RangesByIcon) :
  JsMap.wf g /\ (forall icon, JsMap.get g icon <> Some []) ->
  exists g' mss,
    scanLines lineNo ls 0 g = Some (g', 0) /\
    Forall2 (fun text ms => scanMatches text = Some ms) ls mss /\
    (JsMap.wf g' /\ (forall icon, JsMap.get g' icon <> Some [])) /\
    (forall icon,
       rangesIn g' icon = rangesIn g icon ++ documentRanges icon lineNo mss).
Proof.
  revert lineNo g; induction ls as [|text ls IH]; intros lineNo g Hg;
    cbn [scanLines].
  - exists g, []. split; [reflexivity|]. split; [constructor|].
    split; [exact Hg|]. intros icon. simpl. rewrite app_nil_r. reflexivity.
  - destruct (scanMatches_total text) as [ms Hms].
    rewrite (line_loop_scans lineNo text g ms Hms).
    destruct (recordMatches_rangesIn lineNo ms g Hg) as [Hk Hr].
    destruct (IH (S lineNo) _ Hk) as (g' & mss & Hrun & Hall & Hk' & Hr').
    exists g', (ms :: mss). split; [exact Hrun|].
    split; [constructor; assumption|]. split; [exact Hk'|].
    intros icon. rewrite Hr', Hr, <- app_assoc. reflexivity.
Qed.

Lemma groupRanges_spec (doc : TextDocument) :
  exists g mss,
    groupRanges doc = Some g /\
    Forall2 (fun text ms => scanMatches text = Some ms) (lines doc) mss /\
    JsMap.wf g /\
    (forall icon, JsMap.get g icon = groupEntry (documentRanges icon 0 mss)).
Proof.
  destruct (scanLines_rangesIn (lines doc) 0 JsMap.empty) as
    (g & mss & Hrun & Hall & [Hwf Hne] & Hr).
  { split; [constructor | intros icon; discriminate]. }
  exists g, mss. unfold groupRanges. rewrite Hrun.
  split; [reflexivity|]. split; [exact Hall|]. split; [exact Hwf|].
  intros icon. specialize (Hr icon). unfold rangesIn in Hr. simpl in Hr.
  rewrite <- Hr. destruct (JsMap.get g icon) as [[|x rs]|] eqn:Hg;
    [exfalso; exact (Hne icon Hg) | reflexivity | reflexivity].
Qed.

(** X10.  The grouping of a document holds, for each identifier, exactly
    the ranges of the spans the token scanner reports for it on the
    document's lines, in document order, each on its line; an identifier
    without a span has no entry, and no identifier has two. *)
Theorem grouping_collects_spans (doc : TextDocument) :
  exists g mss,
    groupRanges doc = Some g /\
    Forall2 (fun text ms => scanMatches text = Some ms) (lines doc) mss /\
    JsMap.wf g /\
    (forall icon, JsMap.get g icon = groupEntry (documentRanges icon 0 mss)) /\
    (forall icon, JsMap.has g icon = true <->
                  exists ms m, In ms mss /\ In m ms /\ iconNameOf m = icon).
Proof.
  destruct (groupRanges_spec doc) as (g & mss & Hg & Hall & Hwf & Hget).
  exists g, mss. repeat split; try assumption.
  - unfold JsMap.has. rewrite Hget. clear.
    generalize 0 as lineNo. induction mss as [|ms mss IH]; intros lineNo; simpl.
    + discriminate.
    + destruct (lineRanges icon lineNo ms) as [|x xs] eqn:Hl.
      * simpl. intros H. destruct (IH _ H) as (ms' & m & Hin & Hm & Hi).
        exists ms', m. tauto.
      * intros _. assert (Hx : In x (lineRanges icon lineNo ms))
          by (rewrite Hl; left; reflexivity).
        unfold lineRanges in Hx. apply in_map_iff in Hx.
        destruct Hx as (m & _ & Hm). apply filter_In in Hm.
        destruct Hm as [Hm Heq]. apply jsstring_eqb_eq in Heq.
        exists ms, m. tauto.
  - unfold JsMap.has. rewrite Hget. intros (ms & m & Hin & Hm & Hi).
    assert (Hne : documentRanges icon 0 mss <> []).
    { clear - Hin Hm Hi. generalize 0 as lineNo.
      induction mss as [|ms' mss IH]; intros lineNo; simpl; [contradiction|].
      destruct Hin as [-> | Hin].
      - assert (Hx : In {| range := rangeOf lineNo m |} (lineRanges icon lineNo ms)).
        { unfold lineRanges.
          apply (in_map (fun m0 => {| range := rangeOf lineNo m0 |})).
          apply filter_In.
          split; [exact Hm | apply jsstring_eqb_eq; exact Hi]. }
        destruct (lineRanges icon lineNo ms); [contradiction | discriminate].
      - intros H. apply app_eq_nil in H. destruct H as [_ H].
        exact (IH Hin _ H). }
    destruct (documentRanges icon 0 mss); [congruence | reflexivity].
Qed.

Lemma showAfter_unique (k : nat) (calls : list Applied)
    (shown ranges : list DecorationOptions) :
  touches k calls = true ->
  (forall call, In call calls -> key (fst call) = k -> snd call = ranges) ->
  showAfter k calls shown = ranges.
Proof.
  revert shown; induction calls as [|[d rs] calls IH]; intros shown; simpl;
    [discriminate|].
  intros Ht Hall. unfold showAfter; simpl.
  destruct (touches k calls) eqn:Hrest.
  - apply IH; [reflexivity | intros call Hin; apply Hall; right; exact Hin].
  - change (showAfter k calls (if key d =? k then rs else shown) = ranges).
    rewrite (showAfter_untouched k calls _ Hrest).
    destruct (key d =? k) eqn:Hd; [|discriminate].
    apply Nat.eqb_eq in Hd. apply (Hall (d, rs)); [left; reflexivity | exact Hd].
Qed.

Lemma in_applyingCalls_inv (r : Registry)
    (entries : list (jsstring * list DecorationOptions))
    (deco : TextEditorDecorationType) (ranges : list DecorationOptions) :
  In (deco, ranges) (applyingCalls r entries) ->
  exists icon, In (icon, ranges) entries /\
               JsMap.get (decorationCache r) icon = Some deco.
Proof.
  unfold applyingCalls. rewrite in_flat_map. intros ([icon rs] & Hin & Hcall).
  cbn [fst snd] in Hcall.
  destruct (JsMap.get (decorationCache r) icon) as [d|] eqn:Hg; [|contradiction].
  destruct Hcall as [H | []]. injection H as -> ->. exists icon. tauto.
Qed.

Section UpdaterFurther.
Variable host : Host.

Lemma applyRanges_keeps_regOK entries r e r' e' :
  applyRanges host entries r e = (r', e') -> regOK r -> regOK r'.
Proof.
  revert r e; induction entries as [|[icon ranges] rest IH]; intros r e; simpl.
  - intros H; injection H as <- <-. tauto.
  - destruct (getDecorationForIcon host r icon) as [deco r1] eqn:H1.
    intros H Hok. apply (IH _ _ H).
    exact (getDecorationForIcon_keeps_regOK host _ _ _ _ H1 Hok).
Qed.

(** X11.  In a supported language, after an update pass every handle of
    the registry shows exactly the current ranges of its identifier: the
    ranges the grouping holds for it, and nothing when the identifier no
    longer occurs in the document, whatever the editor showed before.
    Every identifier of the grouping has a handle afterwards. *)
Theorem update_shows_current_spans (r : Registry) (editor : TextEditor) :
  regOK r ->
  array_includes allowed (languageId (document editor)) = true ->
  exists g r1 e1,
    groupRanges (document editor) = Some g /\
    updateDecorations host r editor = Some (r1, e1) /\
    (forall icon, JsMap.has g icon = true ->
                  JsMap.has (decorationCache r1) icon = true) /\
    (forall icon deco,
        JsMap.get (decorationCache r1) icon = Some deco ->
        rendered e1 (key deco) = rangesIn g icon).
Proof.
  intros Hok Hlang.
  destruct (groupRanges_spec (document editor)) as (g & mss & Hg & _ & Hwf & _).
  destruct (applyRanges host (JsMap.entries g) r (clearDecorations r editor))
    as [r1 e1] eqn:H1.
  exists g, r1, e1. split; [exact Hg|].
  split.
  { unfold updateDecorations. cbv zeta. rewrite Hlang, Hg. cbn [negb]. cbv iota.
    rewrite H1. reflexivity. }
  pose proof (applyRanges_keeps_regOK _ _ _ _ _ H1 Hok) as Hok1.
  destruct (applyRanges_spec host _ _ _ _ _ H1) as (Hext & Hdoc & Happ & Hpres & Hnew).
  rewrite clearDecorations_applied in Happ. cbn [applied] in Happ.
  unfold JsMap.entries in *.
  assert (Hsame : forall icon deco call,
            JsMap.get (decorationCache r1) icon = Some deco ->
            In call (applyingCalls r1 g) -> key (fst call) = key deco ->
            JsMap.get g icon = Some (snd call)).
  { intros icon deco [d' rs'] Hget Hin Hk. cbn [fst snd] in *.
    destruct (in_applyingCalls_inv _ _ _ _ Hin) as (icon' & Hentry & Hget').
    assert (icon' = icon)
      by exact (regOK_key_inj r1 icon' icon d' deco Hok1 Hget' Hget Hk).
    subst icon'. apply get_wf_In; assumption. }
  split.
  - intros icon Hh. unfold JsMap.has in *.
    destruct (JsMap.get g icon) as [rs|] eqn:Hgi; [|discriminate].
    pose proof (Hpres (icon, rs) (get_In _ _ _ Hgi)) as Hp. cbn [fst] in Hp.
    destruct (JsMap.get (decorationCache r1) icon); [reflexivity | congruence].
  - intros icon deco Hget. unfold rendered, rangesIn.
    rewrite Happ, !renderedIn_app.
    destruct (JsMap.get g icon) as [rs|] eqn:Hgi.
    + apply showAfter_unique.
      * apply touches_In. exists (deco, rs). split; [|reflexivity].
        apply (in_applyingCalls r1 g icon rs deco); [apply get_In; exact Hgi | exact Hget].
      * intros call Hin Hk.
        pose proof (Hsame icon deco call Hget Hin Hk) as E. congruence.
    + assert (Hnone : touches (key deco) (applyingCalls r1 g) = false).
      { destruct (touches (key deco) (applyingCalls r1 g)) eqn:Ht; [|reflexivity].
        apply touches_In in Ht. destruct Ht as (call & Hin & Hk).
        pose proof (Hsame icon deco call Hget Hin Hk) as E. congruence. }
      rewrite (showAfter_untouched _ _ _ Hnone), showAfter_clearing.
      replace (touches (key deco) (clearingCalls r)) with true; [reflexivity|].
      symmetry. rewrite touches_clearing. apply existsb_exists.
      exists deco. split; [|apply Nat.eqb_refl].
      assert (Hin : In deco (JsMap.values (decorationCache r1))).
      { apply get_In in Hget. apply (in_map snd) in Hget. exact Hget. }
      destruct (Hnew deco Hin) as [Hold | ([icon' rs'] & Hentry & Hget')];
        [exact Hold|]. exfalso. cbn [fst] in Hget'.
      assert (icon' = icon)
        by exact (regOK_key_inj r1 icon' icon deco deco Hok1 Hget' Hget eq_refl).
      subst icon'. pose proof (get_wf_In g icon rs' Hwf Hentry). congruence.
Qed.

End UpdaterFurther.

(** The first pass on an HTML document of two lines, from the start of the
    process. *)
Lemma update_shows_current_spans_witness :
  exists g r1 e1,
    groupRanges (document htmlEditor) = Some g /\
    updateDecorations sampleHost initialRegistry htmlEditor = Some (r1, e1) /\
    (forall icon, JsMap.has g icon = true ->
                  JsMap.has (decorationCache r1) icon = true) /\
    (forall icon deco,
        JsMap.get (decorationCache r1) icon = Some deco ->
        rendered e1 (key deco) = rangesIn g icon).
Proof.
  apply (update_shows_current_spans sampleHost initialRegistry htmlEditor).
  - apply (regOK_initial sampleHost).
  - reflexivity.
Defined.

(* ================================================================= *)
(** * Further properties: catalog and suggestions *)

Lemma endsWith_basename (file ext : jsstring) :
  endsWith file ext = true -> basename file ext ++ ext = file.
Proof.
  intros H. unfold basename. rewrite H. unfold endsWith in H.
  apply andb_true_iff in H. destruct H as [_ H]. apply jsstring_eqb_eq in H.
  rewrite <- H at 2. apply firstn_skipn.
Qed.

Lemma loadIconFiles_first (host : Host) (fs : FileSystem)
    (files : list IconFile) (cache' : option (list IconFile)) :
  loadIconFiles host fs None = (Returns files, cache') ->
  cache' = Some files /\
  exists dirEntries,
    readdirSync fs (iconsDirPathOf host) = Some dirEntries /\
    files =
      map (fun file =>
             {| name := basename file (js ".svg");
                uri := joinPath host
                         (joinPath host (extensionUriGlobal host)
                            [js "media"; js "icons"]) [file] |})
          (filter (fun f => endsWith f (js ".svg")) dirEntries).
Proof.
  unfold loadIconFiles. fold (iconsDirPathOf host).
  destruct (readdirSync fs (iconsDirPathOf host)) as [dirEntries|]; [|discriminate].
  intros H; injection H as <- <-. split; [reflexivity|].
  exists dirEntries. split; reflexivity.
Qed.

(** X12.  The catalog mirrors the icon directory: a first load that
    returns lists, in directory order, exactly the entries ending in
    [.svg], each under its name without that ending, so that
    [name + ".svg"] is the entry again, and with the entry's location in
    the icon directory as its URI. *)
Theorem catalog_mirrors_directory (host : Host) (fs : FileSystem)
    (files : list IconFile) (cache' : option (list IconFile)) :
  loadIconFiles host fs None = (Returns files, cache') ->
  exists dirEntries,
    readdirSync fs (iconsDirPathOf host) = Some dirEntries /\
    map (fun icon => name icon ++ js ".svg") files =
      filter (fun f => endsWith f (js ".svg")) dirEntries /\
    Forall (fun icon =>
              uri icon =
                joinPath host
                  (joinPath host (extensionUriGlobal host) [js "media"; js "icons"])
                  [name icon ++ js ".svg"]) files.
Proof.
  intros H. destruct (loadIconFiles_first host fs files cache' H)
    as (_ & dirEntries & Hdir & ->).
  exists dirEntries. split; [exact Hdir|].
  assert (Hall : Forall (fun f => endsWith f (js ".svg") = true)
                   (filter (fun f => endsWith f (js ".svg")) dirEntries)).
  { apply Forall_forall. intros f Hf. apply filter_In in Hf. tauto. }
  clear H. induction Hall as [|f l Hf Hl IH]; cbn [map name uri].
  - split; constructor.
  - destruct IH as [IH1 IH2]. split.
    + rewrite (endsWith_basename f (js ".svg") Hf). f_equal. exact IH1.
    + constructor; [|exact IH2]. cbn [name uri].
      rewrite (endsWith_basename f (js ".svg") Hf). reflexivity.
Qed.

Lemma catalog_mirrors_directory_witness :
  exists dirEntries,
    readdirSync (iconsDirectory [js "x.svg"; js "notes.txt"; js "search.svg"])
      (iconsDirPathOf sampleHost) = Some dirEntries /\
    map (fun icon => name icon ++ js ".svg")
      [{| name := js "x"; uri := {| fsPath := js "/ext/media/icons/x.svg" |} |};
       {| name := js "search";
          uri := {| fsPath := js "/ext/media/icons/search.svg" |} |}] =
      filter (fun f => endsWith f (js ".svg")) dirEntries /\
    Forall (fun icon =>
              uri icon =
                joinPath sampleHost
                  (joinPath sampleHost (extensionUriGlobal sampleHost)
                     [js "media"; js "icons"])
                  [name icon ++ js ".svg"])
      [{| name := js "x"; uri := {| fsPath := js "/ext/media/icons/x.svg" |} |};
       {| name := js "search";
          uri := {| fsPath := js "/ext/media/icons/search.svg" |} |}].
Proof.
  apply (catalog_mirrors_directory sampleHost
           (iconsDirectory [js "x.svg"; js "notes.txt"; js "search.svg"])
           _ (Some [{| name := js "x";
                        uri := {| fsPath := js "/ext/media/icons/x.svg" |} |};
                     {| name := js "search";
                        uri := {| fsPath := js "/ext/media/icons/search.svg" |} |}])).
  reflexivity.
Defined.

Lemma provideCompletionItems_loaded (host : Host) (fs : FileSystem)
    (files : list IconFile) (lineText : jsstring) (wordRange : option Range) :
  provideCompletionItems host fs (Some files) lineText wordRange =
    (if includes lineText (js "ti ") then
       match wordRange with
       | Some _ => Returns (Some (map newCompletionItem files))
       | None => Returns None
       end
     else Returns None,
     Some files).
Proof.
  unfold provideCompletionItems.
  destruct (includes lineText (js "ti ")); cbn [negb]; [|reflexivity].
  destruct wordRange; reflexivity.
Qed.

(** X13.  Once a load has returned, the catalog is fixed for the session:
    every later load returns the same list without reading the directory,
    and every later suggestion request, whatever the file system has
    become, returns either nothing or one suggestion per entry of that
    list; none ends with an error, and the cached list stays as it is. *)
Theorem catalog_fixed_once_loaded (host : Host) (fs : FileSystem)
    (files : list IconFile) (cache' : option (list IconFile))
    (requests : list Request) :
  loadIconFiles host fs None = (Returns files, cache') ->
  cache' = Some files /\
  (forall fs', loadIconFiles host fs' cache' = (Returns files, cache')) /\
  snd (provideRun host cache' requests) = cache' /\
  Forall (fun outcome =>
            outcome = Returns None \/
            outcome = Returns (Some (map newCompletionItem files)))
    (fst (provideRun host cache' requests)).
Proof.
  intros H. destruct (loadIconFiles_first host fs files cache' H) as (-> & _).
  split; [reflexivity|]. split; [reflexivity|].
  induction requests as [|[[fs' lineText] wordRange] requests IH]; simpl.
  - split; [reflexivity | constructor].
  - rewrite provideCompletionItems_loaded.
    destruct (provideRun host (Some files) requests) as [outcomes cache2].
    cbn [fst snd] in *. destruct IH as [IH1 IH2]. split; [exact IH1|].
    constructor; [|exact IH2].
    destruct (includes lineText (js "ti ")); [|left; reflexivity].
    destruct wordRange; [right | left]; reflexivity.
Qed.

(** A directory with the icon [x.svg] and a file that is no icon; later
    the directory cannot be read any more. *)
Lemma catalog_fixed_once_loaded_witness :
  exists files,
    loadIconFiles sampleHost (iconsDirectory [js "x.svg"; js "notes.txt"]) None
    = (Returns files, Some files) /\
    catalogNames files = [js "x"] /\
    snd (provideRun sampleHost (Some files)
           [(nothingReadable, js "ti ti-", Some (range sampleRange))])
    = Some files /\
    Forall (fun outcome =>
              outcome = Returns None \/
              outcome = Returns (Some (map newCompletionItem files)))
      (fst (provideRun sampleHost (Some files)
              [(nothingReadable, js "ti ti-", Some (range sampleRange))])).
Proof.
  eexists. split; [reflexivity|]. split; [reflexivity|].
  exact (proj2 (proj2
    (catalog_fixed_once_loaded sampleHost
       (iconsDirectory [js "x.svg"; js "notes.txt"]) _ _
       [(nothingReadable, js "ti ti-", Some (range sampleRange))] eq_refl))).
Defined.

(** X14.  A suggestion resolves against the file it was listed from.  For
    every suggestion of a first request: its label and inserted text are
    [ti-] followed by its detail, and the detail followed by [.svg] is an
    entry of the icon directory; resolving it with an empty detail leaves
    the item and the image cache as they are; resolving it otherwise,
    when the image cache has no entry for it, reads that entry's file,
    and gives the images of its data URL, which it caches, or the
    failure notice with the cache unchanged when the file cannot be
    read. *)
Theorem suggestion_resolves_its_file (bound : nat) (host : Host)
    (fs : FileSystem) (lineText : jsstring) (wordRange : option Range)
    (items : list CompletionItem) (cache' : option (list IconFile)) :
  provideCompletionItems host fs None lineText wordRange
    = (Returns (Some items), cache') ->
  exists dirEntries,
    readdirSync fs (iconsDirPathOf host) = Some dirEntries /\
    forall item, In item items ->
      label item = js "ti-" ++ detail item /\
      insertText item = label item /\
      In (detail item ++ js ".svg") dirEntries /\
      forall (fs' : FileSystem) (c : Cache),
        (detail item = [] ->
           resolveCompletionItem bound host fs' c item = (None, c)) /\
        (detail item <> [] -> JsMap.has c (detail item) = false ->
           resolveCompletionItem bound host fs' c item =
             match readFileSync fs'
                     (fsPath (joinPath host (extensionUriGlobal host)
                                [js "media"; js "icons";
                                 detail item ++ js ".svg"])) with
             | Some svgBuf =>
                 (Some (Images (js "data:image/svg+xml;base64,"
                                  ++ base64 host svgBuf)),
                  lruSet bound c (detail item)
                    (js "data:image/svg+xml;base64," ++ base64 host svgBuf))
             | None => (Some (FailedToRead (detail item)), c)
             end).
Proof.
  unfold provideCompletionItems.
  destruct (includes lineText (js "ti ")); cbn [negb]; [|discriminate].
  destruct wordRange; [|discriminate].
  destruct (loadIconFiles host fs None) as [[files|e] c1] eqn:Hload; [|discriminate].
  intros H; injection H as <- <-.
  destruct (loadIconFiles_first host fs files c1 Hload) as (_ & dirEntries & Hdir & ->).
  exists dirEntries. split; [exact Hdir|].
  intros item Hin. rewrite map_map in Hin. apply in_map_iff in Hin.
  destruct Hin as (file & <- & Hfile). apply filter_In in Hfile.
  destruct Hfile as [Hfile Hsvg].
  unfold newCompletionItem. cbn [label insertText detail name].
  split; [reflexivity|]. split; [reflexivity|].
  split; [rewrite (endsWith_basename file (js ".svg") Hsvg); exact Hfile|].
  intros fs' c. unfold resolveCompletionItem. cbn [meta name].
  remember (basename file (js ".svg")) as stem eqn:Hstem. clear Hstem. split.
  - intros ->. reflexivity.
  - intros Hne Hmiss.
    assert (Ht : truthy stem = true) by (destruct stem; [congruence | reflexivity]).
    rewrite Ht. change (truthy (js "ti-" ++ stem)) with true. cbn [negb orb].
    assert (Hg : JsMap.get c stem = None).
    { apply get_None. apply has_false. exact Hmiss. }
    destruct (readFileSync fs' _) as [buf|] eqn:Hr.
    + rewrite (getSvgDataUrl_insert bound host fs' c _ buf Hg Hr). reflexivity.
    + rewrite (getSvgDataUrl_unreadable bound host fs' c _ Hg Hr). reflexivity.
Qed.

Lemma suggestion_resolves_its_file_witness :
  exists dirEntries,
    readdirSync (iconsDirectory [js "x.svg"; js ".svg"])
      (iconsDirPathOf sampleHost) = Some dirEntries /\
    forall item,
      In item (map newCompletionItem
                 [{| name := js "x";
                     uri := {| fsPath := js "/ext/media/icons/x.svg" |} |};
                  {| name := [];
                     uri := {| fsPath := js "/ext/media/icons/.svg" |} |}]) ->
      In (detail item ++ js ".svg") dirEntries.
Proof.
  destruct (suggestion_resolves_its_file 2 sampleHost
              (iconsDirectory [js "x.svg"; js ".svg"]) (js "ti ti-")
              (Some (range sampleRange)) _ _ eq_refl) as (dirEntries & Hdir & Hall).
  exists dirEntries. split; [exact Hdir|].
  intros item Hin. apply (Hall item Hin).
Defined.

(** X15.  Whatever items a session resolves, with or without an entry
    in [completionItemMeta], under whatever file systems: the image cache
    holds at most [bound] entries, each identifier once, and never an
    entry for the empty identifier or with an empty payload. *)
Theorem resolve_session_keeps_cache (bound : nat) (host : Host)
    (requests : list (FileSystem * CompletionItem)) :
  JsMap.size (resolveRun bound host requests) <= bound /\
  JsMap.wf (resolveRun bound host requests) /\
  JsMap.has (resolveRun bound host requests) [] = false /\
  Forall (fun entry => snd entry <> []) (resolveRun bound host requests).
Proof.
  unfold resolveRun.
  assert (H : forall c h, cacheInv bound (c, h) ->
            exists h', cacheInv bound
              (fold_left
                 (fun cache request =>
                    snd (resolveCompletionItem bound host (fst request) cache
                           (snd request))) requests c, h')).
  { induction requests as [|[fs item] requests IH]; intros c h Hinv; simpl.
    - exists h; exact Hinv.
    - destruct (resolveCompletionItem_inv bound host fs c h item Hinv) as [h1 H1].
      apply (IH _ h1 H1). }
  destruct (H JsMap.empty [] (cacheInv_initial bound)) as [h' Hinv].
  split; [apply (cacheInv_size bound _ Hinv)|].
  destruct Hinv as (Hwf & Hst & _). cbn [fst] in *.
  split; [exact Hwf|]. split.
  - apply has_false. intros Hin. apply in_map_iff in Hin.
    destruct Hin as (e & He & Hin). rewrite Forall_forall in Hst.
    destruct (Hst e Hin) as [Hk _]. rewrite He in Hk. discriminate.
  - revert Hst. apply Forall_impl. intros e [_ Hv] E.
    destruct e as [k v]. cbn [snd] in *. subst v. discriminate.
Qed.

(* ================================================================= *)
(** * Global replacement: general facts *)

Section ReplaceFacts.
Variable tok : bool -> jsstring -> option (jsstring * nat).
Variable starter : code_unit -> bool.
Variable inert : code_unit -> bool.

Lemma replaceFrom_skip (k : nat) : forall (s : jsstring) (b : bool),
  replaceFrom tok b (S k) s = replaceFrom tok false 0 (skipn (S k) s).
Proof.
  induction k as [|k IH]; intros [|c s] b; try reflexivity.
  change (replaceFrom tok false (S k) s = replaceFrom tok false 0 (skipn (S k) s)).
  apply IH.
Qed.

Lemma replaceFrom_nomatch (b : bool) (c : code_unit) (s : jsstring) :
  tok b (c :: s) = None ->
  replaceFrom tok b 0 (c :: s) = c :: replaceFrom tok false 0 s.
Proof. intros H. cbn [replaceFrom]. rewrite H. reflexivity. Qed.

Hypothesis tok_length : forall b s rep n,
  tok b s = Some (rep, n) -> 1 <= n <= length s.

Lemma replaceFrom_match (b : bool) (s rep : jsstring) (n : nat) :
  tok b s = Some (rep, n) ->
  replaceFrom tok b 0 s = rep ++ replaceFrom tok false 0 (skipn n s).
Proof.
  intros H. pose proof (tok_length _ _ _ _ H) as [Hn Hl].
  destruct s as [|c s]; [simpl in Hl; lia|].
  cbn [replaceFrom]. rewrite H. f_equal.
  destruct n as [|[|k]]; [lia | reflexivity |].
  replace (S (S k) - 1) with (S k) by lia.
  rewrite replaceFrom_skip. reflexivity.
Qed.

Hypothesis tok_first : forall b c s rep n,
  tok b (c :: s) = Some (rep, n) ->
  exists rep', rep = c :: rep' /\ avoids starter rep' = true.

Lemma replaceFrom_first (b : bool) (c : code_unit) (s : jsstring) :
  exists out, replaceFrom tok b 0 (c :: s) = c :: out.
Proof.
  destruct (tok b (c :: s)) as [[rep n]|] eqn:E.
  - rewrite (replaceFrom_match _ _ _ _ E).
    destruct (tok_first _ _ _ _ _ E) as (rep' & -> & _).
    eexists; reflexivity.
  - rewrite (replaceFrom_nomatch _ _ _ E). eexists; reflexivity.
Qed.

Hypothesis tok_starter : forall c s,
  starter c = false -> tok false (c :: s) = None.

Lemma replaceFrom_calm (a t : jsstring) :
  avoids starter a = true ->
  replaceFrom tok false 0 (a ++ t) = a ++ replaceFrom tok false 0 t.
Proof.
  induction a as [|x a IH]; intros H; [reflexivity|].
  unfold avoids in H; cbn [forallb] in H. apply andb_true_iff in H as [Hx Ha].
  apply negb_true_iff in Hx.
  cbn [app]. rewrite (replaceFrom_nomatch _ _ _ (tok_starter _ _ Hx)).
  rewrite (IH Ha). reflexivity.
Qed.

Lemma replaceFrom_calm_inv (a : jsstring) : forall (t out : jsstring),
  avoids starter a = true ->
  replaceFrom tok false 0 t = a ++ out ->
  exists t2, t = a ++ t2 /\ out = replaceFrom tok false 0 t2.
Proof.
  induction a as [|x a IH]; intros t out H E.
  - exists t. split; [reflexivity | symmetry; exact E].
  - unfold avoids in H; cbn [forallb] in H. apply andb_true_iff in H as [Hx Ha].
    apply negb_true_iff in Hx.
    destruct t as [|c t]; [discriminate|].
    destruct (replaceFrom_first false c t) as [o Ho].
    assert (c = x) by (rewrite Ho in E; cbn [app] in E; congruence). subst c.
    rewrite (replaceFrom_nomatch _ _ _ (tok_starter _ _ Hx)) in E.
    cbn [app] in E. injection E as E.
    destruct (IH _ _ Ha E) as (t2 & -> & ->).
    exists t2. split; reflexivity.
Qed.

Hypothesis tok_inert : forall b s, forallb inert s = true -> tok b s = None.

Lemma replaceFrom_inert (s : jsstring) : forall b,
  forallb inert s = true -> replaceFrom tok b 0 s = s.
Proof.
  induction s as [|c s IH]; intros b H; [reflexivity|].
  rewrite (replaceFrom_nomatch _ _ _ (tok_inert _ _ H)).
  unfold avoids in H; cbn [forallb] in H. apply andb_true_iff in H as [_ H].
  rewrite (IH _ H). reflexivity.
Qed.

Hypothesis tok_rematch : forall b s rep n rest,
  tok b s = Some (rep, n) -> tok b (rep ++ rest) = Some (rep, length rep).

Hypothesis tok_nomatch_stable : forall b c s,
  tok b (c :: s) = None -> tok b (c :: replaceFrom tok false 0 s) = None.

Lemma replaceFrom_idem_le (n : nat) : forall (s : jsstring) (b : bool),
  length s <= n ->
  replaceFrom tok b 0 (replaceFrom tok b 0 s) = replaceFrom tok b 0 s.
Proof.
  induction n as [|n IH]; intros [|c s] b Hl; try reflexivity;
    [simpl in Hl; lia|].
  destruct (tok b (c :: s)) as [[rep k]|] eqn:E.
  - rewrite (replaceFrom_match _ _ _ _ E).
    rewrite (replaceFrom_match _ _ _ _ (tok_rematch _ _ _ _ _ E)).
    rewrite skipn_prefix. rewrite IH; [reflexivity|].
    pose proof (tok_length _ _ _ _ E) as [Hk _].
    rewrite length_skipn. cbn [length] in Hl |- *. lia.
  - rewrite (replaceFrom_nomatch _ _ _ E).
    rewrite (replaceFrom_nomatch _ _ _ (tok_nomatch_stable _ _ _ E)).
    rewrite IH; [reflexivity | simpl in Hl; lia].
Qed.

Hypothesis tok_false_true : forall s m, tok false s = Some m -> tok true s = Some m.

Hypothesis tok_shape : forall b rep n rest,
  tok b (rep ++ rest) = Some (rep, n) -> n = length rep.

Lemma replaceFrom_fixed_match (b : bool) (t rep : jsstring) (n : nat) :
  replaceFrom tok b 0 t = t ->
  tok b t = Some (rep, n) ->
  n = length rep /\ t = rep ++ skipn n t /\
  replaceFrom tok false 0 (skipn n t) = skipn n t.
Proof.
  intros Hfix E. rewrite (replaceFrom_match _ _ _ _ E) in Hfix.
  assert (Hn : n = length rep).
  { rewrite <- Hfix in E. exact (tok_shape _ _ _ _ E). }
  assert (Hs : skipn n t = replaceFrom tok false 0 (skipn n t)).
  { rewrite <- Hfix at 1. rewrite Hn. apply skipn_prefix. }
  split; [exact Hn|]. split; [|symmetry; exact Hs].
  rewrite Hs. symmetry. exact Hfix.
Qed.

Lemma calm_skipn (k : nat) (a : jsstring) : avoids starter a = true -> avoids starter (skipn k a) = true.
Proof.
  revert a; induction k as [|k IH]; intros [|x a] H; try assumption; try reflexivity.
  unfold avoids in H; cbn [forallb] in H. apply andb_true_iff in H as [_ H]. apply IH, H.
Qed.

Lemma replaceFrom_fixed_weaken (b : bool) (t : jsstring) :
  replaceFrom tok b 0 t = t -> replaceFrom tok false 0 t = t.
Proof.
  destruct b; [|tauto]. intros Hfix.
  destruct t as [|c t]; [reflexivity|].
  destruct (tok false (c :: t)) as [[rep n]|] eqn:E.
  - pose proof (tok_false_true _ _ E) as E'.
    rewrite (replaceFrom_match _ _ _ _ E).
    rewrite (replaceFrom_match _ _ _ _ E') in Hfix. exact Hfix.
  - rewrite (replaceFrom_nomatch _ _ _ E).
    destruct (tok true (c :: t)) as [[rep n]|] eqn:E'.
    + destruct (replaceFrom_fixed_match _ _ _ _ Hfix E') as (_ & Ht & Hs).
      destruct (tok_first _ _ _ _ _ E') as (rep' & -> & Hcalm).
      cbn [app] in Ht. injection Ht as Ht.
      rewrite Ht at 1. rewrite (replaceFrom_calm _ _ Hcalm), Hs, <- Ht.
      reflexivity.
    + rewrite (replaceFrom_nomatch _ _ _ E') in Hfix. exact Hfix.
Qed.

Lemma replaceFrom_fixed_suffix_le (n : nat) : forall (t : jsstring) (b : bool) (k : nat),
  length t <= n ->
  replaceFrom tok b 0 t = t ->
  replaceFrom tok false 0 (skipn k t) = skipn k t.
Proof.
  induction n as [|n IH]; intros [|c t] b k Hl Hfix;
    try (destruct k; reflexivity); [simpl in Hl; lia|].
  destruct k as [|k]; [exact (replaceFrom_fixed_weaken _ _ Hfix)|].
  cbn [skipn].
  destruct (tok b (c :: t)) as [[rep m]|] eqn:E.
  - destruct (replaceFrom_fixed_match _ _ _ _ Hfix E) as (Hm & Ht & Hs).
    destruct (tok_first _ _ _ _ _ E) as (rep' & -> & Hcalm).
    cbn [app] in Ht. injection Ht as Ht.
    assert (HY : length (skipn m (c :: t)) <= n).
    { pose proof (tok_length _ _ _ _ E) as [Hk _].
      rewrite length_skipn. cbn [length] in Hl |- *. lia. }
    revert Ht Hs HY. generalize (skipn m (c :: t)) as rest.
    intros rest Ht Hs HY. rewrite Ht, skipn_app.
    rewrite (replaceFrom_calm _ _ (calm_skipn k _ Hcalm)).
    rewrite (IH rest false _ HY Hs). reflexivity.
  - rewrite (replaceFrom_nomatch _ _ _ E) in Hfix. injection Hfix as Hfix.
    apply (IH t false k); [simpl in Hl; lia | exact Hfix].
Qed.

End ReplaceFacts.
(* ================================================================= *)
(** * The two patterns of the icon rewriting script *)

Lemma quoted_length (s : jsstring) : forall n,
  quoted s = Some n -> 1 <= n <= length s.
Proof.
  induction s as [|c s IH]; intros n H; [discriminate|].
  cbn [quoted] in H. destruct (isQuote c).
  - injection H as <-. cbn [length]. lia.
  - destruct (quoted s) as [m|]; [|discriminate].
    injection H as <-. specialize (IH m eq_refl). cbn [length]. lia.
Qed.

Lemma quoted_none (s : jsstring) :
  quoted s = None <-> avoids isQuote s = true.
Proof.
  unfold avoids. induction s as [|c s IH]; cbn [quoted forallb]; [tauto|].
  destruct (isQuote c); cbn [negb andb].
  - split; discriminate.
  - rewrite <- IH. destruct (quoted s); cbn [option_map]; split; congruence.
Qed.

Lemma avoids_app (p : code_unit -> bool) (a b : jsstring) :
  avoids p (a ++ b) = avoids p a && avoids p b.
Proof. unfold avoids. apply forallb_app. Qed.

Lemma avoids_or_l (p q : code_unit -> bool) (a : jsstring) :
  avoids (fun c => p c || q c) a = true -> avoids p a = true.
Proof.
  unfold avoids. rewrite !forallb_forall. intros H x Hx.
  specialize (H x Hx). destruct (p x); [discriminate | reflexivity].
Qed.

Lemma avoids_or_r (p q : code_unit -> bool) (a : jsstring) :
  avoids (fun c => p c || q c) a = true -> avoids q a = true.
Proof.
  unfold avoids. rewrite !forallb_forall. intros H x Hx.
  specialize (H x Hx). destruct (q x); [|reflexivity].
  rewrite orb_true_r in H. discriminate.
Qed.

Lemma quoted_after_quote (a t : jsstring) :
  avoids isQuote (a ++ quote ++ t) = false.
Proof.
  rewrite avoids_app. cbn. apply andb_false_r.
Qed.

Lemma startsWith_nil (t : jsstring) : startsWith t [] = true.
Proof. destruct t; reflexivity. Qed.

Lemma sizeAttr_width (t : jsstring) :
  sizeAttr (js "width=" ++ quote ++ t)
  = option_map (fun n => (js "width", 7 + n)) (quoted t).
Proof. unfold sizeAttr. cbn. rewrite startsWith_nil. reflexivity. Qed.

Lemma sizeAttr_height (t : jsstring) :
  sizeAttr (js "height=" ++ quote ++ t)
  = option_map (fun n => (js "height", 8 + n)) (quoted t).
Proof. unfold sizeAttr. cbn. rewrite startsWith_nil. reflexivity. Qed.

Lemma sizeAttr_inv (s g2 : jsstring) (n : nat) :
  sizeAttr s = Some (g2, n) ->
  exists t m,
    (g2 = js "width" \/ g2 = js "height") /\
    s = g2 ++ js "=" ++ quote ++ t /\
    quoted t = Some m /\ n = length g2 + 2 + m.
Proof.
  unfold sizeAttr. intros H.
  destruct (startsWith s (js "width=" ++ quote)) eqn:Ew.
  - apply startsWith_app in Ew as [t ->].
    change (skipn 7 ((js "width=" ++ quote) ++ t)) with t in H.
    destruct (quoted t) as [m|] eqn:Eq; [|discriminate].
    injection H as <- <-. exists t, m.
    split; [left; reflexivity|]. split; [reflexivity|]. split; [exact Eq | reflexivity].
  - destruct (startsWith s (js "height=" ++ quote)) eqn:Eh; [|discriminate].
    apply startsWith_app in Eh as [t ->].
    change (skipn 8 ((js "height=" ++ quote) ++ t)) with t in H.
    destruct (quoted t) as [m|] eqn:Eq; [|discriminate].
    injection H as <- <-. exists t, m.
    split; [right; reflexivity|]. split; [reflexivity|]. split; [exact Eq | reflexivity].
Qed.

Lemma sizeAttr_named (g2 t : jsstring) :
  g2 = js "width" \/ g2 = js "height" ->
  sizeAttr (g2 ++ js "=" ++ quote ++ t)
  = option_map (fun m => (g2, length g2 + 2 + m)) (quoted t).
Proof.
  intros [-> | ->]; [exact (sizeAttr_width t) | exact (sizeAttr_height t)].
Qed.

Lemma sizeAttr_not_space (c : code_unit) (s : jsstring) :
  isSpace c = true -> sizeAttr (c :: s) = None.
Proof.
  intros Hc. unfold sizeAttr.
  change (startsWith (c :: s) (js "width=" ++ quote))
    with (N.eqb 119 c && startsWith s (js "idth=" ++ quote)).
  change (startsWith (c :: s) (js "height=" ++ quote))
    with (N.eqb 104 c && startsWith s (js "eight=" ++ quote)).
  destruct (N.eqb 119 c) eqn:E1; [apply N.eqb_eq in E1; subst c; discriminate|].
  destruct (N.eqb 104 c) eqn:E2; [apply N.eqb_eq in E2; subst c; discriminate|].
  reflexivity.
Qed.

Lemma sizeRegex_named (b : bool) (pre g2 t : jsstring) :
  sizeLead b pre ->
  g2 = js "width" \/ g2 = js "height" ->
  sizeRegex b (pre ++ g2 ++ js "=" ++ quote ++ t)
  = option_map
      (fun m => (pre ++ g2 ++ js "=" ++ quote ++ NEW_SIZE ++ quote,
                 length pre + length g2 + 2 + m))
      (quoted t).
Proof.
  intros Hpre Hg. destruct Hpre as [c Hc | Hb].
  - unfold sizeRegex. cbn [app]. rewrite Hc, (sizeAttr_named _ _ Hg).
    destruct (quoted t) as [m|]; cbn [option_map fst snd]; [reflexivity|].
    rewrite (sizeAttr_not_space _ _ Hc). destruct b; reflexivity.
  - subst b. cbn [app length].
    assert (sizeRegex true (g2 ++ js "=" ++ quote ++ t)
            = option_map
                (fun m => (fst m ++ js "=" ++ quote ++ NEW_SIZE ++ quote, snd m))
                (sizeAttr (g2 ++ js "=" ++ quote ++ t))) as ->
      by (destruct Hg as [-> | ->]; reflexivity).
    rewrite (sizeAttr_named _ _ Hg).
    destruct (quoted t); reflexivity.
Qed.

Lemma sizeRegex_inv (b : bool) (s rep : jsstring) (n : nat) :
  sizeRegex b s = Some (rep, n) ->
  exists pre g2 t m,
    sizeLead b pre /\
    (g2 = js "width" \/ g2 = js "height") /\
    s = pre ++ g2 ++ js "=" ++ quote ++ t /\
    quoted t = Some m /\
    rep = pre ++ g2 ++ js "=" ++ quote ++ NEW_SIZE ++ quote /\
    n = length pre + length g2 + 2 + m.
Proof.
  unfold sizeRegex. intros H.
  assert (Hstart : forall g2 k, sizeAttr s = Some (g2, k) -> b = true ->
            rep = g2 ++ js "=" ++ quote ++ NEW_SIZE ++ quote -> n = k ->
            exists pre g2 t m,
              sizeLead b pre /\ (g2 = js "width" \/ g2 = js "height") /\
              s = pre ++ g2 ++ js "=" ++ quote ++ t /\ quoted t = Some m /\
              rep = pre ++ g2 ++ js "=" ++ quote ++ NEW_SIZE ++ quote /\
              n = length pre + length g2 + 2 + m).
  { intros g2 k Ha Hb -> ->.
    destruct (sizeAttr_inv _ _ _ Ha) as (t & m & Hg & -> & Hq & ->).
    exists [], g2, t, m.
    split; [apply LeadStart; exact Hb|]. split; [exact Hg|].
    split; [reflexivity|]. split; [exact Hq|]. split; reflexivity. }
  assert (Hrest : (if b
                   then option_map
                          (fun m => (fst m ++ js "=" ++ quote ++ NEW_SIZE ++ quote, snd m))
                          (sizeAttr s)
                   else None) = Some (rep, n) ->
            exists pre g2 t m,
              sizeLead b pre /\ (g2 = js "width" \/ g2 = js "height") /\
              s = pre ++ g2 ++ js "=" ++ quote ++ t /\ quoted t = Some m /\
              rep = pre ++ g2 ++ js "=" ++ quote ++ NEW_SIZE ++ quote /\
              n = length pre + length g2 + 2 + m).
  { destruct b; [|discriminate].
    destruct (sizeAttr s) as [[g2 k]|] eqn:Ea; [|discriminate].
    cbn [option_map fst snd]. intros Hr. injection Hr as <- <-.
    apply (Hstart g2 k); reflexivity. }
  destruct s as [|c s']; [exact (Hrest H)|].
  destruct (isSpace c) eqn:Hc; [|exact (Hrest H)].
  destruct (sizeAttr s') as [[g2 k]|] eqn:Ea; [|exact (Hrest H)].
  cbn [option_map fst snd] in H. injection H as <- <-.
  destruct (sizeAttr_inv _ _ _ Ea) as (t & m & Hg & -> & Hq & ->).
  exists [c], g2, t, m.
  split; [apply LeadSpace; exact Hc|]. split; [exact Hg|].
  split; [reflexivity|]. split; [exact Hq|]. split; reflexivity.
Qed.

Lemma sizeRegex_length (b : bool) (s rep : jsstring) (n : nat) :
  sizeRegex b s = Some (rep, n) -> 1 <= n <= length s.
Proof.
  intros H.
  destruct (sizeRegex_inv _ _ _ _ H) as (pre & g2 & t & m & _ & _ & -> & Hq & _ & ->).
  pose proof (quoted_length _ _ Hq). rewrite !length_app. cbn [length js map list_ascii_of_string quote]. lia.
Qed.

Lemma sizeRegex_first (b : bool) (c : code_unit) (s rep : jsstring) (n : nat) :
  sizeRegex b (c :: s) = Some (rep, n) ->
  exists rep', rep = c :: rep' /\ avoids isSpace rep' = true.
Proof.
  intros H.
  destruct (sizeRegex_inv _ _ _ _ H) as (pre & g2 & t & m & Hpre & Hg & Hs & _ & -> & _).
  destruct Hpre as [x Hx | Hb].
  - cbn [app] in Hs. injection Hs as <- _. eexists. split; [reflexivity|].
    destruct Hg as [-> | ->]; reflexivity.
  - destruct Hg as [-> | ->]; cbn in Hs; injection Hs as -> _;
      (eexists; split; [reflexivity|reflexivity]).
Qed.

Lemma sizeRegex_starter (c : code_unit) (s : jsstring) :
  isSpace c = false -> sizeRegex false (c :: s) = None.
Proof. intros H. unfold sizeRegex. rewrite H. reflexivity. Qed.

Lemma sizeRegex_inert (b : bool) (s : jsstring) :
  forallb (fun x => negb (isQuote x)) s = true -> sizeRegex b s = None.
Proof.
  intros H. destruct (sizeRegex b s) as [[rep n]|] eqn:E; [|reflexivity].
  destruct (sizeRegex_inv _ _ _ _ E) as (pre & g2 & t & m & _ & _ & -> & _).
  change (avoids isQuote (pre ++ g2 ++ js "=" ++ quote ++ t) = true) in H.
  rewrite app_assoc, (app_assoc (pre ++ g2)), quoted_after_quote in H.
  discriminate.
Qed.

Lemma quoted_new_size (rest : jsstring) : quoted (NEW_SIZE ++ quote ++ rest) = Some 3.
Proof. reflexivity. Qed.

Lemma sizeRegex_rematch (b : bool) (s rep : jsstring) (n : nat) (rest : jsstring) :
  sizeRegex b s = Some (rep, n) ->
  sizeRegex b (rep ++ rest) = Some (rep, length rep).
Proof.
  intros H.
  destruct (sizeRegex_inv _ _ _ _ H) as (pre & g2 & t & m & Hpre & Hg & _ & _ & -> & _).
  replace ((pre ++ g2 ++ js "=" ++ quote ++ NEW_SIZE ++ quote) ++ rest)
    with (pre ++ g2 ++ js "=" ++ quote ++ (NEW_SIZE ++ quote ++ rest))
    by (rewrite <- !app_assoc; reflexivity).
  rewrite (sizeRegex_named _ _ _ _ Hpre Hg), quoted_new_size.
  cbn [option_map]. f_equal. f_equal.
  rewrite !length_app.
  change (length (js "=")) with 1. change (length quote) with 1.
  change (length NEW_SIZE) with 2. lia.
Qed.

Lemma sizeRegex_shape (b : bool) (rep : jsstring) (n : nat) (rest : jsstring) :
  sizeRegex b (rep ++ rest) = Some (rep, n) -> n = length rep.
Proof.
  intros H.
  destruct (sizeRegex_inv _ _ _ _ H) as (pre & g2 & t & m & _ & _ & Hs & Hq & Hrep & ->).
  rewrite Hrep in Hs at 1.
  rewrite <- !app_assoc in Hs.
  do 4 apply app_inv_head in Hs. subst t.
  change (quoted (NEW_SIZE ++ quote ++ rest) = Some m) in Hq.
  rewrite quoted_new_size in Hq. injection Hq as <-.
  rewrite Hrep, !length_app.
  change (length (js "=")) with 1. change (length quote) with 1.
  change (length NEW_SIZE) with 2. lia.
Qed.

Lemma sizeRegex_false_true (s : jsstring) (m : jsstring * nat) :
  sizeRegex false s = Some m -> sizeRegex true s = Some m.
Proof.
  unfold sizeRegex. destruct s as [|c s]; [discriminate|].
  destruct (isSpace c); [|discriminate].
  destruct (sizeAttr s); [tauto | discriminate].
Qed.

(** The first pattern does not start to match where it did not, when the
    text after the first unit is rewritten by [F], as long as [F] keeps a
    text without a quote and a prefix without white space or [s]. *)
Lemma sizeRegex_nomatch_kept (F : jsstring -> jsstring) :
  (forall a t out,
     avoids (fun c => isSpace c || (c =? 115)%N) a = true ->
     F t = a ++ out -> exists t2, t = a ++ t2 /\ out = F t2) ->
  (forall t, avoids isQuote t = true -> F t = t) ->
  forall b c s, sizeRegex b (c :: s) = None -> sizeRegex b (c :: F s) = None.
Proof.
  intros Hinv Hkeep b c s Hnone.
  destruct (sizeRegex b (c :: F s)) as [[rep n]|] eqn:E; [exfalso | reflexivity].
  destruct (sizeRegex_inv _ _ _ _ E) as (pre & g2 & t & m & Hpre & Hg & Hs & Hq & _ & _).
  assert (Hend : forall t2, t = F t2 -> quoted t2 = None -> False).
  { intros t2 -> Hn. rewrite (Hkeep _ (proj1 (quoted_none _) Hn)) in Hq. congruence. }
  destruct Hpre as [x Hx | Hb].
  - cbn [app] in Hs. injection Hs as <- Hs.
    assert (Hs' : F s = (g2 ++ js "=" ++ quote) ++ t)
      by (rewrite <- app_assoc; exact Hs).
    apply Hinv in Hs' as (t2 & -> & Ht); [|destruct Hg as [-> | ->]; reflexivity].
    replace (c :: (g2 ++ js "=" ++ quote) ++ t2)
      with ([c] ++ g2 ++ js "=" ++ quote ++ t2) in Hnone
      by (rewrite <- !app_assoc; reflexivity).
    rewrite (sizeRegex_named b [c] g2 t2 (LeadSpace _ _ Hx) Hg) in Hnone.
    destruct (quoted t2) eqn:Eq; [discriminate|]. exact (Hend _ Ht Eq).
  - destruct Hg as [-> | ->]; cbn in Hs; injection Hs as -> Hs.
    + change (F s = (js "idth=" ++ quote) ++ t) in Hs.
      apply Hinv in Hs as (t2 & -> & Ht); [|reflexivity].
      change (sizeRegex b ([] ++ js "width" ++ js "=" ++ quote ++ t2) = None) in Hnone.
      rewrite (sizeRegex_named b [] (js "width") t2 (LeadStart _ Hb) (or_introl eq_refl)) in Hnone.
      destruct (quoted t2) eqn:Eq; [discriminate|]. exact (Hend _ Ht Eq).
    + change (F s = (js "eight=" ++ quote) ++ t) in Hs.
      apply Hinv in Hs as (t2 & -> & Ht); [|reflexivity].
      change (sizeRegex b ([] ++ js "height" ++ js "=" ++ quote ++ t2) = None) in Hnone.
      rewrite (sizeRegex_named b [] (js "height") t2 (LeadStart _ Hb) (or_intror eq_refl)) in Hnone.
      destruct (quoted t2) eqn:Eq; [discriminate|]. exact (Hend _ Ht Eq).
Qed.

Lemma strokeRegex_named (b : bool) (t : jsstring) :
  strokeRegex b (js "stroke=" ++ quote ++ t)
  = if noneBoundary t then None
    else option_map
           (fun m => (js "stroke=" ++ quote ++ NEW_COLOR ++ quote, 8 + m))
           (quoted t).
Proof.
  unfold strokeRegex.
  assert (Hs : startsWith (js "stroke=" ++ quote ++ t) (js "stroke=" ++ quote) = true)
    by (apply startsWith_app; exists t; reflexivity).
  rewrite Hs. reflexivity.
Qed.

Lemma strokeRegex_inv (b : bool) (s rep : jsstring) (n : nat) :
  strokeRegex b s = Some (rep, n) ->
  exists t m,
    s = js "stroke=" ++ quote ++ t /\
    noneBoundary t = false /\
    quoted t = Some m /\
    rep = js "stroke=" ++ quote ++ NEW_COLOR ++ quote /\
    n = 8 + m.
Proof.
  unfold strokeRegex. intros H.
  destruct (startsWith s (js "stroke=" ++ quote)) eqn:Es; [|discriminate].
  apply startsWith_app in Es as [t ->].
  change (skipn 8 ((js "stroke=" ++ quote) ++ t)) with t in H.
  destruct (noneBoundary t) eqn:En; [discriminate|].
  destruct (quoted t) as [m|] eqn:Eq; [|discriminate].
  injection H as <- <-. exists t, m.
  split; [reflexivity|]. split; [exact En|]. split; [exact Eq|].
  split; reflexivity.
Qed.

Lemma strokeRegex_length (b : bool) (s rep : jsstring) (n : nat) :
  strokeRegex b s = Some (rep, n) -> 1 <= n <= length s.
Proof.
  intros H. destruct (strokeRegex_inv _ _ _ _ H) as (t & m & -> & _ & Hq & _ & ->).
  pose proof (quoted_length _ _ Hq).
  change (length (js "stroke=" ++ quote ++ t)) with (8 + length t). lia.
Qed.

Lemma strokeRegex_first (b : bool) (c : code_unit) (s rep : jsstring) (n : nat) :
  strokeRegex b (c :: s) = Some (rep, n) ->
  exists rep', rep = c :: rep' /\ avoids isLetterS rep' = true.
Proof.
  intros H. destruct (strokeRegex_inv _ _ _ _ H) as (t & m & Hs & _ & _ & -> & _).
  cbn in Hs. injection Hs as -> _.
  eexists. split; reflexivity.
Qed.

Lemma strokeRegex_starter (c : code_unit) (s : jsstring) :
  isLetterS c = false -> strokeRegex false (c :: s) = None.
Proof.
  unfold isLetterS, strokeRegex. intros H.
  change (startsWith (c :: s) (js "stroke=" ++ quote))
    with (N.eqb 115 c && startsWith s (js "troke=" ++ quote)).
  rewrite N.eqb_sym, H. reflexivity.
Qed.

Lemma strokeRegex_inert (b : bool) (s : jsstring) :
  forallb (fun x => negb (isQuote x)) s = true -> strokeRegex b s = None.
Proof.
  intros H. destruct (strokeRegex b s) as [[rep n]|] eqn:E; [|reflexivity].
  destruct (strokeRegex_inv _ _ _ _ E) as (t & m & -> & _).
  change (avoids isQuote (js "stroke=" ++ quote ++ t) = true) in H.
  rewrite quoted_after_quote in H. discriminate.
Qed.

Lemma strokeRegex_rematch (b : bool) (s rep : jsstring) (n : nat) (rest : jsstring) :
  strokeRegex b s = Some (rep, n) ->
  strokeRegex b (rep ++ rest) = Some (rep, length rep).
Proof.
  intros H. destruct (strokeRegex_inv _ _ _ _ H) as (t & m & _ & _ & _ & -> & _).
  change ((js "stroke=" ++ quote ++ NEW_COLOR ++ quote) ++ rest)
    with (js "stroke=" ++ quote ++ (NEW_COLOR ++ quote ++ rest)).
  rewrite strokeRegex_named. reflexivity.
Qed.

Lemma strokeRegex_shape (b : bool) (rep : jsstring) (n : nat) (rest : jsstring) :
  strokeRegex b (rep ++ rest) = Some (rep, n) -> n = length rep.
Proof.
  intros H. destruct (strokeRegex_inv _ _ _ _ H) as (t & m & Hs & _ & Hq & Hrep & ->).
  rewrite Hrep in Hs at 1.
  change ((js "stroke=" ++ quote ++ NEW_COLOR ++ quote) ++ rest)
    with ((js "stroke=" ++ quote) ++ (NEW_COLOR ++ quote ++ rest)) in Hs.
  change (js "stroke=" ++ quote ++ t) with ((js "stroke=" ++ quote) ++ t) in Hs.
  apply app_inv_head in Hs. subst t.
  change (Some 8 = Some m) in Hq. injection Hq as <-.
  rewrite Hrep. reflexivity.
Qed.

Lemma strokeRegex_false_true (s : jsstring) (m : jsstring * nat) :
  strokeRegex false s = Some m -> strokeRegex true s = Some m.
Proof. exact (fun H => H). Qed.

(** The general facts at the two patterns. *)
Lemma size_calm (a t : jsstring) :
  avoids isSpace a = true ->
  replaceFrom sizeRegex false 0 (a ++ t) = a ++ replaceFrom sizeRegex false 0 t.
Proof. apply (replaceFrom_calm sizeRegex isSpace sizeRegex_starter). Qed.

Lemma stroke_calm (a t : jsstring) :
  avoids isLetterS a = true ->
  replaceFrom strokeRegex false 0 (a ++ t) = a ++ replaceFrom strokeRegex false 0 t.
Proof. apply (replaceFrom_calm strokeRegex isLetterS strokeRegex_starter). Qed.

Lemma size_calm_inv (a t out : jsstring) :
  avoids isSpace a = true ->
  replaceFrom sizeRegex false 0 t = a ++ out ->
  exists t2, t = a ++ t2 /\ out = replaceFrom sizeRegex false 0 t2.
Proof.
  apply (replaceFrom_calm_inv sizeRegex isSpace
           sizeRegex_length sizeRegex_first sizeRegex_starter).
Qed.

Lemma stroke_calm_inv (a t out : jsstring) :
  avoids isLetterS a = true ->
  replaceFrom strokeRegex false 0 t = a ++ out ->
  exists t2, t = a ++ t2 /\ out = replaceFrom strokeRegex false 0 t2.
Proof.
  apply (replaceFrom_calm_inv strokeRegex isLetterS
           strokeRegex_length strokeRegex_first strokeRegex_starter).
Qed.

Lemma size_inert (s : jsstring) (b : bool) :
  avoids isQuote s = true -> replaceFrom sizeRegex b 0 s = s.
Proof. apply (replaceFrom_inert sizeRegex _ sizeRegex_inert). Qed.

Lemma stroke_inert (s : jsstring) (b : bool) :
  avoids isQuote s = true -> replaceFrom strokeRegex b 0 s = s.
Proof. apply (replaceFrom_inert strokeRegex _ strokeRegex_inert). Qed.

Lemma stroke_flag (s : jsstring) :
  replaceFrom strokeRegex true 0 s = replaceFrom strokeRegex false 0 s.
Proof. destruct s; reflexivity. Qed.

Lemma sizeRegex_nomatch_stable (b : bool) (c : code_unit) (s : jsstring) :
  sizeRegex b (c :: s) = None ->
  sizeRegex b (c :: replaceFrom sizeRegex false 0 s) = None.
Proof.
  apply (sizeRegex_nomatch_kept (replaceFrom sizeRegex false 0)).
  - intros a t out Ha. apply size_calm_inv. exact (avoids_or_l _ _ _ Ha).
  - intros t. apply size_inert.
Qed.

Lemma sizeRegex_nomatch_after_stroke (b : bool) (c : code_unit) (s : jsstring) :
  sizeRegex b (c :: s) = None ->
  sizeRegex b (c :: replaceFrom strokeRegex false 0 s) = None.
Proof.
  apply (sizeRegex_nomatch_kept (replaceFrom strokeRegex false 0)).
  - intros a t out Ha. apply stroke_calm_inv. exact (avoids_or_r _ _ _ Ha).
  - intros t. apply stroke_inert.
Qed.

Lemma noneBoundary_kept (t : jsstring) :
  noneBoundary t = true ->
  noneBoundary (replaceFrom strokeRegex false 0 t) = true.
Proof.
  unfold noneBoundary at 1. intros H. apply andb_true_iff in H as [Hs Hb].
  apply startsWith_app in Hs as [t4 ->].
  change (skipn 4 (js "none" ++ t4)) with t4 in Hb.
  rewrite stroke_calm by reflexivity.
  unfold noneBoundary.
  assert (Hs : startsWith (js "none" ++ replaceFrom strokeRegex false 0 t4)
                 (js "none") = true)
    by (apply startsWith_app; eexists; reflexivity).
  rewrite Hs. cbn [andb].
  change (skipn 4 (js "none" ++ replaceFrom strokeRegex false 0 t4))
    with (replaceFrom strokeRegex false 0 t4).
  destruct t4 as [|x t5]; [reflexivity|].
  destruct (replaceFrom_first strokeRegex isLetterS
              strokeRegex_length strokeRegex_first false x t5) as [out ->].
  exact Hb.
Qed.

Lemma strokeRegex_nomatch_stable (b : bool) (c : code_unit) (s : jsstring) :
  strokeRegex b (c :: s) = None ->
  strokeRegex b (c :: replaceFrom strokeRegex false 0 s) = None.
Proof.
  intros Hnone.
  destruct (strokeRegex b (c :: replaceFrom strokeRegex false 0 s))
    as [[rep n]|] eqn:E; [exfalso | reflexivity].
  destruct (strokeRegex_inv _ _ _ _ E) as (t & m & Hs & Hn & Hq & _ & _).
  cbn in Hs. injection Hs as -> Hs.
  change (replaceFrom strokeRegex false 0 s = (js "troke=" ++ quote) ++ t) in Hs.
  apply stroke_calm_inv in Hs as (t2 & -> & ->); [|reflexivity].
  change (strokeRegex b (js "stroke=" ++ quote ++ t2) = None) in Hnone.
  rewrite strokeRegex_named in Hnone.
  destruct (noneBoundary t2) eqn:En.
  - rewrite (noneBoundary_kept _ En) in Hn. discriminate.
  - destruct (quoted t2) eqn:Eq; [discriminate|].
    rewrite (stroke_inert _ _ (proj1 (quoted_none _) Eq)) in Hq. congruence.
Qed.

Lemma size_idem (s : jsstring) (b : bool) :
  replaceFrom sizeRegex b 0 (replaceFrom sizeRegex b 0 s)
  = replaceFrom sizeRegex b 0 s.
Proof.
  apply (replaceFrom_idem_le sizeRegex sizeRegex_length sizeRegex_rematch
           sizeRegex_nomatch_stable (length s)). lia.
Qed.

Lemma stroke_idem (s : jsstring) (b : bool) :
  replaceFrom strokeRegex b 0 (replaceFrom strokeRegex b 0 s)
  = replaceFrom strokeRegex b 0 s.
Proof.
  apply (replaceFrom_idem_le strokeRegex strokeRegex_length strokeRegex_rematch
           strokeRegex_nomatch_stable (length s)). lia.
Qed.

Lemma size_fixed_match (b : bool) (t rep : jsstring) (n : nat) :
  replaceFrom sizeRegex b 0 t = t ->
  sizeRegex b t = Some (rep, n) ->
  n = length rep /\ t = rep ++ skipn n t /\
  replaceFrom sizeRegex false 0 (skipn n t) = skipn n t.
Proof. apply (replaceFrom_fixed_match sizeRegex sizeRegex_length sizeRegex_shape). Qed.

Lemma stroke_fixed_match (b : bool) (t rep : jsstring) (n : nat) :
  replaceFrom strokeRegex b 0 t = t ->
  strokeRegex b t = Some (rep, n) ->
  n = length rep /\ t = rep ++ skipn n t /\
  replaceFrom strokeRegex false 0 (skipn n t) = skipn n t.
Proof. apply (replaceFrom_fixed_match strokeRegex strokeRegex_length strokeRegex_shape). Qed.

Lemma size_fixed_suffix (t : jsstring) (b : bool) (k : nat) :
  replaceFrom sizeRegex b 0 t = t ->
  replaceFrom sizeRegex false 0 (skipn k t) = skipn k t.
Proof.
  apply (replaceFrom_fixed_suffix_le sizeRegex isSpace sizeRegex_length
           sizeRegex_first sizeRegex_starter sizeRegex_false_true
           sizeRegex_shape (length t)). lia.
Qed.

Lemma stroke_fixed_suffix (t : jsstring) (b : bool) (k : nat) :
  replaceFrom strokeRegex b 0 t = t ->
  replaceFrom strokeRegex false 0 (skipn k t) = skipn k t.
Proof.
  apply (replaceFrom_fixed_suffix_le strokeRegex isLetterS strokeRegex_length
           strokeRegex_first strokeRegex_starter strokeRegex_false_true
           strokeRegex_shape (length t)). lia.
Qed.

Lemma sizeRegex_rep_no_s (b : bool) (s rep : jsstring) (n : nat) :
  sizeRegex b s = Some (rep, n) -> avoids isLetterS rep = true.
Proof.
  intros H.
  destruct (sizeRegex_inv _ _ _ _ H) as (pre & g2 & t & m & Hpre & Hg & _ & _ & -> & _).
  rewrite avoids_app. apply andb_true_iff. split.
  - destruct Hpre as [c Hc | _]; [|reflexivity].
    unfold avoids, isLetterS. cbn [forallb]. rewrite andb_true_r.
    destruct (N.eqb c 115) eqn:E; [|reflexivity].
    apply N.eqb_eq in E. subst c. discriminate.
  - destruct Hg as [-> | ->]; reflexivity.
Qed.

Lemma size_over_stroke (b : bool) (rest : jsstring) :
  replaceFrom sizeRegex b 0 ((js "stroke=" ++ quote ++ NEW_COLOR ++ quote) ++ rest)
  = (js "stroke=" ++ quote ++ NEW_COLOR ++ quote)
      ++ replaceFrom sizeRegex false 0 rest.
Proof.
  change ((js "stroke=" ++ quote ++ NEW_COLOR ++ quote) ++ rest)
    with (115%N :: (js "troke=" ++ quote ++ NEW_COLOR ++ quote) ++ rest).
  rewrite replaceFrom_nomatch by (destruct b; reflexivity).
  rewrite size_calm by reflexivity. reflexivity.
Qed.

(** The stroke rewriting keeps a text that the size rewriting leaves as
    it is in that state. *)
Lemma size_fixed_after_stroke_le (n : nat) : forall (t : jsstring) (b : bool),
  length t <= n ->
  replaceFrom sizeRegex b 0 t = t ->
  replaceFrom sizeRegex b 0 (replaceFrom strokeRegex false 0 t)
  = replaceFrom strokeRegex false 0 t.
Proof.
  induction n as [|n IH]; intros [|c t] b Hl Hfix; try reflexivity;
    [cbn [length] in Hl; lia|].
  destruct (sizeRegex b (c :: t)) as [[rep1 k]|] eqn:E1.
  - destruct (size_fixed_match _ _ _ _ Hfix E1) as (Hk & Ht & Hs).
    pose proof (sizeRegex_rep_no_s _ _ _ _ E1) as Hno.
    pose proof (fun rest => sizeRegex_rematch _ _ _ _ rest E1) as Hre.
    assert (HY : length (skipn k (c :: t)) <= n).
    { pose proof (sizeRegex_length _ _ _ _ E1) as [Hk1 _].
      rewrite length_skipn. cbn [length] in Hl |- *. lia. }
    revert Ht Hs HY. generalize (skipn k (c :: t)) as rest.
    intros rest Ht Hs HY. rewrite Ht.
    rewrite (stroke_calm _ _ Hno).
    rewrite (replaceFrom_match sizeRegex sizeRegex_length _ _ _ _ (Hre _)).
    rewrite skipn_prefix, (IH rest false HY Hs). reflexivity.
  - pose proof Hfix as Hfix0.
    rewrite (replaceFrom_nomatch _ _ _ _ E1) in Hfix. injection Hfix as Hfix.
    destruct (strokeRegex false (c :: t)) as [[rep2 k]|] eqn:E2.
    + rewrite (replaceFrom_match strokeRegex strokeRegex_length _ _ _ _ E2).
      destruct (strokeRegex_inv _ _ _ _ E2) as (t2 & m & _ & _ & _ & -> & _).
      rewrite size_over_stroke. rewrite IH; [reflexivity | |].
      * pose proof (strokeRegex_length _ _ _ _ E2) as [Hk1 _].
        rewrite length_skipn. cbn [length] in Hl |- *. lia.
      * exact (size_fixed_suffix _ _ k Hfix0).
    + rewrite (replaceFrom_nomatch _ _ _ _ E2).
      rewrite (replaceFrom_nomatch _ _ _ _ (sizeRegex_nomatch_after_stroke _ _ _ E1)).
      rewrite IH; [reflexivity | cbn [length] in Hl; lia | exact Hfix].
Qed.

Lemma processFile_text_size_fixed (svg : jsstring) :
  replaceFrom sizeRegex true 0 (processFile_text svg) = processFile_text svg.
Proof.
  unfold processFile_text, replaceAll. cbv zeta. rewrite stroke_flag.
  apply (size_fixed_after_stroke_le (length (replaceFrom sizeRegex true 0 svg)));
    [lia | apply size_idem].
Qed.

Lemma processFile_text_stroke_fixed (svg : jsstring) :
  replaceFrom strokeRegex true 0 (processFile_text svg) = processFile_text svg.
Proof. unfold processFile_text, replaceAll. cbv zeta. apply stroke_idem. Qed.


Lemma quoted_value (v rest : jsstring) :
  avoids isQuote v = true -> quoted (v ++ quote ++ rest) = Some (S (length v)).
Proof.
  unfold avoids. induction v as [|c v IH]; intros H; [reflexivity|].
  cbn [forallb] in H. apply andb_true_iff in H as [Hc Hv].
  apply negb_true_iff in Hc. cbn [app quoted length]. rewrite Hc, (IH Hv).
  reflexivity.
Qed.

Lemma app_same_length {A : Type} (a : list A) : forall (b x y : list A),
  length a = length b -> a ++ x = b ++ y -> a = b.
Proof.
  induction a as [|u a IH]; intros [|w b] x y Hl H; try discriminate; [reflexivity|].
  cbn [app] in H. injection H as -> H. cbn [length] in Hl.
  f_equal. apply (IH b x y); [lia | exact H].
Qed.

Lemma skipn_nth_error {A : Type} (l : list A) : forall (j : nat) (c : A),
  nth_error l j = Some c -> skipn j l = c :: skipn (S j) l.
Proof.
  induction l as [|x l IH]; intros [|j] c H; try discriminate.
  - injection H as ->. reflexivity.
  - exact (IH j c H).
Qed.

(** X16. Running the rewriting of [processFile] on a text it has written
    gives that text again: a second run of the script changes nothing. *)
Theorem processFile_text_idempotent (svg : jsstring) :
  processFile_text (processFile_text svg) = processFile_text svg.
Proof.
  unfold processFile_text at 1. unfold replaceAll. cbv zeta.
  rewrite processFile_text_size_fixed. apply processFile_text_stroke_fixed.
Qed.

(** X17. In the text [processFile] writes, every [width] or [height]
    attribute that stands at the start of the text or after a white-space
    unit has the new size as its value. *)
Theorem written_sizes_are_new (svg : jsstring) (k : nat) (name v rest : jsstring) :
  (k = 0 \/
   exists j c, k = S j /\ nth_error (processFile_text svg) j = Some c /\
               isSpace c = true) ->
  name = js "width" \/ name = js "height" ->
  skipn k (processFile_text svg) = name ++ js "=" ++ quote ++ v ++ quote ++ rest ->
  avoids isQuote v = true ->
  v = NEW_SIZE.
Proof.
  intros Hpos Hname Hs Hv.
  pose proof (processFile_text_size_fixed svg) as Hfix.
  assert (Ht : exists b pre t,
            sizeLead b pre /\ replaceFrom sizeRegex b 0 t = t /\
            t = pre ++ name ++ js "=" ++ quote ++ (v ++ quote ++ rest)).
  { destruct Hpos as [-> | (j & c & -> & Hj & Hc)].
    - exists true, [], (processFile_text svg).
      split; [apply LeadStart; reflexivity|]. split; [exact Hfix | exact Hs].
    - exists false, [c], (skipn j (processFile_text svg)).
      split; [apply LeadSpace; exact Hc|].
      split; [exact (size_fixed_suffix _ _ j Hfix)|].
      rewrite (skipn_nth_error _ _ _ Hj), Hs. reflexivity. }
  destruct Ht as (b & pre & t & Hpre & Hfixed & Heq).
  pose proof (sizeRegex_named b pre name (v ++ quote ++ rest) Hpre Hname) as Hm.
  rewrite <- Heq, (quoted_value _ _ Hv) in Hm. cbn [option_map] in Hm.
  destruct (size_fixed_match _ _ _ _ Hfixed Hm) as (Hn & Hrep & _).
  rewrite !length_app in Hn.
  change (length (js "=")) with 1 in Hn. change (length quote) with 1 in Hn.
  change (length NEW_SIZE) with 2 in Hn.
  rewrite Heq in Hrep at 1. rewrite <- !app_assoc in Hrep.
  do 4 apply app_inv_head in Hrep.
  apply (app_same_length v NEW_SIZE _ _) in Hrep; [exact Hrep|].
  change (length NEW_SIZE) with 2. lia.
Qed.

Lemma written_sizes_are_new_witness :
  substring (processFile_text sampleSvg) 12 14 = NEW_SIZE.
Proof.
  apply (written_sizes_are_new sampleSvg 5 (js "width")
           (substring (processFile_text sampleSvg) 12 14)
           (skipn 15 (processFile_text sampleSvg))).
  - right. exists 4, 32%N.
    split; [reflexivity|]. split; vm_compute; reflexivity.
  - left. reflexivity.
  - vm_compute. reflexivity.
  - vm_compute. reflexivity.
Defined.

(** X18. In the text [processFile] writes, every [stroke] attribute has
    the new colour as its value, unless its value starts with the word
    [none]. *)
Theorem written_strokes_are_new (svg : jsstring) (k : nat) (v rest : jsstring) :
  skipn k (processFile_text svg) = js "stroke=" ++ quote ++ v ++ quote ++ rest ->
  avoids isQuote v = true ->
  v = NEW_COLOR \/ noneBoundary (v ++ quote ++ rest) = true.
Proof.
  intros Hs Hv.
  pose proof (stroke_fixed_suffix _ _ k (processFile_text_stroke_fixed svg)) as Hfixed.
  destruct (noneBoundary (v ++ quote ++ rest)) eqn:En; [right; reflexivity | left].
  pose proof (strokeRegex_named false (v ++ quote ++ rest)) as Hm.
  rewrite <- Hs, En, (quoted_value _ _ Hv) in Hm. cbn [option_map] in Hm.
  destruct (stroke_fixed_match _ _ _ _ Hfixed Hm) as (Hn & Hrep & _).
  change (length (js "stroke=" ++ quote ++ NEW_COLOR ++ quote)) with 16 in Hn.
  rewrite Hs in Hrep at 1.
  change (js "stroke=" ++ quote ++ v ++ quote ++ rest)
    with ((js "stroke=" ++ quote) ++ v ++ quote ++ rest) in Hrep.
  change ((js "stroke=" ++ quote ++ NEW_COLOR ++ quote) ++
          skipn (8 + S (length v)) (skipn k (processFile_text svg)))
    with ((js "stroke=" ++ quote) ++ NEW_COLOR ++ quote ++
          skipn (8 + S (length v)) (skipn k (processFile_text svg))) in Hrep.
  apply app_inv_head in Hrep.
  apply (app_same_length v NEW_COLOR _ _) in Hrep; [exact Hrep|].
  change (length NEW_COLOR) with 7. lia.
Qed.

Lemma written_strokes_are_new_witness :
  substring (processFile_text sampleSvg) 36 43 = NEW_COLOR \/
  noneBoundary (substring (processFile_text sampleSvg) 36 43 ++ quote ++
                skipn 44 (processFile_text sampleSvg)) = true.
Proof.
  apply (written_strokes_are_new sampleSvg 28).
  - vm_compute. reflexivity.
  - vm_compute. reflexivity.
Defined.

(** X19. A text without a double quote has no attribute to rewrite:
    [processFile] writes it back as it read it. *)
Theorem text_without_quote_is_kept (svg : jsstring) :
  avoids isQuote svg = true -> processFile_text svg = svg.
Proof.
  intros H. unfold processFile_text, replaceAll. cbv zeta.
  rewrite (size_inert _ _ H). apply stroke_inert, H.
Qed.

Lemma text_without_quote_is_kept_witness :
  processFile_text (js "<svg></svg>") = js "<svg></svg>".
Proof.
  apply (text_without_quote_is_kept (js "<svg></svg>")).
  vm_compute. reflexivity.
Defined.


(* ================================================================= *)
(** * The image cache within a session *)

Section SessionFacts.
Variable bound : nat.
Variable host : Host.

Lemma sessionCalls_nonempty (requests : list (FileSystem * CompletionItem)) :
  Forall (fun op : CacheOp => truthy (snd op) = true) (sessionCalls requests).
Proof.
  unfold sessionCalls.
  induction requests as [|[fs item] requests IH]; cbn [flat_map]; [constructor|].
  apply Forall_app. split; [|exact IH]. cbn [fst snd].
  destruct (meta item) as [[iconName className]|]; [|constructor].
  destruct (truthy iconName) eqn:Hk; cbn [negb orb]; [|constructor].
  destruct (negb (truthy className)); constructor; [exact Hk | constructor].
Qed.

Lemma cacheStep_cache (st : Cache * list jsstring) (op : CacheOp) :
  fst (cacheStep bound host st op)
  = snd (getSvgDataUrl bound host (fst op) (fst st) (snd op)).
Proof.
  unfold cacheStep.
  destruct (getSvgDataUrl bound host (fst op) (fst st) (snd op)) as [[v|e] c];
    reflexivity.
Qed.

(** The image cache after a session is the cache after the session's
    [getSvgDataUrl] calls. *)
Lemma resolveRun_sessionCalls (requests : list (FileSystem * CompletionItem)) :
  resolveRun bound host requests
  = fst (cacheRun bound host (sessionCalls requests)).
Proof.
  unfold resolveRun, cacheRun.
  generalize (@nil jsstring) as h. generalize (JsMap.empty : Cache) as c.
  unfold sessionCalls.
  induction requests as [|[fs item] requests IH]; intros c h; [reflexivity|].
  cbn [fold_left flat_map fst snd]. rewrite fold_left_app.
  unfold resolveCompletionItem at 2.
  destruct (meta item) as [[iconName className]|]; [|apply IH].
  destruct (negb (truthy iconName) || negb (truthy className)); [apply IH|].
  cbn [fold_left].
  match goal with
  | |- context [fold_left _ _ (cacheStep bound host ?st ?op)] =>
      pose proof (cacheStep_cache st op) as Hc;
      destruct (cacheStep bound host st op) as [c1 h1]
  end.
  cbn [fst snd] in Hc. subst c1.
  destruct (getSvgDataUrl bound host fs c iconName) as [[v|e] c2];
    cbn [snd]; apply IH.
Qed.

(** C1.  The [getSvgDataUrl] calls of a session are the ones
    [resolveCompletionItem] makes, each on a non-empty identifier, and the
    image cache of the session is the cache after these calls.  For every
    finite sequence of such calls, from the empty cache and for every
    capacity bound: after the sequence (so after each of its operations)
    the cache holds at most [bound] entries; its keys, newest first, are
    exactly the [bound] most recently accessed distinct identifiers, hits
    and inserts both counting as accesses; and an entry that a further
    call removes is the oldest one, the least recently accessed identifier
    the cache holds. *)
Theorem image_cache_keeps_most_recent :
  (forall requests,
      Forall (fun op : CacheOp => truthy (snd op) = true) (sessionCalls requests) /\
      resolveRun bound host requests
      = fst (cacheRun bound host (sessionCalls requests))) /\
  (forall ops,
      Forall (fun op : CacheOp => truthy (snd op) = true) ops ->
      let st := cacheRun bound host ops in
      JsMap.size (fst st) <= bound /\
      rev (JsMap.keys (fst st)) = firstn bound (mostRecent (snd st)) /\
      (forall op x,
          truthy (snd op) = true ->
          In x (JsMap.keys (fst st)) ->
          ~ In x (JsMap.keys (fst (cacheStep bound host st op))) ->
          JsMap.first_key (fst st) = Some x /\
          exists newer, firstn bound (mostRecent (snd st)) = newer ++ [x])).
Proof.
  split.
  - intros requests.
    split; [apply sessionCalls_nonempty | apply resolveRun_sessionCalls].
  - exact (cacheRun_keeps_most_recent bound host).
Qed.

(** C10.  The image cache of a session holds each key once and at most
    [bound] entries, whatever the session requested.  On every such cache
    [lruGet] never changes the set of key-value pairs: a miss changes
    nothing and a hit moves the entry to the newest place; and [lruSet] on
    a key that is present gives the key the new value and the newest
    place and leaves every other entry as it was: no key is lost and none
    is gained. *)
Theorem lru_operations_frame :
  (forall requests,
      JsMap.wf (resolveRun bound host requests) /\
      JsMap.size (resolveRun bound host requests) <= bound) /\
  (forall (c : Cache) (k v : jsstring),
      JsMap.wf c ->
      (forall e, In e (snd (lruGet c k)) <-> In e c) /\
      (JsMap.has c k = false -> lruGet c k = (None, c)) /\
      (forall old, JsMap.get c k = Some old ->
         lruGet c k = (Some old, JsMap.delete c k ++ [(k, old)])) /\
      (JsMap.has c k = true -> JsMap.size c <= bound ->
         lruSet bound c k v = JsMap.delete c k ++ [(k, v)] /\
         (forall x, In x (JsMap.keys (lruSet bound c k v)) <-> In x (JsMap.keys c)) /\
         JsMap.get (lruSet bound c k v) k = Some v /\
         (forall k', k' <> k ->
            JsMap.get (lruSet bound c k v) k' = JsMap.get c k'))).
Proof.
  split.
  - intros requests. rewrite resolveRun_sessionCalls.
    pose proof (cacheRun_inv bound host _ (sessionCalls_nonempty requests)) as Hinv.
    split; [apply Hinv | apply (cacheInv_size bound _ Hinv)].
  - intros c k v. apply lru_frame_within_bound.
Qed.

End SessionFacts.

(** The scenario's accesses are on non-empty identifiers; the cache of
    capacity 2 stays within its bound and holds the two identifiers
    accessed last. *)
Lemma image_cache_keeps_most_recent_witness :
  Forall (fun op : CacheOp => truthy (snd op) = true) scenarioOps /\
  JsMap.size (fst (cacheRun 2 sampleHost scenarioOps)) <= 2 /\
  rev (JsMap.keys (fst (cacheRun 2 sampleHost scenarioOps)))
  = firstn 2 (mostRecent (snd (cacheRun 2 sampleHost scenarioOps))).
Proof.
  assert (H : Forall (fun op : CacheOp => truthy (snd op) = true) scenarioOps)
    by (repeat constructor).
  split; [exact H|].
  destruct (proj2 (image_cache_keeps_most_recent 2 sampleHost) scenarioOps H)
    as (Hsize & Hkeys & _).
  split; [exact Hsize | exact Hkeys].
Defined.

(** A cache of capacity 2 holding [x] and [search]: setting [x] again
    gives it the new value. *)
Lemma lru_operations_frame_witness :
  JsMap.get
    (lruSet 2 [(js "x", js "1"); (js "search", js "2")] (js "x") (js "3"))
    (js "x") = Some (js "3").
Proof.
  refine (proj1 (proj2 (proj2 (proj2 (proj2 (proj2
            (proj2 (lru_operations_frame 2 sampleHost)
               [(js "x", js "1"); (js "search", js "2")]
               (js "x") (js "3") _))) eq_refl _)))).
  - repeat constructor; simpl; intuition discriminate.
  - simpl; lia.
Defined.

(* ================================================================= *)
(** * A missing icon directory *)




